(** * Algebra-tile arrangement engine (script.js): a shallow embedding

    Pixel quantities (positions, sizes, areas) are JavaScript numbers in the
    source.  They are modelled as exact rationals [Q]; loop counters and
    coefficients are integers [Z].  The easing factor 0.1 is the rational
    1/10 and the settle threshold 0.5 is 1/2. *)

From Stdlib Require Import ZArith QArith Qabs Qminmax Qround List String Ascii Bool Lia Lqa.
From Stdlib Require Import Permutation.
Import ListNotations.

Local Open Scope Z_scope.

(** ** JavaScript number helpers *)

Module JS.

(** [a < b] on numbers. *)
Definition lt (a b : Q) : bool := negb (Qle_bool b a).

(** [a > b] on numbers. *)
Definition gt (a b : Q) : bool := lt b a.

(** An accumulator that starts at [Infinity] or [-Infinity]. *)
Inductive ext : Type :=
| NegInfinity
| Fin (q : Q)
| Infinity.

(** [Math.min(acc, v)] with a finite [v]. *)
Definition Math_min (acc : ext) (v : Q) : ext :=
  match acc with
  | NegInfinity => NegInfinity
  | Fin m => Fin (Qmin m v)
  | Infinity => Fin v
  end.

(** [Math.max(acc, v)] with a finite [v]. *)
Definition Math_max (acc : ext) (v : Q) : ext :=
  match acc with
  | NegInfinity => Fin v
  | Fin m => Fin (Qmax m v)
  | Infinity => Infinity
  end.

(** [v < acc] with a finite [v]. *)
Definition lt_ext (v : Q) (acc : ext) : bool :=
  match acc with
  | NegInfinity => false
  | Fin m => lt v m
  | Infinity => true
  end.

(** The finite value of an accumulator; it is only read after a loop over
    a non-empty array, where it is finite. *)
Definition finite (e : ext) : Q :=
  match e with
  | Fin q => q
  | _ => 0%Q
  end.

(** *** [parseInt(s)] with the radix omitted.

    [None] is [NaN].  Leading white space is skipped, one sign is read, a
    [0x]/[0X] prefix selects radix 16, and the longest prefix of digits is
    the value.  (The source rounds values beyond 2^53 to a double; the
    model keeps them exact.) *)

Definition isWhite (c : ascii) : bool :=
  let n := nat_of_ascii c in
  (Nat.eqb n 32 || Nat.eqb n 9 || Nat.eqb n 10 || Nat.eqb n 11
   || Nat.eqb n 12 || Nat.eqb n 13)%bool.

Fixpoint skipWhite (s : string) : string :=
  match s with
  | String c r => if isWhite c then skipWhite r else s
  | EmptyString => s
  end.

Definition digitVal (radix : Z) (c : ascii) : option Z :=
  let n := Z.of_nat (nat_of_ascii c) in
  let v :=
    if (48 <=? n) && (n <=? 57) then Some (n - 48)
    else if (97 <=? n) && (n <=? 122) then Some (n - 87)
    else if (65 <=? n) && (n <=? 90) then Some (n - 55)
    else None in
  match v with
  | Some d => if d <? radix then Some d else None
  | None => None
  end.

Fixpoint digits (radix : Z) (s : string) (acc : option Z) : option Z :=
  match s with
  | EmptyString => acc
  | String c r =>
      match digitVal radix c with
      | Some d =>
          digits radix r
            (Some (radix * match acc with Some a => a | None => 0 end + d))
      | None => acc
      end
  end.

Definition parseInt (s : string) : option Z :=
  let s1 := skipWhite s in
  let '(sign, s2) :=
    match s1 with
    | String "-"%char r => (-1, r)
    | String "+"%char r => (1, r)
    | _ => (1, s1)
    end in
  let '(radix, s3) :=
    match s2 with
    | String "0"%char (String "x"%char r) => (16, r)
    | String "0"%char (String "X"%char r) => (16, r)
    | _ => (10, s2)
    end in
  option_map (Z.mul sign) (digits radix s3 None).

(** [v || d] for a number [v]: [NaN] and [0] are falsy. *)
Definition orElse (v : option Z) (d : Z) : Z :=
  match v with
  | Some z => if z =? 0 then d else z
  | None => d
  end.

(** [for (let i = 0; i < k; i++)]: the values taken by [i]. *)
Definition upto (k : Z) : list Z :=
  map Z.of_nat (seq 0 (Z.to_nat k)).

(** [for (let i = lo; i <= hi; i++)]: the values taken by [i]. *)
Definition fromTo (lo hi : Z) : list Z :=
  map (fun k => lo + Z.of_nat k) (seq 0 (Z.to_nat (hi - lo + 1))).

End JS.

(** ** Configuration *)

Record Sizes : Type := mkSizes {
  SIZES_x : Q;   (* x tile length (and x^2 side) *)
  SIZES_u : Q    (* unit tile side (and x tile width) *)
}.

Record TileConfig : Type := mkTileConfig {
  UNIT : Q;
  GAP : Q;
  SIZES : Sizes
}.

Definition TILE_CONFIG : TileConfig :=
  {| UNIT := 60; GAP := 10; SIZES := {| SIZES_x := 200; SIZES_u := 25 |} |}.


(** ** A single algebra tile *)

Inductive TileType : Type := T_x2 | T_x | T_one.

Definition TileType_eqb (s t : TileType) : bool :=
  match s, t with
  | T_x2, T_x2 | T_x, T_x | T_one, T_one => true
  | _, _ => false
  end.

Module Tile.

Record t : Type := mk {
  type : TileType;
  x : Q;
  y : Q;
  isNegative : bool;
  rotation : Z;              (* 0 or 1 *)
  isDragging : bool;
  uSize : Q;
  xSize : Q;
  w : Q;
  h : Q;
  targetX : option Q;        (* [None] is [undefined] *)
  targetY : option Q
}.

Definition setDims (tl : t) (w' h' : Q) : t :=
  mk (type tl) (x tl) (y tl) (isNegative tl) (rotation tl) (isDragging tl)
     (uSize tl) (xSize tl) w' h' (targetX tl) (targetY tl).

Definition setPos (tl : t) (x' y' : Q) : t :=
  mk (type tl) x' y' (isNegative tl) (rotation tl) (isDragging tl)
     (uSize tl) (xSize tl) (w tl) (h tl) (targetX tl) (targetY tl).

Definition setRotation (tl : t) (r : Z) : t :=
  mk (type tl) (x tl) (y tl) (isNegative tl) r (isDragging tl)
     (uSize tl) (xSize tl) (w tl) (h tl) (targetX tl) (targetY tl).

Definition setTarget (tl : t) (tx ty : Q) : t :=
  mk (type tl) (x tl) (y tl) (isNegative tl) (rotation tl) (isDragging tl)
     (uSize tl) (xSize tl) (w tl) (h tl) (Some tx) (Some ty).


Definition updateDimensions (tl : t) : t :=
  match type tl with
  | T_x2 => setDims tl (xSize tl) (xSize tl)
  | T_x =>
      setDims tl
        (if rotation tl =? 0 then xSize tl else uSize tl)
        (if rotation tl =? 0 then uSize tl else xSize tl)
  | T_one => setDims tl (uSize tl) (uSize tl)
  end.

(** [new Tile(type, x, y, isNegative)] under the current configuration. *)
Definition new (cfg : TileConfig) (ty : TileType) (x0 y0 : Q) (neg : bool) : t :=
  updateDimensions
    (mk ty x0 y0 neg 0 false (SIZES_u (SIZES cfg)) (SIZES_x (SIZES cfg))
        0%Q 0%Q None None).

Definition contains (tl : t) (mx my : Q) : bool :=
  (Qle_bool (x tl) mx && Qle_bool mx (x tl + w tl)
   && Qle_bool (y tl) my && Qle_bool my (y tl + h tl))%bool.

Definition rotate (tl : t) : t :=
  match type tl with
  | T_x => updateDimensions (setRotation tl (if rotation tl =? 0 then 1 else 0))
  | _ => tl
  end.

End Tile.

(** ** Application state

    [coeff_a], [coeff_b], [coeff_c] are the values of the three input fields
    and [feedback] is what the feedback panel shows ([None] when hidden). *)

Record App : Type := mkApp {
  tiles : list Tile.t;
  isAnimating : bool;
  config : TileConfig;
  canvasWidth : Q;
  canvasHeight : Q;
  coeff_a : string;
  coeff_b : string;
  coeff_c : string;
  feedback : option (string * bool)
}.

Definition setTiles (app : App) (ts : list Tile.t) : App :=
  mkApp ts (isAnimating app) (config app) (canvasWidth app) (canvasHeight app)
        (coeff_a app) (coeff_b app) (coeff_c app) (feedback app).

Definition setAnimating (app : App) (b : bool) : App :=
  mkApp (tiles app) b (config app) (canvasWidth app) (canvasHeight app)
        (coeff_a app) (coeff_b app) (coeff_c app) (feedback app).

Definition showFeedback (message : string) (isSuccess : bool) (app : App) : App :=
  mkApp (tiles app) (isAnimating app) (config app) (canvasWidth app)
        (canvasHeight app) (coeff_a app) (coeff_b app) (coeff_c app)
        (Some (message, isSuccess)).



(** ** Tile generation *)

(** The x^2 row: one tile per iteration, [startX] advancing by the tile
    length plus the gap. *)
Fixpoint genSquares (cfg : TileConfig) (neg : bool) (k : nat) (startX startY : Q)
  : list Tile.t :=
  match k with
  | O => []
  | S k' =>
      Tile.new cfg T_x2 startX startY neg
      :: genSquares cfg neg k' (startX + SIZES_x (SIZES cfg) + GAP cfg)%Q startY
  end.

(** The x rows: wraps after every tenth tile; returns the tiles and the
    final [startY]. *)
Fixpoint genBars (cfg : TileConfig) (neg : bool) (k : nat) (i : Z) (startX startY : Q)
  : list Tile.t * Q :=
  match k with
  | O => ([], startY)
  | S k' =>
      let tl := Tile.new cfg T_x startX startY neg in
      let startX1 := (startX + 50)%Q in
      let '(rest, endY) :=
        if Z.rem i 10 =? 9
        then genBars cfg neg k' (i + 1) 50%Q (startY + 110)%Q
        else genBars cfg neg k' (i + 1) startX1 startY in
      (tl :: rest, endY)
  end.

Fixpoint genUnits (cfg : TileConfig) (neg : bool) (k : nat) (startX startY : Q)
  : list Tile.t :=
  match k with
  | O => []
  | S k' =>
      Tile.new cfg T_one startX startY neg
      :: genUnits cfg neg k' (startX + 50)%Q startY
  end.

Definition generatedTiles (cfg : TileConfig) (a b c : Z) : list Tile.t :=
  let startY := 50%Q in
  let squares := genSquares cfg (a <? 0) (Z.to_nat (Z.abs a)) 50%Q startY in
  let startY := (startY + 120)%Q in
  let '(bars, startY) := genBars cfg (b <? 0) (Z.to_nat (Z.abs b)) 0 50%Q startY in
  let startY := (startY + 120)%Q in
  let units := genUnits cfg (c <? 0) (Z.to_nat (Z.abs c)) 50%Q startY in
  squares ++ bars ++ units.

Definition generateTiles (a b c : Z) (app : App) : App :=
  setTiles app (generatedTiles (config app) a b c).

(** ** Factoring solver *)

(** The [while (m > 0)] loop of [getClosestFactors], counting [m] down. *)
Fixpoint closestLoop (num : Z) (m : nat) : Z * Z :=
  match m with
  | O => (1, num)
  | S m' =>
      if Z.rem num (Z.of_nat m) =? 0
      then (Z.of_nat m, Z.quot num (Z.of_nat m))
      else closestLoop num m'
  end.

Definition getClosestFactors (num : Z) : Z * Z :=
  let num := Z.abs num in
  closestLoop num (Z.to_nat (Z.sqrt num)).

(** One iteration of the search loop: [None] is [continue] or a failed
    test, [Some (p, q)] is the accepted pair. *)
Definition tryCandidate (m n b c i : Z) : option (Z * Z) :=
  if negb (c =? 0) then
    if i =? 0 then None
    else if negb (Z.rem c i =? 0) then None
    else
      let currentQ := Z.quot c i in
      if m * currentQ + n * i =? b then Some (i, currentQ) else None
  else
    if negb (i =? 0) then None
    else
      let currentQ :=
        if negb (m =? 0) && (Z.rem b m =? 0) then Z.quot b m else 0 in
      if m * currentQ + n * 0 =? b then Some (0, currentQ) else None.

(** The [for] loop over [i], leaving at the first accepted pair. *)
Fixpoint searchLoop (m n b c : Z) (candidates : list Z) : option (Z * Z) :=
  match candidates with
  | [] => None
  | i :: rest =>
      match tryCandidate m n b c i with
      | Some pq => Some pq
      | None => searchLoop m n b c rest
      end
  end.

Definition searchLimit (b c : Z) : Z :=
  if Z.abs c =? 0 then Z.abs b else Z.abs c.

Definition solveSearch (m n b c : Z) : option (Z * Z) :=
  let limit := searchLimit b c in
  searchLoop m n b c (JS.fromTo (- limit) limit).

(** *** Auto-layout: target assignment on the shared tile objects

    [this.tiles.filter(...)] yields an array of references to tiles of
    [this.tiles]; a reference is modelled as the index of the tile in
    [this.tiles], and writing through it rewrites that element. *)

Fixpoint refsFrom (ty : TileType) (ts : list Tile.t) (i : nat) : list nat :=
  match ts with
  | [] => []
  | tl :: rest =>
      if TileType_eqb (Tile.type tl) ty
      then i :: refsFrom ty rest (S i)
      else refsFrom ty rest (S i)
  end.

Definition refsOf (ty : TileType) (ts : list Tile.t) : list nat :=
  refsFrom ty ts 0.

Fixpoint mutate (ts : list Tile.t) (ref : nat) (f : Tile.t -> Tile.t) : list Tile.t :=
  match ts, ref with
  | [], _ => []
  | tl :: rest, O => f tl :: rest
  | tl :: rest, S r => tl :: mutate rest r f
  end.

(** Two nested counting loops: the pairs (outer, inner) in iteration order. *)
Definition nested (outer inner : Z) : list (Z * Z) :=
  flat_map (fun o => map (fun i => (o, i)) (JS.upto inner)) (JS.upto outer).

(** A placement loop: each slot takes the next reference while one is left
    ([if (idx < list.length)]). *)
Definition fill (refs : list nat) (slots : list (Z * Z))
    (place : Z * Z -> Tile.t -> Tile.t) (ts : list Tile.t) : list Tile.t :=
  fold_left (fun acc sr => mutate acc (snd sr) (place (fst sr)))
            (combine slots refs) ts.

Definition getRank (tl : Tile.t) : Z :=
  match Tile.type tl with
  | T_x2 => 1
  | T_x => 2
  | T_one => 3
  end.

(** [Array.prototype.sort] is stable: equal ranks keep their order. *)
Fixpoint insertByRank (tl : Tile.t) (sorted : list Tile.t) : list Tile.t :=
  match sorted with
  | [] => [tl]
  | u :: rest =>
      if getRank u <? getRank tl
      then u :: insertByRank tl rest
      else tl :: u :: rest
  end.

Definition sortByRank (ts : list Tile.t) : list Tile.t :=
  fold_right insertByRank [] ts.

Definition assignTargets (app : App) (m n p q : Z) : list Tile.t :=
  let ts := tiles app in
  let x2List := refsOf T_x2 ts in
  let xList := refsOf T_x ts in
  let oneList := refsOf T_one ts in
  let X := SIZES_x (SIZES (config app)) in
  let U := SIZES_u (SIZES (config app)) in
  let gridW := (inject_Z m * X)%Q in
  let gridH := (inject_Z n * X)%Q in
  let totalW := if 0 <? p then (gridW + inject_Z p * U)%Q else gridW in
  let totalH := if 0 <? q then (gridH + inject_Z q * U)%Q else gridH in
  let startX := ((canvasWidth app - totalW) / 2)%Q in
  let startY := ((canvasHeight app - totalH) / 2)%Q in
  (* 1. x^2 grid *)
  let ts :=
    fill x2List (nested n m)
      (fun rc tl =>
         Tile.setTarget tl
           (startX + inject_Z (snd rc) * Tile.xSize tl)%Q
           (startY + inject_Z (fst rc) * Tile.xSize tl)%Q) ts in
  (* 2. vertical x, p columns *)
  let pAbs := Z.abs p in
  let pIsNeg := p <? 0 in
  let vStartX :=
    if pIsNeg then (startX + gridW - inject_Z pAbs * U)%Q
    else (startX + gridW)%Q in
  let vSlots := nested pAbs n in
  let ts :=
    fill xList vSlots
      (fun cr tl =>
         Tile.setTarget (Tile.updateDimensions (Tile.setRotation tl 1))
           (vStartX + inject_Z (fst cr) * U)%Q
           (startY + inject_Z (snd cr) * X)%Q) ts in
  (* 3. horizontal x, q rows *)
  let qAbs := Z.abs q in
  let qIsNeg := q <? 0 in
  let hStartY :=
    if qIsNeg then (startY + gridH - inject_Z qAbs * U)%Q
    else (startY + gridH)%Q in
  let ts :=
    fill (skipn (List.length vSlots) xList) (nested qAbs m)
      (fun rc tl =>
         Tile.setTarget (Tile.updateDimensions (Tile.setRotation tl 0))
           (startX + inject_Z (snd rc) * X)%Q
           (hStartY + inject_Z (fst rc) * U)%Q) ts in
  (* 4. units at the intersection *)
  let uStartX := vStartX in
  let uStartY := hStartY in
  fill oneList (nested qAbs pAbs)
    (fun rc tl =>
       Tile.setTarget tl
         (uStartX + inject_Z (snd rc) * U)%Q
         (uStartY + inject_Z (fst rc) * U)%Q) ts.

Definition msgNoNiceRectangles : string :=
  "This equation doesn't favor nice integer rectangles!".

(** The coefficients as [solveAndAnimate] reads them. *)
Definition solverCoefficients (app : App) : Z * Z * Z :=
  (JS.orElse (JS.parseInt (coeff_a app)) 1,
   JS.orElse (JS.parseInt (coeff_b app)) 5,
   JS.orElse (JS.parseInt (coeff_c app)) 6).

(** The outcome of the search on the coefficients the solver reads. *)
Definition solverSearch (app : App) : option (Z * Z) :=
  let '(a, b, c) := solverCoefficients app in
  let '(m, n) := getClosestFactors a in
  solveSearch m n b c.

Definition solveAndAnimate (app : App) : App :=
  let '(a, b, c) := solverCoefficients app in
  let app := generateTiles a b c app in
  let '(m, n) := getClosestFactors a in
  match solveSearch m n b c with
  | None => showFeedback msgNoNiceRectangles false app
  | Some (p, q) =>
      let app := setTiles app (assignTargets app m n p q) in
      let app := setTiles app (sortByRank (tiles app)) in
      setAnimating app true
  end.

(** ** Snapping *)

Definition snapDist : Q := 15.

(** [Math.abs(a - b) < snapDist] *)
Definition within (a b : Q) : bool :=
  JS.lt (Qabs (a - b)) snapDist.

Definition place (s : Tile.t * bool) (x' y' : Q) : Tile.t * bool :=
  (Tile.setPos (fst s) x' y', true).

(** The body of the loop of [snapToNeighbors] for one [other], block by
    block.  Every block reads the edges computed at the top of the body
    from the tile as it entered the body; [s] is the tile so far with the
    [snapped] flag. *)

(** 1. Right of other *)
Definition snapRight (tile other : Tile.t) (s : Tile.t * bool) : Tile.t * bool :=
  let tL := Tile.x tile in
  let tT := Tile.y tile in
  let tB := (Tile.y tile + Tile.h tile)%Q in
  let oR := (Tile.x other + Tile.w other)%Q in
  let oT := Tile.y other in
  let oB := (Tile.y other + Tile.h other)%Q in
  if within tL oR then
    if within tT oT then place s oR oT
    else if within tB oB then place s oR (oB - Tile.h tile)%Q
    else s
  else s.

(** 2. Left of other *)
Definition snapLeft (tile other : Tile.t) (s : Tile.t * bool) : Tile.t * bool :=
  let tR := (Tile.x tile + Tile.w tile)%Q in
  let tT := Tile.y tile in
  let tB := (Tile.y tile + Tile.h tile)%Q in
  let oL := Tile.x other in
  let oT := Tile.y other in
  let oB := (Tile.y other + Tile.h other)%Q in
  if negb (snd s) && within tR oL then
    if within tT oT then place s (oL - Tile.w tile)%Q oT
    else if within tB oB then place s (oL - Tile.w tile)%Q (oB - Tile.h tile)%Q
    else s
  else s.

(** 3. Bottom of other *)
Definition snapBottom (tile other : Tile.t) (s : Tile.t * bool) : Tile.t * bool :=
  let tL := Tile.x tile in
  let tR := (Tile.x tile + Tile.w tile)%Q in
  let tT := Tile.y tile in
  let oL := Tile.x other in
  let oR := (Tile.x other + Tile.w other)%Q in
  let oB := (Tile.y other + Tile.h other)%Q in
  if negb (snd s) && within tT oB then
    if within tL oL then place s oL oB
    else if within tR oR then place s (oR - Tile.w tile)%Q oB
    else s
  else s.

(** 4. Top of other *)
Definition snapTop (tile other : Tile.t) (s : Tile.t * bool) : Tile.t * bool :=
  let tL := Tile.x tile in
  let tR := (Tile.x tile + Tile.w tile)%Q in
  let tB := (Tile.y tile + Tile.h tile)%Q in
  let oL := Tile.x other in
  let oR := (Tile.x other + Tile.w other)%Q in
  let oT := Tile.y other in
  if negb (snd s) && within tB oT then
    if within tL oL then place s oL (oT - Tile.h tile)%Q
    else if within tR oR then place s (oR - Tile.w tile)%Q (oT - Tile.h tile)%Q
    else s
  else s.

(** Inner snapping: Left-Left align *)
Definition snapLeftLeft (tile other : Tile.t) (s : Tile.t * bool) : Tile.t * bool :=
  let tL := Tile.x tile in
  let tT := Tile.y tile in
  let tB := (Tile.y tile + Tile.h tile)%Q in
  let oL := Tile.x other in
  let oT := Tile.y other in
  let oB := (Tile.y other + Tile.h other)%Q in
  if within tL oL then
    if within tT oT then place s oL oT
    else if within tB oB then place s oL (oB - Tile.h tile)%Q
    else if within tT oB then place s oL oB
    else if within tB oT then place s oL (oT - Tile.h tile)%Q
    else s
  else s.

(** Inner snapping: Top-Top align *)
Definition snapTopTop (tile other : Tile.t) (s : Tile.t * bool) : Tile.t * bool :=
  let tL := Tile.x tile in
  let tR := (Tile.x tile + Tile.w tile)%Q in
  let tT := Tile.y tile in
  let oL := Tile.x other in
  let oR := (Tile.x other + Tile.w other)%Q in
  let oT := Tile.y other in
  if negb (snd s) && within tT oT then
    if within tL oL then place s oL oT
    else if within tR oR then place s (oR - Tile.w tile)%Q oT
    else if within tL oR then place s oR oT
    else if within tR oL then place s (oL - Tile.w tile)%Q oT
    else s
  else s.

(** Inner snapping, entered only while nothing has snapped *)
Definition snapInner (tile other : Tile.t) (s : Tile.t * bool) : Tile.t * bool :=
  if negb (snd s) then snapTopTop tile other (snapLeftLeft tile other s)
  else s.

Definition snapStep (tile other : Tile.t) : Tile.t * bool :=
  let s := (tile, false) in
  let s := snapRight tile other s in
  let s := snapLeft tile other s in
  let s := snapBottom tile other s in
  let s := snapTop tile other s in
  snapInner tile other s.

(** The loop over [this.tiles]; the moving tile is the element at index
    [moving] ([other === tile] is reference equality) and [j] is the index
    of the head of [others]. *)
Fixpoint snapLoop (moving : nat) (tile : Tile.t) (others : list Tile.t) (j : nat)
  : Tile.t :=
  match others with
  | [] => tile
  | other :: rest =>
      if Nat.eqb j moving then snapLoop moving tile rest (S j)
      else
        let '(tile', snapped) := snapStep tile other in
        if snapped then tile' else snapLoop moving tile' rest (S j)
  end.

Definition snapToNeighbors (moving : nat) (app : App) : App :=
  match nth_error (tiles app) moving with
  | Some tile =>
      setTiles app
        (mutate (tiles app) moving
           (fun _ => snapLoop moving tile (tiles app) 0))
  | None => app
  end.

(** *** Vocabulary for the snapping properties *)







(** What a state of the loop body can be: the entering tile, not snapped,
    or the entering tile moved, snapped. *)
Definition bodyState (tile : Tile.t) (s : Tile.t * bool) : Prop :=
  s = (tile, false) \/ exists x' y', s = (Tile.setPos tile x' y', true).

(** Case analysis on every edge test of the goal. *)
Ltac case_within :=
  repeat match goal with
         | |- context [within ?a ?b] => destruct (within a b)
         end.

(** [t'] lies less than [snapDist] away from [tile] on each axis. *)
Definition nearBy (tile t' : Tile.t) : Prop :=
  (Qabs (Tile.x t' - Tile.x tile) < snapDist)%Q /\
  (Qabs (Tile.y t' - Tile.y tile) < snapDist)%Q.

(** ** Arrangement validation *)

Definition AREA_TOLERANCE : Q := 200.

Definition area (tl : Tile.t) : Q := (Tile.w tl * Tile.h tl)%Q.

(** [ts.forEach(t => acc += t.w * t.h)] *)
Definition areaSum (ts : list Tile.t) : Q :=
  fold_left (fun acc tl => (acc + area tl)%Q) ts 0%Q.

(** The variables of the bounding-box loop. *)
Record Scan : Type := mkScan {
  minX : JS.ext;
  minY : JS.ext;
  maxX : JS.ext;
  maxY : JS.ext;
  totalTileArea : Q;
  hasNegative : bool;
  positiveTiles : list Tile.t;
  negativeTiles : list Tile.t
}.

Definition scanInit : Scan :=
  mkScan JS.Infinity JS.Infinity JS.NegInfinity JS.NegInfinity 0%Q false [] [].

Definition scanStep (s : Scan) (tl : Tile.t) : Scan :=
  mkScan
    (JS.Math_min (minX s) (Tile.x tl))
    (JS.Math_min (minY s) (Tile.y tl))
    (JS.Math_max (maxX s) (Tile.x tl + Tile.w tl)%Q)
    (JS.Math_max (maxY s) (Tile.y tl + Tile.h tl)%Q)
    (totalTileArea s + area tl)%Q
    (if Tile.isNegative tl then true else hasNegative s)
    (if Tile.isNegative tl then positiveTiles s else positiveTiles s ++ [tl])
    (if Tile.isNegative tl then negativeTiles s ++ [tl] else negativeTiles s).

Definition scanTiles (ts : list Tile.t) : Scan :=
  fold_left scanStep ts scanInit.

Definition bboxWidth (s : Scan) : Q := (JS.finite (maxX s) - JS.finite (minX s))%Q.
Definition bboxHeight (s : Scan) : Q := (JS.finite (maxY s) - JS.finite (minY s))%Q.
Definition bboxArea (s : Scan) : Q := (bboxWidth s * bboxHeight s)%Q.

(** *** Grid-dimension inference *)

Record Best : Type := mkBest {
  bestErr : JS.ext;
  bestA : Z;
  bestB : Z
}.

Definition bestInit : Best := mkBest JS.Infinity 0 0.

Definition estimate (X_SIZE U_SIZE : Q) (ab : Z * Z) : Q :=
  (inject_Z (fst ab) * X_SIZE + inject_Z (snd ab) * U_SIZE)%Q.

Definition gridStep (X_SIZE U_SIZE pixels : Q) (s : Best) (ab : Z * Z) : Best :=
  let est := estimate X_SIZE U_SIZE ab in
  let err := Qabs (est - pixels) in
  if JS.lt_ext err (bestErr s) then mkBest (JS.Fin err) (fst ab) (snd ab) else s.

(** [for (a = 1; a <= 5; a++) for (b = 0; b <= 10; b++)] in iteration order. *)
Definition gridCandidates : list (Z * Z) :=
  flat_map (fun a => map (fun b => (a, b)) (JS.fromTo 0 10)) (JS.fromTo 1 5).

Definition GRID_THRESHOLD : Q := 30.

Definition getGridDimensions (X_SIZE U_SIZE pixels : Q) : Z * Z :=
  let s := fold_left (gridStep X_SIZE U_SIZE pixels) gridCandidates bestInit in
  match bestErr s with
  | JS.Fin e => if JS.lt e GRID_THRESHOLD then (bestA s, bestB s) else (0, 0)
  | JS.NegInfinity => (bestA s, bestB s)
  | JS.Infinity => (0, 0)
  end.

(** The error of a candidate pair against the measured length. *)
Definition gridErr (X_SIZE U_SIZE pixels : Q) (ab : Z * Z) : Q :=
  Qabs (estimate X_SIZE U_SIZE ab - pixels).

(** [ab] is the first element of [l] with the least error. *)
Definition firstMin (err : Z * Z -> Q) (l : list (Z * Z)) (ab : Z * Z) : Prop :=
  exists l1 l2, l = l1 ++ ab :: l2 /\
    (forall x, In x l1 -> (err ab < err x)%Q) /\
    (forall x, In x l2 -> (err ab <= err x)%Q).

(** The loop variables once [ab] is the best pair seen. *)
Definition bestOf (err : Z * Z -> Q) (ab : Z * Z) : Best :=
  mkBest (JS.Fin (err ab)) (fst ab) (snd ab).

(** *** The cut search *)

(** [for (p = 0; p <= 5; p++) for (q = 0; q <= 5; q++)] in iteration order. *)
Definition cutCandidates : list (Z * Z) :=
  flat_map (fun p => map (fun q => (p, q)) (JS.fromTo 0 5)) (JS.fromTo 0 5).

Definition expectedNegArea (U_SIZE : Q) (s : Scan) (p q : Z) : Q :=
  (inject_Z p * U_SIZE * bboxHeight s + inject_Z q * U_SIZE * bboxWidth s
   - inject_Z p * inject_Z q * U_SIZE * U_SIZE)%Q.

(** The body of the inner loop: [true] when it reaches the success return. *)
Definition cutAccepts (U_SIZE : Q) (s : Scan) (gridW gridH : Z * Z)
    (valA valB valC : Z) (pq : Z * Z) : bool :=
  let '(p, q) := pq in
  if (p =? 0) && (q =? 0) then false
  else
    let f1_x := fst gridW in
    let f1_c := snd gridW - p in
    let f2_x := fst gridH in
    let f2_c := snd gridH - q in
    let resA := f1_x * f2_x in
    let resB := f1_x * f2_c + f1_c * f2_x in
    let resC := f1_c * f2_c in
    if (resA =? valA) && (resB =? valB) && (resC =? valC) then
      let actualNegArea := areaSum (negativeTiles s) in
      JS.lt (Qabs (expectedNegArea U_SIZE s p q - actualNegArea)) AREA_TOLERANCE
    else false.

(** The return point that [validateArrangement] reaches. *)
Inductive Verdict : Type :=
| NoTiles
| PerfectRectangle
| ValidOverlap
| NotValid.

Definition overlapModel (cfg : TileConfig) (s : Scan) (valA valB valC : Z) : bool :=
  if hasNegative s && (0 <? Z.of_nat (List.length (positiveTiles s))) then
    let baseArea := areaSum (positiveTiles s) in
    if JS.lt (Qabs (bboxArea s - baseArea)) AREA_TOLERANCE then
      let X_SIZE := SIZES_x (SIZES cfg) in
      let U_SIZE := SIZES_u (SIZES cfg) in
      let gridW := getGridDimensions X_SIZE U_SIZE (bboxWidth s) in
      let gridH := getGridDimensions X_SIZE U_SIZE (bboxHeight s) in
      existsb (cutAccepts U_SIZE s gridW gridH valA valB valC) cutCandidates
    else false
  else false.

Definition validate (cfg : TileConfig) (ts : list Tile.t) (valA valB valC : Z)
  : Verdict :=
  if Nat.eqb (List.length ts) 0 then NoTiles
  else
    let s := scanTiles ts in
    if negb (hasNegative s)
       && JS.lt (Qabs (bboxArea s - totalTileArea s)) AREA_TOLERANCE
    then PerfectRectangle
    else if overlapModel cfg s valA valB valC then ValidOverlap
    else NotValid.

Definition verdictMessage (v : Verdict) : string * bool :=
  match v with
  | NoTiles => ("No tiles to check!"%string, false)
  | PerfectRectangle =>
      ("Great job! You formed a perfect rectangle."%string, true)
  | ValidOverlap =>
      ("Valid Overlap Arrangement! Result area matches the equation."%string, true)
  | NotValid => ("Not a valid rectangle or correct solution."%string, false)
  end.

(** The two success returns. *)
Definition accepted (v : Verdict) : Prop :=
  v = PerfectRectangle \/ v = ValidOverlap.

(** The coefficients as [validateArrangement] reads them. *)
Definition validatorCoefficients (app : App) : Z * Z * Z :=
  (JS.orElse (JS.parseInt (coeff_a app)) 0,
   JS.orElse (JS.parseInt (coeff_b app)) 0,
   JS.orElse (JS.parseInt (coeff_c app)) 0).

Definition verdictOf (app : App) : Verdict :=
  let '(valA, valB, valC) := validatorCoefficients app in
  validate (config app) (tiles app) valA valB valC.

Definition validateArrangement (silent : bool) (app : App) : App :=
  let v := verdictOf app in
  if negb silent
  then showFeedback (fst (verdictMessage v)) (snd (verdictMessage v)) app
  else app.

(** ** Animation stepper *)

Definition ease : Q := 1 # 10.
Definition SETTLE : Q := 1 # 2.

(** One axis of one tile: the new coordinate and whether it set [active]. *)
Definition easeAxis (pos target : Q) : Q * bool :=
  if JS.gt (Qabs (pos - target)) SETTLE
  then ((pos + (target - pos) * ease)%Q, true)
  else (target, false).

(** The loop body for one tile.  A tile whose target was never assigned
    would receive [undefined] as its coordinate, a value that the tile model
    does not have: the step is [None] there. *)
Definition stepTile (tl : Tile.t) : option (Tile.t * bool) :=
  match Tile.targetX tl, Tile.targetY tl with
  | Some tx, Some ty =>
      let '(x', ax) := easeAxis (Tile.x tl) tx in
      let '(y', ay) := easeAxis (Tile.y tl) ty in
      Some (Tile.setPos tl x' y', ax || ay)
  | _, _ => None
  end.

Fixpoint stepTiles (ts : list Tile.t) (active : bool) : option (list Tile.t * bool) :=
  match ts with
  | [] => Some ([], active)
  | tl :: rest =>
      match stepTile tl with
      | Some (tl', moved) =>
          match stepTiles rest (active || moved) with
          | Some (rest', active') => Some (tl' :: rest', active')
          | None => None
          end
      | None => None
      end
  end.

(** What one call of [render] did with the animation. *)
Inductive Frame : Type :=
| Idle       (* not animating *)
| Active     (* some tile moved: another frame is requested *)
| Settled.   (* animation ended, the silent validation ran *)

Definition render (app : App) : option (App * Frame) :=
  if isAnimating app then
    match stepTiles (tiles app) false with
    | Some (ts, active) =>
        let app := setTiles app ts in
        if active then Some (app, Active)
        else Some (validateArrangement true (setAnimating app false), Settled)
    | None => None
    end
  else Some (app, Idle).

(** [k] successive frames: the final state and the outcome of each frame. *)
Fixpoint renderN (k : nat) (app : App) : option (App * list Frame) :=
  match k with
  | O => Some (app, [])
  | S k' =>
      match render app with
      | Some (app', f) =>
          match renderN k' app' with
          | Some (app'', fs) => Some (app'', f :: fs)
          | None => None
          end
      | None => None
      end
  end.

(** ** The readout of [checkSolution]

    The three counters that the readout shows as
    [Current: x2Count x^2 + xCount x + oneCount]. *)

Definition countStep (acc : Z * Z * Z) (tl : Tile.t) : Z * Z * Z :=
  let '(x2Count, xCount, oneCount) := acc in
  let s := if Tile.isNegative tl then -1 else 1 in
  (if TileType_eqb (Tile.type tl) T_x2 then x2Count + s else x2Count,
   if TileType_eqb (Tile.type tl) T_x then xCount + s else xCount,
   if TileType_eqb (Tile.type tl) T_one then oneCount + s else oneCount).

Definition checkSolution (ts : list Tile.t) : Z * Z * Z :=
  fold_left countStep ts (0, 0, 0).

(** The signed number of tiles of one kind. *)
Fixpoint signedCount (ty : TileType) (ts : list Tile.t) : Z :=
  match ts with
  | [] => 0
  | tl :: rest =>
      (if TileType_eqb (Tile.type tl) ty
       then (if Tile.isNegative tl then -1 else 1) else 0)
      + signedCount ty rest
  end.

(** Kind and sign of a tile: what the readout depends on. *)
Definition kindSign (tl : Tile.t) : TileType * bool :=
  (Tile.type tl, Tile.isNegative tl).

(** The tiles of one kind, in arrangement order. *)
Definition ofKind (ty : TileType) (ts : list Tile.t) : list Tile.t :=
  filter (fun tl => TileType_eqb (Tile.type tl) ty) ts.

(** *** Vocabulary for the animation properties *)

Definition hasTarget (tl : Tile.t) : Prop :=
  Tile.targetX tl <> None /\ Tile.targetY tl <> None.

Definition atTarget (tl : Tile.t) : Prop :=
  Tile.targetX tl = Some (Tile.x tl) /\ Tile.targetY tl = Some (Tile.y tl).

(** A bound on the moving steps left on one axis: every moving step covers
    more than 1/20 px. *)
Definition axisSteps (pos target : Q) : nat :=
  Z.to_nat (Qfloor (20 * Qabs (pos - target))).

Definition tileSteps (tl : Tile.t) : nat :=
  match Tile.targetX tl, Tile.targetY tl with
  | Some tx, Some ty => axisSteps (Tile.x tl) tx + axisSteps (Tile.y tl) ty
  | _, _ => 0
  end.

Definition stepsBound (ts : list Tile.t) : nat :=
  list_sum (map tileSteps ts).

(** The frames of [k] calls of [render] when the first [N] are active, the
    next one settles and the rest are idle. *)
Definition schedule (N k : nat) : list Frame :=
  repeat Active (Nat.min N k)
  ++ (if Nat.ltb N k then Settled :: repeat Idle (k - N - 1) else []).

(** The tile at index [i] exists and has a target. *)
Definition targeted (ts : list Tile.t) (i : nat) : Prop :=
  exists tl, nth_error ts i = Some tl /\ hasTarget tl.


(** A tile as the constructor leaves it: no target, not rotated. *)
Definition fresh (tl : Tile.t) : Prop :=
  Tile.targetX tl = None /\ Tile.targetY tl = None /\ Tile.rotation tl = 0.

(** ** Pointer interaction and the buttons

    The handlers of [App] that the three engine entry points do not cover.
    Touch events are translated by the source into the mouse handlers below
    and are not modelled separately. *)

Record Rect : Type := mkRect {
  rect_left : Q;
  rect_top : Q;
  rect_right : Q;
  rect_bottom : Q
}.

Record MouseEvent : Type := mkEvent {
  clientX : Q;
  clientY : Q
}.

(** [this.dragTarget] refers to a tile object: the element of [this.tiles]
    at an index, or an object that a reset or a solve has meanwhile dropped
    from [this.tiles] (nothing it holds can be displayed again). *)
Inductive DragRef : Type :=
| Held (i : nat)
| Detached.

Record Ui : Type := mkUi {
  theApp : App;
  dragTarget : option DragRef;          (* [None] is [null] *)
  dragOffset : Q * Q;
  canvasRect : Rect;                    (* canvas.getBoundingClientRect() *)
  trashRect : Rect;                     (* trash-zone bounding rectangle *)
  chkNegative : bool;                   (* the "negative" check box *)
  readout : Z * Z * Z                   (* what the area readout shows *)
}.

Definition withApp (ui : Ui) (a : App) : Ui :=
  mkUi a (dragTarget ui) (dragOffset ui) (canvasRect ui) (trashRect ui)
       (chkNegative ui) (readout ui).

Definition withDrag (ui : Ui) (d : option DragRef) (off : Q * Q) : Ui :=
  mkUi (theApp ui) d off (canvasRect ui) (trashRect ui) (chkNegative ui) (readout ui).

Definition withReadout (ui : Ui) (r : Z * Z * Z) : Ui :=
  mkUi (theApp ui) (dragTarget ui) (dragOffset ui) (canvasRect ui) (trashRect ui)
       (chkNegative ui) r.

Definition setDragging (tl : Tile.t) (b : bool) : Tile.t :=
  Tile.mk (Tile.type tl) (Tile.x tl) (Tile.y tl) (Tile.isNegative tl)
          (Tile.rotation tl) b (Tile.uSize tl) (Tile.xSize tl)
          (Tile.w tl) (Tile.h tl) (Tile.targetX tl) (Tile.targetY tl).

Definition getMousePos (ui : Ui) (e : MouseEvent) : Q * Q :=
  ((clientX e - rect_left (canvasRect ui))%Q,
   (clientY e - rect_top (canvasRect ui))%Q).

(** [for (let i = i0 - 1; i >= 0; i--) if (tiles[i].contains(x, y))]: the
    index at which the loop stops, if it does. *)
Fixpoint hitBelow (ts : list Tile.t) (i0 : nat) (x y : Q) : option nat :=
  match i0 with
  | O => None
  | S i =>
      match nth_error ts i with
      | Some tl => if Tile.contains tl x y then Some i else hitBelow ts i x y
      | None => hitBelow ts i x y
      end
  end.

Definition topmostAt (ts : list Tile.t) (x y : Q) : option nat :=
  hitBelow ts (List.length ts) x y.

(** [tiles.splice(i, 1)] *)
Definition removeAt (i : nat) (ts : list Tile.t) : list Tile.t :=
  firstn i ts ++ skipn (S i) ts.

Definition handleMouseDown (e : MouseEvent) (ui : Ui) : Ui :=
  let '(x, y) := getMousePos ui e in
  let ts := tiles (theApp ui) in
  match topmostAt ts x y with
  | Some i =>
      match nth_error ts i with
      | Some tl =>
          let ts := removeAt i ts ++ [setDragging tl true] in
          withDrag (withApp ui (setTiles (theApp ui) ts))
                   (Some (Held (List.length ts - 1)))
                   ((x - Tile.x tl)%Q, (y - Tile.y tl)%Q)
      | None => ui
      end
  | None => ui
  end.

Definition handleMouseMove (e : MouseEvent) (ui : Ui) : Ui :=
  match dragTarget ui with
  | None => ui
  | Some Detached => ui
  | Some (Held i) =>
      let '(x, y) := getMousePos ui e in
      withApp ui
        (setTiles (theApp ui)
           (mutate (tiles (theApp ui)) i
              (fun tl => Tile.setPos tl (x - fst (dragOffset ui))%Q
                                        (y - snd (dragOffset ui))%Q)))
  end.

Definition inRect (r : Rect) (mx my : Q) : bool :=
  (Qle_bool (rect_left r) mx && Qle_bool mx (rect_right r)
   && Qle_bool (rect_top r) my && Qle_bool my (rect_bottom r))%bool.

Definition handleMouseUp (e : MouseEvent) (ui : Ui) : Ui :=
  match dragTarget ui with
  | None => ui
  | Some ref =>
      let a :=
        if inRect (trashRect ui) (clientX e) (clientY e) then
          match ref with
          | Held i => setTiles (theApp ui) (removeAt i (tiles (theApp ui)))
          | Detached => theApp ui
          end
        else
          match ref with
          | Held i =>
              let a := snapToNeighbors i (theApp ui) in
              setTiles a (mutate (tiles a) i (fun tl => setDragging tl false))
          | Detached => theApp ui
          end in
      withReadout (withDrag (withApp ui a) None (dragOffset ui))
                  (checkSolution (tiles a))
  end.


Definition spawnTileFromMouse (e : MouseEvent) (ty : TileType) (ui : Ui) : Ui :=
  let isNeg := chkNegative ui in
  let '(x, y) := getMousePos ui e in
  let newTile := Tile.new (config (theApp ui)) ty x y isNeg in
  let newTile :=
    Tile.setPos newTile (Tile.x newTile - Tile.w newTile / 2)%Q
                        (Tile.y newTile - Tile.h newTile / 2)%Q in
  let newTile := setDragging newTile true in
  let ts := tiles (theApp ui) ++ [newTile] in
  withDrag (withApp ui (setTiles (theApp ui) ts))
           (Some (Held (List.length ts - 1)))
           ((x - Tile.x newTile)%Q, (y - Tile.y newTile)%Q).










(** The tile's size fields agree with the configuration and its
    orientation. *)
Definition sized (cfg : TileConfig) (tl : Tile.t) : Prop :=
  Tile.uSize tl = SIZES_u (SIZES cfg) /\
  Tile.xSize tl = SIZES_x (SIZES cfg) /\
  (Tile.rotation tl = 0 \/ Tile.rotation tl = 1) /\
  Tile.updateDimensions tl = tl.



(** *** Vocabulary for the layout of a solve

    The corners that [solveAndAnimate] computes before it places tiles. *)

Definition solveStartX (app : App) (m p : Z) : Q :=
  let X := SIZES_x (SIZES (config app)) in
  let U := SIZES_u (SIZES (config app)) in
  let gridW := (inject_Z m * X)%Q in
  let totalW := if 0 <? p then (gridW + inject_Z p * U)%Q else gridW in
  ((canvasWidth app - totalW) / 2)%Q.

Definition solveStartY (app : App) (n q : Z) : Q :=
  let X := SIZES_x (SIZES (config app)) in
  let U := SIZES_u (SIZES (config app)) in
  let gridH := (inject_Z n * X)%Q in
  let totalH := if 0 <? q then (gridH + inject_Z q * U)%Q else gridH in
  ((canvasHeight app - totalH) / 2)%Q.

Definition vStartX (app : App) (m p : Z) : Q :=
  let X := SIZES_x (SIZES (config app)) in
  let U := SIZES_u (SIZES (config app)) in
  let gridW := (inject_Z m * X)%Q in
  if p <? 0 then (solveStartX app m p + gridW - inject_Z (Z.abs p) * U)%Q
  else (solveStartX app m p + gridW)%Q.

Definition hStartY (app : App) (n q : Z) : Q :=
  let X := SIZES_x (SIZES (config app)) in
  let U := SIZES_u (SIZES (config app)) in
  let gridH := (inject_Z n * X)%Q in
  if q <? 0 then (solveStartY app n q + gridH - inject_Z (Z.abs q) * U)%Q
  else (solveStartY app n q + gridH)%Q.

(** The four placements of the target assignment. *)
Definition placeSquare (app : App) (m n p q : Z) (rc : Z * Z) (tl : Tile.t) : Tile.t :=
  Tile.setTarget tl
    (solveStartX app m p + inject_Z (snd rc) * Tile.xSize tl)%Q
    (solveStartY app n q + inject_Z (fst rc) * Tile.xSize tl)%Q.

Definition placeVertical (app : App) (m n p q : Z) (cr : Z * Z) (tl : Tile.t) : Tile.t :=
  Tile.setTarget (Tile.updateDimensions (Tile.setRotation tl 1))
    (vStartX app m p + inject_Z (fst cr) * SIZES_u (SIZES (config app)))%Q
    (solveStartY app n q + inject_Z (snd cr) * SIZES_x (SIZES (config app)))%Q.

Definition placeHorizontal (app : App) (m n p q : Z) (rc : Z * Z) (tl : Tile.t) : Tile.t :=
  Tile.setTarget (Tile.updateDimensions (Tile.setRotation tl 0))
    (solveStartX app m p + inject_Z (snd rc) * SIZES_x (SIZES (config app)))%Q
    (hStartY app n q + inject_Z (fst rc) * SIZES_u (SIZES (config app)))%Q.

Definition placeUnit (app : App) (m n p q : Z) (rc : Z * Z) (tl : Tile.t) : Tile.t :=
  Tile.setTarget tl
    (vStartX app m p + inject_Z (snd rc) * SIZES_u (SIZES (config app)))%Q
    (hStartY app n q + inject_Z (fst rc) * SIZES_u (SIZES (config app)))%Q.

(** The tile has kind [ty] and is [w'] by [h'] px. *)
Definition shaped (tl : Tile.t) (ty : TileType) (w' h' : Q) : Prop :=
  Tile.type tl = ty /\ Tile.w tl = w' /\ Tile.h tl = h'.

(** The tile's target is (tx, ty). *)
Definition aims (tl : Tile.t) (tx ty : Q) : Prop :=
  Tile.targetX tl = Some tx /\ Tile.targetY tl = Some ty.

(** ** Sample states *)

Definition sampleApp (a b c : string) (ts : list Tile.t) : App :=
  mkApp ts false TILE_CONFIG 1000 800 a b c None.

(** x^2 + x + 1 entered, one unit tile on the canvas. *)
Definition appUnsolvable : App :=
  sampleApp "1" "1" "1" [Tile.new TILE_CONFIG T_one 300 300 false].

(** All three fields left empty. *)
Definition appBlank : App := sampleApp "" "" "" [].

(** Three x^2 tiles edge to edge in a row, and the same with a gap. *)
Definition threeSquares : list Tile.t :=
  [Tile.new TILE_CONFIG T_x2 0 0 false;
   Tile.new TILE_CONFIG T_x2 200 0 false;
   Tile.new TILE_CONFIG T_x2 400 0 false].

Definition threeSquaresGap : list Tile.t :=
  [Tile.new TILE_CONFIG T_x2 0 0 false;
   Tile.new TILE_CONFIG T_x2 200 0 false;
   Tile.new TILE_CONFIG T_x2 900 0 false].

(** The base (x + 1)(x + 1) with its right column covered by a negative
    bar and a negative unit: x^2 + x. *)
Definition cutColumn : list Tile.t :=
  [Tile.new TILE_CONFIG T_x2 0 0 false;
   Tile.rotate (Tile.new TILE_CONFIG T_x 200 0 false);
   Tile.new TILE_CONFIG T_x 0 200 false;
   Tile.new TILE_CONFIG T_one 200 200 false;
   Tile.rotate (Tile.new TILE_CONFIG T_x 200 0 true);
   Tile.new TILE_CONFIG T_one 200 200 true].

Definition onlyNegative : list Tile.t :=
  [Tile.new TILE_CONFIG T_x2 0 0 true].

(** Two unit tiles: a stationary one at the origin, and a moving one
    dropped 2 px to the right of it, or dropped diagonally over it. *)
Definition unitAtOrigin : Tile.t := Tile.new TILE_CONFIG T_one 0 0 false.
Definition unitNearRight : Tile.t := Tile.new TILE_CONFIG T_one 27 3 false.
Definition unitDiagonal : Tile.t := Tile.new TILE_CONFIG T_one 12 12 false.

Definition appDiagonal : App := sampleApp "" "" "" [unitAtOrigin; unitDiagonal].




(** Two unit tiles on the canvas, the upper one held by a drag. *)
Definition uiHolding : Ui :=
  mkUi (sampleApp "" "" "" [unitAtOrigin; setDragging unitNearRight true])
       (Some (Held 1)) (5, 5)%Q (mkRect 0 0 1000 800) (mkRect (-100) 0 0 800)
       false (0, 0, 0).

(** * Properties *)

(** ** Comparison helpers *)

Lemma lt_true_iff (a b : Q) : JS.lt a b = true <-> (a < b)%Q.
Proof.
  unfold JS.lt. rewrite negb_true_iff.
  split; intro H.
  - apply Qnot_le_lt. intro Hle. apply Qle_bool_iff in Hle. congruence.
  - destruct (Qle_bool b a) eqn:E; [|reflexivity].
    apply Qle_bool_iff in E. exfalso. exact (Qlt_not_le _ _ H E).
Qed.

Lemma lt_false_iff (a b : Q) : JS.lt a b = false <-> (b <= a)%Q.
Proof.
  unfold JS.lt. rewrite negb_false_iff. apply Qle_bool_iff.
Qed.

(** ** The counting loops *)

Lemma fromTo_nil (lo hi : Z) : hi < lo -> JS.fromTo lo hi = [].
Proof.
  intro H. unfold JS.fromTo.
  replace (Z.to_nat (hi - lo + 1)) with O by lia. reflexivity.
Qed.

Lemma fromTo_cons (lo hi : Z) :
  lo <= hi -> JS.fromTo lo hi = lo :: JS.fromTo (lo + 1) hi.
Proof.
  intro H. unfold JS.fromTo.
  replace (Z.to_nat (hi - lo + 1)) with (S (Z.to_nat (hi - (lo + 1) + 1))) by lia.
  cbn [seq map]. f_equal; [lia|].
  rewrite <- seq_shift, map_map.
  apply map_ext. intro k. lia.
Qed.

Lemma fromTo_In (lo hi i : Z) : In i (JS.fromTo lo hi) <-> lo <= i <= hi.
Proof.
  unfold JS.fromTo. rewrite in_map_iff. split.
  - intros [k [Hk Hin]]. apply in_seq in Hin. lia.
  - intros H. exists (Z.to_nat (i - lo)). split; [lia|].
    apply in_seq. lia.
Qed.

(** ** getClosestFactors *)

Lemma closestLoop_spec (num : Z) (k : nat) :
  0 < num -> (1 <= k)%nat ->
  1 <= fst (closestLoop num k) <= Z.of_nat k /\
  Z.rem num (fst (closestLoop num k)) = 0 /\
  snd (closestLoop num k) = Z.quot num (fst (closestLoop num k)) /\
  (forall d, fst (closestLoop num k) < d <= Z.of_nat k -> Z.rem num d <> 0).
Proof.
  intros Hnum. induction k as [|k IH]; intros Hk; [lia|].
  cbn [closestLoop].
  destruct (Z.rem num (Z.of_nat (S k)) =? 0) eqn:E.
  - apply Z.eqb_eq in E. cbn [fst snd].
    repeat split; try lia; try assumption.
  - apply Z.eqb_neq in E.
    destruct k as [|k'].
    + exfalso. apply E. change (Z.of_nat 1) with 1. apply Z.rem_1_r.
    + destruct IH as [H1 [H2 [H3 H4]]]; [lia|].
      repeat split; try lia; try assumption.
      intros d Hd.
      destruct (Z.eq_dec d (Z.of_nat (S (S k')))) as [->|Hne]; [exact E|].
      apply H4. lia.
Qed.

Lemma getClosestFactors_nonzero (a : Z) :
  a <> 0 ->
  0 < fst (getClosestFactors a) /\
  fst (getClosestFactors a) * fst (getClosestFactors a) <= Z.abs a /\
  (fst (getClosestFactors a) | Z.abs a) /\
  snd (getClosestFactors a) = Z.abs a / fst (getClosestFactors a) /\
  fst (getClosestFactors a) * snd (getClosestFactors a) = Z.abs a /\
  (forall d, 0 < d -> d * d <= Z.abs a -> (d | Z.abs a) ->
             d <= fst (getClosestFactors a)).
Proof.
  intro Ha. unfold getClosestFactors.
  set (num := Z.abs a).
  assert (Hnum : 0 < num) by (unfold num; lia).
  assert (Hs : 1 <= Z.sqrt num).
  { change 1 with (Z.sqrt 1). apply Z.sqrt_le_mono. lia. }
  assert (Hk : (1 <= Z.to_nat (Z.sqrt num))%nat) by lia.
  destruct (closestLoop_spec num (Z.to_nat (Z.sqrt num)) Hnum Hk)
    as [Hm [Hrem [Hn Hmax]]].
  rewrite Z2Nat.id in Hm, Hmax by lia.
  set (m := fst (closestLoop num (Z.to_nat (Z.sqrt num)))) in *.
  assert (Hdiv : (m | num)).
  { apply Z.rem_divide; [lia|exact Hrem]. }
  assert (Hquot : Z.quot num m = num / m).
  { apply Z.quot_div_nonneg; lia. }
  assert (Hsq : m * m <= num).
  { destruct (Z.sqrt_spec num) as [Hlo _]; [lia|]. nia. }
  repeat split.
  - lia.
  - exact Hsq.
  - exact Hdiv.
  - rewrite Hn. exact Hquot.
  - rewrite Hn, Hquot.
    destruct Hdiv as [z Hz]. rewrite Hz at 1 2.
    rewrite Z.div_mul by lia. lia.
  - intros d Hd Hdd Hdn.
    destruct (Z_le_gt_dec d m) as [Hle|Hgt]; [exact Hle|].
    exfalso. apply (Hmax d).
    + split; [lia|]. apply Z.sqrt_le_square; lia.
    + apply Z.rem_divide; [lia|exact Hdn].
Qed.

(** C4 (as amended): for every non-zero integer [a], [getClosestFactors a]
    is the pair (m, n) where m is the largest positive integer with
    m * m <= |a| that divides |a|, and n = |a| / m; for [a = 0] the result is
    (1, 0). *)
Theorem getClosestFactors_closest_pair :
  getClosestFactors 0 = (1, 0) /\
  forall a m n, a <> 0 -> getClosestFactors a = (m, n) ->
    0 < m /\ m * m <= Z.abs a /\ (m | Z.abs a) /\
    n = Z.abs a / m /\ m * n = Z.abs a /\
    (forall d, 0 < d -> d * d <= Z.abs a -> (d | Z.abs a) -> d <= m).
Proof.
  split; [reflexivity|].
  intros a m n Ha E.
  pose proof (getClosestFactors_nonzero a Ha) as H.
  rewrite E in H. exact H.
Qed.

Lemma getClosestFactors_closest_pair_witness :
  12 <> 0 /\ getClosestFactors 12 = (3, 4) /\
  0 < 3 /\ 3 * 3 <= Z.abs 12 /\ (3 | Z.abs 12) /\
  4 = Z.abs 12 / 3 /\ 3 * 4 = Z.abs 12 /\
  (forall d, 0 < d -> d * d <= Z.abs 12 -> (d | Z.abs 12) -> d <= 3).
Proof.
  split; [lia|]. split; [reflexivity|].
  apply (proj2 getClosestFactors_closest_pair 12 3 4); [lia|reflexivity].
Defined.

(** C4 (as stated) fails at [a = 0]: the result there is (1, 0), not
    (0, 0). *)
Lemma getClosestFactors_zero_not_zero_pair :
  getClosestFactors 0 <> (0, 0).
Proof. discriminate. Qed.

(** ** The solver's bounded search *)

Section Search.

Variables m n b c : Z.

(** The first accepted candidate of an increasing range. *)
Lemma searchLoop_fromTo (len : nat) :
  forall lo hi pq, Z.to_nat (hi - lo + 1) = len ->
    searchLoop m n b c (JS.fromTo lo hi) = Some pq <->
    exists i, lo <= i <= hi /\ tryCandidate m n b c i = Some pq /\
              forall j, lo <= j < i -> tryCandidate m n b c j = None.
Proof.
  induction len as [|len IH]; intros lo hi pq Hlen.
  - rewrite fromTo_nil by lia. cbn. split; [discriminate|].
    intros [i [Hi _]]. lia.
  - rewrite fromTo_cons by lia. cbn [searchLoop].
    destruct (tryCandidate m n b c lo) as [r|] eqn:E.
    + split.
      * intros [= <-]. exists lo. repeat split; try lia; try assumption.
      * intros [i [Hi [Hacc Hmin]]].
        destruct (Z.eq_dec i lo) as [->|Hne]; [congruence|].
        rewrite (Hmin lo) in E by lia. discriminate.
    + rewrite (IH (lo + 1) hi pq) by lia. split.
      * intros [i [Hi [Hacc Hmin]]]. exists i. repeat split; try lia. 1: assumption.
        intros j Hj. destruct (Z.eq_dec j lo) as [->|Hne]; [assumption|].
        apply Hmin. lia.
      * intros [i [Hi [Hacc Hmin]]].
        destruct (Z.eq_dec i lo) as [->|Hne]; [congruence|].
        exists i. repeat split; try lia. 1: assumption.
        intros j Hj. apply Hmin. lia.
Qed.

Lemma searchLoop_None (l : list Z) :
  searchLoop m n b c l = None <->
  forall i, In i l -> tryCandidate m n b c i = None.
Proof.
  induction l as [|i0 l IH]; cbn [searchLoop].
  - split; [intros _ i []|reflexivity].
  - destruct (tryCandidate m n b c i0) eqn:E.
    + split; [discriminate|]. intro H. rewrite (H i0) in E by (left; reflexivity).
      discriminate.
    + rewrite IH. split.
      * intros H i [<-|Hin]; [assumption|apply H; assumption].
      * intros H i Hin. apply H. right. assumption.
Qed.

(** What one iteration accepts when [c] is not zero. *)
Lemma tryCandidate_nonzero (i p q : Z) :
  c <> 0 ->
  tryCandidate m n b c i = Some (p, q) <->
  p = i /\ p <> 0 /\ (p | c) /\ q = Z.quot c p /\ m * q + n * p = b.
Proof.
  intro Hc. unfold tryCandidate.
  destruct (Z.eqb_spec c 0) as [?|_]; [contradiction|]. cbn [negb].
  destruct (Z.eqb_spec i 0) as [Hi|Hi].
  { split; [discriminate|]. intros [-> [? _]]. contradiction. }
  destruct (Z.eqb_spec (Z.rem c i) 0) as [Hr|Hr]; cbn [negb].
  - destruct (Z.eqb_spec (m * Z.quot c i + n * i) b) as [Hb|Hb].
    + split.
      * intros [= <- <-]. repeat split; try assumption.
        apply Z.rem_divide; assumption.
      * intros [-> [_ [_ [-> _]]]]. reflexivity.
    + split; [discriminate|]. intros [-> [_ [_ [-> Hb']]]]. contradiction.
  - split; [discriminate|]. intros [-> [_ [Hd _]]].
    apply Z.rem_divide in Hd; [contradiction|assumption].
Qed.

Lemma tryCandidate_nonzero_None (i : Z) :
  c <> 0 ->
  tryCandidate m n b c i = None <->
  (i <> 0 -> (i | c) -> m * Z.quot c i + n * i <> b).
Proof.
  intro Hc. split.
  - intros H Hi Hd Hb.
    assert (E : tryCandidate m n b c i = Some (i, Z.quot c i)).
    { apply tryCandidate_nonzero; [assumption|]. repeat split; assumption. }
    congruence.
  - intro H. destruct (tryCandidate m n b c i) as [[p q]|] eqn:E; [|reflexivity].
    apply tryCandidate_nonzero in E; [|assumption].
    destruct E as [-> [Hp [Hd [-> Hb]]]]. exfalso. exact (H Hp Hd Hb).
Qed.

Lemma tryCandidate_zero_skip (i : Z) :
  c = 0 -> i <> 0 -> tryCandidate m n b c i = None.
Proof.
  intros -> Hi. unfold tryCandidate. cbn.
  destruct (Z.eqb_spec i 0); [contradiction|reflexivity].
Qed.

Lemma solveSearch_zero :
  c = 0 -> solveSearch m n b c = tryCandidate m n b c 0.
Proof.
  intro Hc. unfold solveSearch.
  set (limit := searchLimit b c).
  assert (Hl : 0 <= limit).
  { unfold limit, searchLimit. destruct (Z.abs c =? 0); lia. }
  destruct (tryCandidate m n b c 0) as [pq|] eqn:E.
  - apply (searchLoop_fromTo (Z.to_nat (limit - - limit + 1))); [reflexivity|].
    exists 0. repeat split; try lia. 1: assumption.
    intros j Hj. apply tryCandidate_zero_skip; [assumption|lia].
  - apply searchLoop_None. intros i _.
    destruct (Z.eq_dec i 0) as [->|Hi]; [assumption|].
    apply tryCandidate_zero_skip; assumption.
Qed.

End Search.

Lemma solveAndAnimate_failure (app : App) :
  solverSearch app = None ->
  solveAndAnimate app =
  showFeedback msgNoNiceRectangles false
    (let '(a, b, c) := solverCoefficients app in generateTiles a b c app).
Proof.
  unfold solverSearch, solveAndAnimate.
  destruct (solverCoefficients app) as [[a b] c].
  destruct (getClosestFactors a) as [m n].
  intros ->. reflexivity.
Qed.

(** C3: with (m, n) the factor pair and limit |c| (|b| when c = 0), the
    search accepts, for c <> 0, exactly the least p of [-|c|, |c|] with
    p <> 0, p dividing c, q = c / p and m*q + n*p = b; for c = 0 it tries
    p = 0 only, with q = b / m when m <> 0 and m divides b and q = 0
    otherwise; it is total, and when no pair is accepted the solver shows
    its failure message. *)
Theorem solveSearch_first_pair (m n b c : Z) :
  (c <> 0 ->
     (forall p q,
        solveSearch m n b c = Some (p, q) <->
        - Z.abs c <= p <= Z.abs c /\ p <> 0 /\ (p | c) /\ q = Z.quot c p /\
        m * q + n * p = b /\
        (forall p', - Z.abs c <= p' < p -> p' <> 0 -> (p' | c) ->
                    m * Z.quot c p' + n * p' <> b)) /\
     (solveSearch m n b c = None <->
      forall p, - Z.abs c <= p <= Z.abs c -> p <> 0 -> (p | c) ->
                m * Z.quot c p + n * p <> b)) /\
  (c = 0 ->
     searchLimit b c = Z.abs b /\
     solveSearch m n b c =
     let q := if negb (m =? 0) && (Z.rem b m =? 0) then Z.quot b m else 0 in
     if m * q + n * 0 =? b then Some (0, q) else None) /\
  (forall app, solverSearch app = None ->
     feedback (solveAndAnimate app) = Some (msgNoNiceRectangles, false)).
Proof.
  split; [|split].
  - intro Hc.
    assert (Hlim : searchLimit b c = Z.abs c).
    { unfold searchLimit. destruct (Z.eqb_spec (Z.abs c) 0); lia. }
    split.
    + intros p q. unfold solveSearch. rewrite Hlim.
      rewrite (searchLoop_fromTo m n b c
                 (Z.to_nat (Z.abs c - - Z.abs c + 1))) by reflexivity.
      split.
      * intros [i [Hi [Hacc Hmin]]].
        apply tryCandidate_nonzero in Hacc; [|assumption].
        destruct Hacc as [-> [Hp [Hd [-> Hb]]]].
        repeat split; try lia; try assumption.
        intros p' Hp' Hp'0 Hd'.
        apply (proj1 (tryCandidate_nonzero_None m n b c p' Hc)); try assumption.
        apply Hmin. lia.
      * intros [Hr [Hp [Hd [-> [Hb Hmin]]]]].
        exists p. split; [lia|]. split.
        -- apply tryCandidate_nonzero; [assumption|]. repeat split; assumption.
        -- intros j Hj. apply tryCandidate_nonzero_None; [assumption|].
           intros Hj0 Hdj. apply Hmin; [lia|assumption|assumption].
    + unfold solveSearch. rewrite Hlim, searchLoop_None. split.
      * intros H p Hp Hp0 Hd.
        apply (proj1 (tryCandidate_nonzero_None m n b c p Hc)); try assumption.
        apply H. apply fromTo_In. lia.
      * intros H i Hi. apply fromTo_In in Hi.
        apply tryCandidate_nonzero_None; [assumption|].
        intros Hi0 Hd. apply H; [lia|assumption|assumption].
  - intro Hc. split.
    + subst c. reflexivity.
    + rewrite solveSearch_zero by assumption. subst c. reflexivity.
  - intros app H. rewrite solveAndAnimate_failure by assumption. reflexivity.
Qed.

Lemma solveSearch_first_pair_witness :
  solveSearch 1 1 5 6 = Some (2, 3) /\
  (solveSearch 1 1 1 1 = None <->
   forall p, - Z.abs 1 <= p <= Z.abs 1 -> p <> 0 -> (p | 1) ->
             1 * Z.quot 1 p + 1 * p <> 1) /\
  solveSearch 1 0 3 0 = Some (0, 3) /\
  solverSearch appUnsolvable = None /\
  feedback (solveAndAnimate appUnsolvable) = Some (msgNoNiceRectangles, false).
Proof.
  split; [|split; [|split; [|split; [reflexivity|]]]].
  - apply (proj1 (proj1 (solveSearch_first_pair 1 1 5 6) ltac:(lia)) 2 3).
    repeat split; try lia.
    + exists 3. reflexivity.
    + intros p' Hp' Hp0 [z Hz].
      assert (p' = -6 \/ p' = -5 \/ p' = -4 \/ p' = -3 \/ p' = -2 \/ p' = -1
              \/ p' = 1) as Hcases by lia.
      destruct Hcases as [->|[->|[->|[->|[->|[->| ->]]]]]];
        try (vm_compute; discriminate); lia.
  - exact (proj2 (proj1 (solveSearch_first_pair 1 1 1 1) ltac:(lia))).
  - exact (proj2 (proj1 (proj2 (solveSearch_first_pair 1 0 3 0)) eq_refl)).
  - exact (proj2 (proj2 (solveSearch_first_pair 1 1 1 1)) appUnsolvable eq_refl).
Defined.

(** ** Failure of the solver *)

Lemma new_fresh (cfg : TileConfig) (ty : TileType) (x0 y0 : Q) (neg : bool) :
  fresh (Tile.new cfg ty x0 y0 neg).
Proof. destruct ty; repeat split. Qed.

Lemma genSquares_fresh cfg neg k : forall sx sy,
  Forall fresh (genSquares cfg neg k sx sy).
Proof.
  induction k as [|k IH]; intros sx sy; cbn [genSquares]; constructor.
  - apply new_fresh.
  - apply IH.
Qed.

Lemma genBars_fresh cfg neg k : forall i sx sy,
  Forall fresh (fst (genBars cfg neg k i sx sy)).
Proof.
  induction k as [|k IH]; intros i sx sy; cbn [genBars]; [constructor|].
  destruct (Z.rem i 10 =? 9).
  - specialize (IH (i + 1) 50%Q (sy + 110)%Q).
    destruct (genBars cfg neg k (i + 1) 50%Q (sy + 110)%Q) as [rest endY].
    constructor; [apply new_fresh|exact IH].
  - specialize (IH (i + 1) (sx + 50)%Q sy).
    destruct (genBars cfg neg k (i + 1) (sx + 50)%Q sy) as [rest endY].
    constructor; [apply new_fresh|exact IH].
Qed.

Lemma genUnits_fresh cfg neg k : forall sx sy,
  Forall fresh (genUnits cfg neg k sx sy).
Proof.
  induction k as [|k IH]; intros sx sy; cbn [genUnits]; constructor.
  - apply new_fresh.
  - apply IH.
Qed.

Lemma generatedTiles_fresh cfg a b c : Forall fresh (generatedTiles cfg a b c).
Proof.
  unfold generatedTiles.
  pose proof (genBars_fresh cfg (b <? 0) (Z.to_nat (Z.abs b)) 0 50%Q (50 + 120)%Q) as Hb.
  destruct (genBars cfg (b <? 0) (Z.to_nat (Z.abs b)) 0 50%Q (50 + 120)%Q)
    as [bars endY].
  apply Forall_app. split; [apply genSquares_fresh|].
  apply Forall_app. split; [exact Hb|apply genUnits_fresh].
Qed.

Lemma failure_message_distinct (v : Verdict) :
  fst (verdictMessage v) <> msgNoNiceRectangles.
Proof. destruct v; discriminate. Qed.

(** C1 (as amended): when the bounded search accepts no pair, the solver
    shows its own failure message, different from every validator message,
    and the arrangement is the tile set that the call generated for
    (a, b, c) before searching, in the generator's rows: no tile has a
    target, none is rotated, the order is the generator's, and the
    animation flag is untouched.  The tiles present before the call are
    gone. *)
Theorem solveAndAnimate_unsatisfiable (app : App) (a b c : Z) :
  solverCoefficients app = (a, b, c) ->
  solverSearch app = None ->
  feedback (solveAndAnimate app) = Some (msgNoNiceRectangles, false) /\
  (forall v, fst (verdictMessage v) <> msgNoNiceRectangles) /\
  tiles (solveAndAnimate app) = generatedTiles (config app) a b c /\
  Forall fresh (tiles (solveAndAnimate app)) /\
  isAnimating (solveAndAnimate app) = isAnimating app.
Proof.
  intros Hco Hs.
  rewrite (solveAndAnimate_failure app Hs), Hco.
  cbn. repeat split.
  - exact failure_message_distinct.
  - apply generatedTiles_fresh.
Qed.

Lemma solveAndAnimate_unsatisfiable_witness :
  solverCoefficients appUnsolvable = (1, 1, 1) /\
  solverSearch appUnsolvable = None /\
  feedback (solveAndAnimate appUnsolvable) = Some (msgNoNiceRectangles, false) /\
  tiles (solveAndAnimate appUnsolvable) = generatedTiles TILE_CONFIG 1 1 1.
Proof.
  split; [reflexivity|]. split; [reflexivity|].
  destruct (solveAndAnimate_unsatisfiable appUnsolvable 1 1 1 eq_refl eq_refl)
    as [Hf [_ [Ht _]]].
  split; [exact Hf|exact Ht].
Defined.

(** C1 (as stated) fails: on x^2 + x + 1 the search accepts no pair, and the
    unit tile that was on the canvas is replaced by three generated tiles. *)
Lemma solveAndAnimate_unsatisfiable_mutates :
  solverSearch appUnsolvable = None /\
  feedback (solveAndAnimate appUnsolvable) = Some (msgNoNiceRectangles, false) /\
  List.length (tiles appUnsolvable) = 1%nat /\
  List.length (tiles (solveAndAnimate appUnsolvable)) = 3%nat /\
  tiles (solveAndAnimate appUnsolvable) <> tiles appUnsolvable.
Proof.
  repeat split.
  intro H. apply (f_equal (@List.length Tile.t)) in H. discriminate H.
Qed.

(** ** Coefficient defaults *)

(** C9 (as amended): a field that does not parse to an integer makes the
    validator use 0 for that coefficient, and makes the solver use 1 for a,
    5 for b and 6 for c; neither raises an error. *)
Theorem coefficient_defaults (app : App) :
  (JS.parseInt (coeff_a app) = None ->
     fst (fst (validatorCoefficients app)) = 0 /\
     fst (fst (solverCoefficients app)) = 1) /\
  (JS.parseInt (coeff_b app) = None ->
     snd (fst (validatorCoefficients app)) = 0 /\
     snd (fst (solverCoefficients app)) = 5) /\
  (JS.parseInt (coeff_c app) = None ->
     snd (validatorCoefficients app) = 0 /\
     snd (solverCoefficients app) = 6).
Proof.
  unfold validatorCoefficients, solverCoefficients. cbn [fst snd].
  repeat split; rewrite H; reflexivity.
Qed.

Lemma coefficient_defaults_witness :
  JS.parseInt (coeff_a appBlank) = None /\
  JS.parseInt (coeff_b appBlank) = None /\
  JS.parseInt (coeff_c appBlank) = None /\
  validatorCoefficients appBlank = (0, 0, 0) /\
  solverCoefficients appBlank = (1, 5, 6).
Proof.
  destruct (coefficient_defaults appBlank) as [Ha [Hb Hc]].
  destruct (Ha eq_refl) as [Ha0 Ha1].
  destruct (Hb eq_refl) as [Hb0 Hb1].
  destruct (Hc eq_refl) as [Hc0 Hc1].
  repeat split.
Defined.

(** C9 (as stated) fails for the solver: with the three fields empty it
    computes with (1, 5, 6), not with zeros. *)
Lemma solver_defaults_not_zero :
  JS.parseInt (coeff_a appBlank) = None /\
  JS.parseInt (coeff_b appBlank) = None /\
  JS.parseInt (coeff_c appBlank) = None /\
  fst (fst (solverCoefficients appBlank)) <> 0 /\
  snd (fst (solverCoefficients appBlank)) <> 0 /\
  snd (solverCoefficients appBlank) <> 0.
Proof. repeat split; discriminate. Qed.

(** ** Validation is read-only *)

(** C10: [validateArrangement], silent or not, returns with the tile list
    unchanged (hence every tile's position, size, kind, orientation and
    sign), and with the animation flag, configuration and fields unchanged;
    only the feedback panel can differ. *)
Theorem validateArrangement_read_only (silent : bool) (app : App) :
  tiles (validateArrangement silent app) = tiles app /\
  isAnimating (validateArrangement silent app) = isAnimating app /\
  config (validateArrangement silent app) = config app /\
  (coeff_a (validateArrangement silent app),
   coeff_b (validateArrangement silent app),
   coeff_c (validateArrangement silent app)) =
  (coeff_a app, coeff_b app, coeff_c app) /\
  validateArrangement true app = app.
Proof.
  unfold validateArrangement. destruct silent; cbn; repeat split.
Qed.

(** ** The bounding-box loop *)

Lemma scan_fold (ts : list Tile.t) : forall s,
  totalTileArea (fold_left scanStep ts s) =
    fold_left (fun acc tl => (acc + area tl)%Q) ts (totalTileArea s) /\
  hasNegative (fold_left scanStep ts s) =
    (hasNegative s || existsb Tile.isNegative ts)%bool /\
  positiveTiles (fold_left scanStep ts s) =
    positiveTiles s ++ filter (fun tl => negb (Tile.isNegative tl)) ts /\
  negativeTiles (fold_left scanStep ts s) =
    negativeTiles s ++ filter Tile.isNegative ts.
Proof.
  induction ts as [|tl ts IH]; intro s; cbn [fold_left existsb filter].
  - rewrite orb_false_r, !app_nil_r. repeat split.
  - destruct (IH (scanStep s tl)) as [H1 [H2 [H3 H4]]].
    rewrite H1, H2, H3, H4. cbn [scanStep totalTileArea hasNegative
                                   positiveTiles negativeTiles].
    destruct (Tile.isNegative tl); cbn [negb orb].
    + repeat split.
      * destruct (hasNegative s); reflexivity.
      * rewrite <- app_assoc. reflexivity.
    + repeat split. rewrite <- app_assoc. reflexivity.
Qed.

Lemma scanTiles_totalTileArea ts : totalTileArea (scanTiles ts) = areaSum ts.
Proof. exact (proj1 (scan_fold ts scanInit)). Qed.

Lemma scanTiles_hasNegative ts :
  hasNegative (scanTiles ts) = existsb Tile.isNegative ts.
Proof. exact (proj1 (proj2 (scan_fold ts scanInit))). Qed.

Lemma scanTiles_positiveTiles ts :
  positiveTiles (scanTiles ts) = filter (fun tl => negb (Tile.isNegative tl)) ts.
Proof. exact (proj1 (proj2 (proj2 (scan_fold ts scanInit)))). Qed.

Lemma scanTiles_negativeTiles ts :
  negativeTiles (scanTiles ts) = filter Tile.isNegative ts.
Proof. exact (proj2 (proj2 (proj2 (scan_fold ts scanInit)))). Qed.

Lemma scan_bounds (ts : list Tile.t) : forall s x0 y0 x1 y1,
  minX s = JS.Fin x0 -> minY s = JS.Fin y0 ->
  maxX s = JS.Fin x1 -> maxY s = JS.Fin y1 ->
  minX (fold_left scanStep ts s) = JS.Fin (fold_left Qmin (map Tile.x ts) x0) /\
  minY (fold_left scanStep ts s) = JS.Fin (fold_left Qmin (map Tile.y ts) y0) /\
  maxX (fold_left scanStep ts s) =
    JS.Fin (fold_left Qmax (map (fun tl => Tile.x tl + Tile.w tl)%Q ts) x1) /\
  maxY (fold_left scanStep ts s) =
    JS.Fin (fold_left Qmax (map (fun tl => Tile.y tl + Tile.h tl)%Q ts) y1).
Proof.
  induction ts as [|tl ts IH]; intros s x0 y0 x1 y1 Hx0 Hy0 Hx1 Hy1;
    cbn [fold_left map].
  - repeat split; assumption.
  - apply IH; cbn [scanStep minX minY maxX maxY];
      rewrite ?Hx0, ?Hy0, ?Hx1, ?Hy1; reflexivity.
Qed.

(** The box of a non-empty arrangement: least left and top edges, greatest
    right and bottom edges. *)
Lemma scanTiles_bbox (t0 : Tile.t) (rest : list Tile.t) :
  bboxWidth (scanTiles (t0 :: rest)) =
    (fold_left Qmax (map (fun tl => Tile.x tl + Tile.w tl)%Q rest)
               (Tile.x t0 + Tile.w t0)
     - fold_left Qmin (map Tile.x rest) (Tile.x t0))%Q /\
  bboxHeight (scanTiles (t0 :: rest)) =
    (fold_left Qmax (map (fun tl => Tile.y tl + Tile.h tl)%Q rest)
               (Tile.y t0 + Tile.h t0)
     - fold_left Qmin (map Tile.y rest) (Tile.y t0))%Q.
Proof.
  unfold scanTiles, bboxWidth, bboxHeight. cbn [fold_left].
  destruct (scan_bounds rest (scanStep scanInit t0)
              (Tile.x t0) (Tile.y t0)
              (Tile.x t0 + Tile.w t0)%Q (Tile.y t0 + Tile.h t0)%Q
              eq_refl eq_refl eq_refl eq_refl) as [H1 [H2 [H3 H4]]].
  rewrite H1, H2, H3, H4. split; reflexivity.
Qed.

(** ** The validator without negative tiles *)

Lemma validate_no_negative cfg ts a b c :
  ts <> [] -> existsb Tile.isNegative ts = false ->
  validate cfg ts a b c =
  if JS.lt (Qabs (bboxArea (scanTiles ts) - areaSum ts)) AREA_TOLERANCE
  then PerfectRectangle else NotValid.
Proof.
  intros Hne Hneg. unfold validate.
  destruct ts as [|t0 rest]; [contradiction|].
  cbn [List.length Nat.eqb].
  rewrite scanTiles_totalTileArea.
  unfold overlapModel.
  rewrite scanTiles_hasNegative, Hneg. cbn [negb andb].
  reflexivity.
Qed.

(** C5: the empty arrangement gets the "No tiles to check!" outcome; a
    non-empty arrangement without negative tiles is accepted exactly when
    |bboxArea - sum of w*h over all tiles| < 200, and gets the generic
    invalid verdict otherwise; the non-silent call shows the verdict's
    message. *)
Theorem validate_positive_arrangement (cfg : TileConfig) (ts : list Tile.t)
    (a b c : Z) :
  validate cfg [] a b c = NoTiles /\
  verdictMessage NoTiles = ("No tiles to check!"%string, false) /\
  (ts <> [] -> existsb Tile.isNegative ts = false ->
     (validate cfg ts a b c = PerfectRectangle <->
      (Qabs (bboxArea (scanTiles ts) - areaSum ts) < AREA_TOLERANCE)%Q) /\
     (~ (Qabs (bboxArea (scanTiles ts) - areaSum ts) < AREA_TOLERANCE)%Q ->
      validate cfg ts a b c = NotValid)) /\
  verdictMessage NotValid =
    ("Not a valid rectangle or correct solution."%string, false) /\
  (forall app, feedback (validateArrangement false app) =
               Some (verdictMessage (verdictOf app))).
Proof.
  split; [reflexivity|]. split; [reflexivity|]. split; [|split].
  - intros Hne Hneg. rewrite (validate_no_negative cfg ts a b c Hne Hneg).
    destruct (JS.lt (Qabs (bboxArea (scanTiles ts) - areaSum ts)) AREA_TOLERANCE)
      eqn:E.
    + apply lt_true_iff in E. split; [tauto|]. intro H. contradiction.
    + apply lt_false_iff in E. split.
      * split; [discriminate|]. intro H. exfalso. exact (Qlt_not_le _ _ H E).
      * reflexivity.
  - reflexivity.
  - intro app. unfold validateArrangement. cbn [negb showFeedback feedback].
    rewrite <- surjective_pairing. reflexivity.
Qed.

Lemma validate_positive_arrangement_witness :
  threeSquares <> [] /\ existsb Tile.isNegative threeSquares = false /\
  validate TILE_CONFIG threeSquares 3 0 0 = PerfectRectangle /\
  threeSquaresGap <> [] /\ existsb Tile.isNegative threeSquaresGap = false /\
  validate TILE_CONFIG threeSquaresGap 3 0 0 = NotValid.
Proof.
  assert (Hne : threeSquares <> []) by discriminate.
  assert (Hne' : threeSquaresGap <> []) by discriminate.
  destruct (validate_positive_arrangement TILE_CONFIG threeSquares 3 0 0)
    as [_ [_ [H _]]].
  destruct (validate_positive_arrangement TILE_CONFIG threeSquaresGap 3 0 0)
    as [_ [_ [H' _]]].
  split; [exact Hne|]. split; [reflexivity|]. split.
  - apply (proj1 (H Hne eq_refl)). vm_compute. reflexivity.
  - split; [exact Hne'|]. split; [reflexivity|].
    apply (proj2 (H' Hne' eq_refl)). vm_compute. discriminate.
Defined.

(** ** The negative overlap model *)

Lemma cutCandidates_In (p q : Z) :
  In (p, q) cutCandidates <-> 0 <= p <= 5 /\ 0 <= q <= 5.
Proof.
  unfold cutCandidates. rewrite in_flat_map. split.
  - intros [p' [Hp Hin]]. apply in_map_iff in Hin.
    destruct Hin as [q' [[= <- <-] Hq]].
    apply fromTo_In in Hp. apply fromTo_In in Hq. lia.
  - intros [Hp Hq]. exists p. split; [apply fromTo_In; lia|].
    apply in_map_iff. exists q. split; [reflexivity|apply fromTo_In; lia].
Qed.

Lemma cutAccepts_true (U_SIZE : Q) (s : Scan) (gridW gridH : Z * Z)
    (valA valB valC p q : Z) :
  cutAccepts U_SIZE s gridW gridH valA valB valC (p, q) = true <->
  ~ (p = 0 /\ q = 0) /\
  fst gridW * fst gridH = valA /\
  fst gridW * (snd gridH - q) + (snd gridW - p) * fst gridH = valB /\
  (snd gridW - p) * (snd gridH - q) = valC /\
  (Qabs (expectedNegArea U_SIZE s p q - areaSum (negativeTiles s))
   < AREA_TOLERANCE)%Q.
Proof.
  unfold cutAccepts.
  destruct (Z.eqb_spec p 0) as [Hp|Hp]; destruct (Z.eqb_spec q 0) as [Hq|Hq];
    cbn [andb];
    try (split; [discriminate|intros [H _]; exfalso; apply H; split; assumption]).
  all: destruct (Z.eqb_spec (fst gridW * fst gridH) valA) as [HA|HA];
    destruct (Z.eqb_spec (fst gridW * (snd gridH - q) + (snd gridW - p) * fst gridH)
                valB) as [HB|HB];
    destruct (Z.eqb_spec ((snd gridW - p) * (snd gridH - q)) valC) as [HC|HC];
    cbn [andb];
    try (split; [discriminate|intros [_ [? [? [? _]]]]; contradiction]).
  all: rewrite lt_true_iff; split;
    [intro H; repeat split; try assumption; intros [? ?]; contradiction
    |intros [_ [_ [_ [_ H]]]]; exact H].
Qed.

Lemma overlapModel_true (cfg : TileConfig) (s : Scan) (valA valB valC : Z) :
  overlapModel cfg s valA valB valC = true <->
  hasNegative s = true /\ positiveTiles s <> [] /\
  (Qabs (bboxArea s - areaSum (positiveTiles s)) < AREA_TOLERANCE)%Q /\
  exists p q, In (p, q) cutCandidates /\
    cutAccepts (SIZES_u (SIZES cfg)) s
      (getGridDimensions (SIZES_x (SIZES cfg)) (SIZES_u (SIZES cfg)) (bboxWidth s))
      (getGridDimensions (SIZES_x (SIZES cfg)) (SIZES_u (SIZES cfg)) (bboxHeight s))
      valA valB valC (p, q) = true.
Proof.
  unfold overlapModel.
  destruct (hasNegative s); cbn [andb].
  2: { split; [discriminate|]. intros [H _]. discriminate. }
  destruct (positiveTiles s) as [|t0 rest] eqn:Epos.
  { cbn. split; [discriminate|]. intros [_ [H _]]. contradiction. }
  replace (0 <? Z.of_nat (List.length (t0 :: rest))) with true
    by (symmetry; apply Z.ltb_lt; cbn [List.length]; lia).
  destruct (JS.lt (Qabs (bboxArea s - areaSum (t0 :: rest))) AREA_TOLERANCE) eqn:E.
  - apply lt_true_iff in E. rewrite existsb_exists. split.
    + intros [[p q] [Hin Hacc]]. repeat split; try assumption; try discriminate.
      exists p, q. split; assumption.
    + intros [_ [_ [_ [p [q [Hin Hacc]]]]]]. exists (p, q). split; assumption.
  - apply lt_false_iff in E. split; [discriminate|].
    intros [_ [_ [H _]]]. exfalso. exact (Qlt_not_le _ _ H E).
Qed.

Lemma filter_nonempty {A : Type} (f : A -> bool) (l : list A) :
  existsb f l = true -> filter f l <> [].
Proof.
  induction l as [|a l IH]; cbn; [discriminate|].
  destruct (f a); [discriminate|exact IH].
Qed.

Lemma validate_with_negative cfg ts a b c :
  existsb Tile.isNegative ts = true ->
  validate cfg ts a b c =
  if overlapModel cfg (scanTiles ts) a b c then ValidOverlap else NotValid.
Proof.
  intro Hneg. unfold validate.
  destruct ts as [|t0 rest]; [discriminate|].
  cbn [List.length Nat.eqb].
  rewrite scanTiles_hasNegative, Hneg. reflexivity.
Qed.

(** C2: an arrangement with at least one negative and one positive tile is
    accepted only if (indeed exactly if) the positive tiles' area is within
    200 of the bounding-box area and some (p, q) in 0..5 x 0..5, not both
    zero, makes (gridW_x * x + (gridW_1 - p)) * (gridH_x * x + (gridH_1 - q))
    expand to exactly (a, b, c) while the negative tiles' area is within 200
    of p*U*bboxHeight + q*U*bboxWidth - p*q*U^2; an arrangement of negative
    tiles only is never accepted. *)
Theorem validate_mixed_sign (cfg : TileConfig) (ts : list Tile.t) (a b c : Z) :
  (existsb Tile.isNegative ts = true ->
   existsb (fun tl => negb (Tile.isNegative tl)) ts = true ->
   let s := scanTiles ts in
   let U := SIZES_u (SIZES cfg) in
   let gridW := getGridDimensions (SIZES_x (SIZES cfg)) U (bboxWidth s) in
   let gridH := getGridDimensions (SIZES_x (SIZES cfg)) U (bboxHeight s) in
   accepted (validate cfg ts a b c) <->
   (Qabs (bboxArea s - areaSum (filter (fun tl => negb (Tile.isNegative tl)) ts))
    < AREA_TOLERANCE)%Q /\
   exists p q,
     0 <= p <= 5 /\ 0 <= q <= 5 /\ ~ (p = 0 /\ q = 0) /\
     (fst gridW * fst gridH = a /\
      fst gridW * (snd gridH - q) + (snd gridW - p) * fst gridH = b /\
      (snd gridW - p) * (snd gridH - q) = c) /\
     (forall x, (fst gridW * x + (snd gridW - p)) * (fst gridH * x + (snd gridH - q))
                = a * (x * x) + b * x + c) /\
     (Qabs (inject_Z p * U * bboxHeight s + inject_Z q * U * bboxWidth s
            - inject_Z p * inject_Z q * U * U
            - areaSum (filter Tile.isNegative ts))
      < AREA_TOLERANCE)%Q) /\
  (forallb Tile.isNegative ts = true -> ~ accepted (validate cfg ts a b c)).
Proof.
  split.
  - intros Hneg Hpos. cbv zeta.
    rewrite (validate_with_negative cfg ts a b c Hneg).
    assert (Hacc : accepted (if overlapModel cfg (scanTiles ts) a b c
                             then ValidOverlap else NotValid)
                   <-> overlapModel cfg (scanTiles ts) a b c = true).
    { destruct (overlapModel cfg (scanTiles ts) a b c); split; intro H.
      - reflexivity.
      - right. reflexivity.
      - destruct H; discriminate.
      - discriminate. }
    rewrite Hacc, overlapModel_true.
    rewrite scanTiles_hasNegative, scanTiles_positiveTiles.
    split.
    + intros [_ [_ [Harea [p [q [Hin Hcut]]]]]].
      split; [exact Harea|].
      apply cutCandidates_In in Hin.
      apply cutAccepts_true in Hcut.
      destruct Hcut as [Hnz [HA [HB [HC Hexp]]]].
      exists p, q.
      split; [lia|]. split; [lia|]. split; [exact Hnz|].
      split; [repeat split; assumption|]. split.
      * intro x. rewrite <- HA, <- HB, <- HC.
        generalize (getGridDimensions (SIZES_x (SIZES cfg)) (SIZES_u (SIZES cfg))
                      (bboxWidth (scanTiles ts))).
        generalize (getGridDimensions (SIZES_x (SIZES cfg)) (SIZES_u (SIZES cfg))
                      (bboxHeight (scanTiles ts))).
        clear. intros gH gW. ring.
      * rewrite scanTiles_negativeTiles in Hexp.
        unfold expectedNegArea in Hexp. exact Hexp.
    + intros [Harea [p [q [Hp5 [Hq5 [Hnz [[HA [HB HC]] [_ Hexp]]]]]]]].
      split; [exact Hneg|].
      split; [apply filter_nonempty; exact Hpos|].
      split; [exact Harea|].
      exists p, q. split; [apply cutCandidates_In; lia|].
      apply cutAccepts_true.
      split; [exact Hnz|]. split; [exact HA|]. split; [exact HB|].
      split; [exact HC|].
      rewrite scanTiles_negativeTiles. unfold expectedNegArea. exact Hexp.
  - intros Hall Hacc.
    destruct ts as [|t0 rest].
    + destruct Hacc; discriminate.
    + assert (Hneg : existsb Tile.isNegative (t0 :: rest) = true).
      { cbn in Hall |- *. apply andb_true_iff in Hall. destruct Hall as [-> _].
        reflexivity. }
      rewrite (validate_with_negative cfg _ a b c Hneg) in Hacc.
      assert (Hov : overlapModel cfg (scanTiles (t0 :: rest)) a b c = false).
      { unfold overlapModel. rewrite scanTiles_positiveTiles.
        replace (filter (fun tl => negb (Tile.isNegative tl)) (t0 :: rest))
          with (@nil Tile.t).
        - rewrite andb_false_r. reflexivity.
        - symmetry. clear Hneg Hacc.
          induction (t0 :: rest) as [|u l IH]; [reflexivity|].
          cbn in Hall |- *. apply andb_true_iff in Hall.
          destruct Hall as [-> Hl]. cbn. apply IH. exact Hl. }
      rewrite Hov in Hacc. destruct Hacc; discriminate.
Qed.

Lemma validate_mixed_sign_witness :
  existsb Tile.isNegative cutColumn = true /\
  existsb (fun tl => negb (Tile.isNegative tl)) cutColumn = true /\
  accepted (validate TILE_CONFIG cutColumn 1 1 0) /\
  (Qabs (bboxArea (scanTiles cutColumn)
         - areaSum (filter (fun tl => negb (Tile.isNegative tl)) cutColumn))
   < AREA_TOLERANCE)%Q /\
  forallb Tile.isNegative onlyNegative = true /\
  ~ accepted (validate TILE_CONFIG onlyNegative 1 0 0).
Proof.
  assert (Hacc : accepted (validate TILE_CONFIG cutColumn 1 1 0)).
  { right. vm_compute. reflexivity. }
  split; [reflexivity|]. split; [reflexivity|]. split; [exact Hacc|]. split.
  - exact (proj1 (proj1 (proj1 (validate_mixed_sign TILE_CONFIG cutColumn 1 1 0)
                           eq_refl eq_refl) Hacc)).
  - split; [reflexivity|].
    exact (proj2 (validate_mixed_sign TILE_CONFIG onlyNegative 1 0 0) eq_refl).
Defined.

(** ** Grid-dimension inference *)

Section Grid.

Variables X_SIZE U_SIZE pixels : Q.

Local Abbreviation err := (gridErr X_SIZE U_SIZE pixels).
Local Abbreviation bestOf := (bestOf (gridErr X_SIZE U_SIZE pixels)).

Lemma firstMin_step (pre : list (Z * Z)) (ab c : Z * Z) :
  firstMin err pre ab ->
  (JS.lt (err c) (err ab) = true -> firstMin err (pre ++ [c]) c) /\
  (JS.lt (err c) (err ab) = false -> firstMin err (pre ++ [c]) ab).
Proof.
  intros [l1 [l2 [Hpre [H1 H2]]]]. split; intro Hlt.
  - apply lt_true_iff in Hlt.
    exists pre, []. split; [reflexivity|]. split; [|intros x []].
    intros x Hx. rewrite Hpre in Hx. apply in_app_or in Hx.
    destruct Hx as [Hx|[<-|Hx]].
    + apply Qlt_trans with (err ab); [exact Hlt|apply H1; exact Hx].
    + exact Hlt.
    + apply Qlt_le_trans with (err ab); [exact Hlt|apply H2; exact Hx].
  - apply lt_false_iff in Hlt.
    exists l1, (l2 ++ [c]). split.
    + rewrite Hpre, <- app_assoc. reflexivity.
    + split; [exact H1|].
      intros x Hx. apply in_app_or in Hx.
      destruct Hx as [Hx|[<-|[]]]; [apply H2; exact Hx|exact Hlt].
Qed.

Lemma gridFold_firstMin (l : list (Z * Z)) : forall pre ab,
  firstMin err pre ab ->
  exists ab', firstMin err (pre ++ l) ab' /\
    fold_left (gridStep X_SIZE U_SIZE pixels) l (bestOf ab) = bestOf ab'.
Proof.
  induction l as [|c l IH]; intros pre ab Hmin.
  - exists ab. rewrite app_nil_r. split; [exact Hmin|reflexivity].
  - cbn [fold_left]. unfold gridStep at 2. cbn [bestOf bestErr JS.lt_ext].
    fold (gridErr X_SIZE U_SIZE pixels c).
    destruct (firstMin_step pre ab c Hmin) as [Ht Hf].
    replace (pre ++ c :: l) with ((pre ++ [c]) ++ l)
      by (rewrite <- app_assoc; reflexivity).
    destruct (JS.lt (err c) (err ab)) eqn:E.
    + apply (IH (pre ++ [c]) c). apply Ht. reflexivity.
    + apply (IH (pre ++ [c]) ab). apply Hf. reflexivity.
Qed.

Lemma gridFold_nonempty (c : Z * Z) (l : list (Z * Z)) :
  exists ab, firstMin err (c :: l) ab /\
    fold_left (gridStep X_SIZE U_SIZE pixels) (c :: l) bestInit = bestOf ab.
Proof.
  cbn [fold_left]. unfold gridStep at 2. cbn [bestInit bestErr JS.lt_ext].
  fold (gridErr X_SIZE U_SIZE pixels c).
  apply (gridFold_firstMin l [c] c).
  exists [], []. split; [reflexivity|]. split; intros x [].
Qed.

End Grid.

Lemma gridCandidates_In (a b : Z) :
  In (a, b) gridCandidates <-> 1 <= a <= 5 /\ 0 <= b <= 10.
Proof.
  unfold gridCandidates. rewrite in_flat_map. split.
  - intros [a' [Ha Hin]]. apply in_map_iff in Hin.
    destruct Hin as [b' [[= <- <-] Hb]].
    apply fromTo_In in Ha. apply fromTo_In in Hb. lia.
  - intros [Ha Hb]. exists a. split; [apply fromTo_In; lia|].
    apply in_map_iff. exists b. split; [reflexivity|apply fromTo_In; lia].
Qed.

(** C6 (as amended): the search ranges over countSquare in 1..5 (zero is
    not tried) and countUnit in 0..10; the result is the first pair in
    iteration order whose error |countSquare*X + countUnit*U - pixels| is
    least, provided that error is below 30, and (0, 0) otherwise. *)
Theorem getGridDimensions_first_minimum (X_SIZE U_SIZE pixels : Q) :
  (forall a b, In (a, b) gridCandidates <-> 1 <= a <= 5 /\ 0 <= b <= 10) /\
  exists ab,
    firstMin (gridErr X_SIZE U_SIZE pixels) gridCandidates ab /\
    getGridDimensions X_SIZE U_SIZE pixels =
    if JS.lt (gridErr X_SIZE U_SIZE pixels ab) GRID_THRESHOLD then ab else (0, 0).
Proof.
  split; [exact gridCandidates_In|].
  destruct (gridFold_nonempty X_SIZE U_SIZE pixels (1, 0) (tl gridCandidates))
    as [ab [Hmin Hfold]].
  change ((1, 0) :: tl gridCandidates) with gridCandidates in Hmin, Hfold.
  exists ab. split; [exact Hmin|].
  unfold getGridDimensions. rewrite Hfold. cbn [bestOf bestErr bestA bestB].
  destruct ab as [a b]. reflexivity.
Qed.

Lemma getGridDimensions_first_minimum_witness :
  getGridDimensions 200 25 225 = (1, 1) /\
  exists ab,
    firstMin (gridErr 200 25 225) gridCandidates ab /\
    getGridDimensions 200 25 225 =
    if JS.lt (gridErr 200 25 225 ab) GRID_THRESHOLD then ab else (0, 0).
Proof.
  split; [reflexivity|].
  exact (proj2 (getGridDimensions_first_minimum 200 25 225)).
Defined.

(** C6 (as stated) fails: for a measured length of 25 with X = 200 and
    U = 25, the pair (0, 1) has error 0, below the threshold, yet the result
    is (0, 0), whose error is 25: countSquare = 0 is not searched. *)
Lemma getGridDimensions_skips_zero_squares :
  getGridDimensions 200 25 25 = (0, 0) /\
  (gridErr 200 25 25 (0, 1)%Z < gridErr 200 25 25 (0, 0)%Z)%Q /\
  (gridErr 200 25 25 (0, 1)%Z < GRID_THRESHOLD)%Q.
Proof. repeat split. Qed.

(** ** Snapping *)

Lemma setPos_same (tl : Tile.t) : Tile.setPos tl (Tile.x tl) (Tile.y tl) = tl.
Proof. destruct tl. reflexivity. Qed.

Lemma place_bodyState (tile : Tile.t) (x' y' : Q) :
  bodyState tile (place (tile, false) x' y').
Proof. right. exists x', y'. reflexivity. Qed.

Lemma snapped_fixed (tile other t' : Tile.t) :
  snapLeft tile other (t', true) = (t', true) /\
  snapBottom tile other (t', true) = (t', true) /\
  snapTop tile other (t', true) = (t', true) /\
  snapInner tile other (t', true) = (t', true).
Proof. repeat split. Qed.

Lemma snapRight_state tile other : bodyState tile (snapRight tile other (tile, false)).
Proof.
  unfold snapRight. cbv zeta. case_within;
    first [apply place_bodyState | left; reflexivity].
Qed.

Lemma snapLeft_state tile other : bodyState tile (snapLeft tile other (tile, false)).
Proof.
  unfold snapLeft. cbv zeta. cbn [snd negb andb]. case_within;
    first [apply place_bodyState | left; reflexivity].
Qed.

Lemma snapBottom_state tile other : bodyState tile (snapBottom tile other (tile, false)).
Proof.
  unfold snapBottom. cbv zeta. cbn [snd negb andb]. case_within;
    first [apply place_bodyState | left; reflexivity].
Qed.

Lemma snapTop_state tile other : bodyState tile (snapTop tile other (tile, false)).
Proof.
  unfold snapTop. cbv zeta. cbn [snd negb andb]. case_within;
    first [apply place_bodyState | left; reflexivity].
Qed.

Lemma snapInner_state tile other : bodyState tile (snapInner tile other (tile, false)).
Proof.
  unfold snapInner, snapLeftLeft. cbv zeta. cbn [snd negb].
  case_within; unfold place; cbn [fst];
    try (right; eexists; eexists; reflexivity);
    unfold snapTopTop; cbv zeta; cbn [snd negb andb]; case_within;
    first [apply place_bodyState | left; reflexivity].
Qed.

(** The loop body changes at most the position of the moving tile. *)
Lemma snapStep_state (tile other : Tile.t) : bodyState tile (snapStep tile other).
Proof.
  unfold snapStep. cbv zeta.
  destruct (snapRight_state tile other) as [-> | [x' [y' ->]]].
  2: { right. exists x', y'. reflexivity. }
  destruct (snapLeft_state tile other) as [-> | [x' [y' ->]]].
  2: { right. exists x', y'. reflexivity. }
  destruct (snapBottom_state tile other) as [-> | [x' [y' ->]]].
  2: { right. exists x', y'. reflexivity. }
  destruct (snapTop_state tile other) as [-> | [x' [y' ->]]].
  2: { right. exists x', y'. reflexivity. }
  apply snapInner_state.
Qed.










(** *** The loop over the arrangement *)

Lemma snapLoop_state (moving : nat) (tile : Tile.t) (others : list Tile.t) :
  forall j, snapLoop moving tile others j = tile \/
            exists x' y', snapLoop moving tile others j = Tile.setPos tile x' y'.
Proof.
  induction others as [|o rest IH]; intro j; cbn [snapLoop].
  - left. reflexivity.
  - destruct (Nat.eqb j moving); [apply IH|].
    destruct (snapStep_state tile o) as [-> | [x' [y' ->]]].
    + apply IH.
    + right. exists x', y'. reflexivity.
Qed.



Lemma mutate_nth (ts : list Tile.t) (f : Tile.t -> Tile.t) : forall i k,
  nth_error (mutate ts i f) k =
  if Nat.eqb k i then option_map f (nth_error ts k) else nth_error ts k.
Proof.
  induction ts as [|tl rest IH]; intros i k.
  - cbn. destruct k; destruct (Nat.eqb _ i); reflexivity.
  - destruct i as [|i]; destruct k as [|k]; cbn; try reflexivity.
    apply IH.
Qed.




(** ** Animation stepper *)

Lemma gt_true_iff (a b : Q) : JS.gt a b = true <-> (b < a)%Q.
Proof. unfold JS.gt. apply lt_true_iff. Qed.

Lemma gt_false_iff (a b : Q) : JS.gt a b = false <-> (a <= b)%Q.
Proof. unfold JS.gt. apply lt_false_iff. Qed.

Lemma easeAxis_near (pos target : Q) :
  (Qabs (pos - target) <= SETTLE)%Q -> easeAxis pos target = (target, false).
Proof.
  intro H. unfold easeAxis. apply gt_false_iff in H. rewrite H. reflexivity.
Qed.

Lemma easeAxis_far (pos target : Q) :
  (SETTLE < Qabs (pos - target))%Q ->
  easeAxis pos target = ((pos + (target - pos) * (1 # 10))%Q, true).
Proof.
  intro H. unfold easeAxis. apply gt_true_iff in H. rewrite H. reflexivity.
Qed.

(** A moving step leaves nine tenths of the distance. *)
Lemma ease_remaining (pos target : Q) :
  (Qabs (pos + (target - pos) * (1 # 10) - target)
   == (9 # 10) * Qabs (pos - target))%Q.
Proof.
  assert (E : (pos + (target - pos) * (1 # 10) - target
               == (9 # 10) * (pos - target))%Q) by ring.
  rewrite E, Qabs_Qmult. reflexivity.
Qed.

Lemma axisSteps_mono (p1 p2 target : Q) :
  (Qabs (p1 - target) <= Qabs (p2 - target))%Q ->
  (axisSteps p1 target <= axisSteps p2 target)%nat.
Proof.
  intro H. unfold axisSteps. apply Z2Nat.inj_le.
  - change 0 with (Qfloor 0). apply Qfloor_resp_le.
    pose proof (Qabs_nonneg (p1 - target)). lra.
  - change 0 with (Qfloor 0). apply Qfloor_resp_le.
    pose proof (Qabs_nonneg (p2 - target)). lra.
  - apply Qfloor_resp_le. lra.
Qed.

Lemma axisSteps_decrease (pos target : Q) :
  (SETTLE < Qabs (pos - target))%Q ->
  (axisSteps (pos + (target - pos) * (1 # 10)) target < axisSteps pos target)%nat.
Proof.
  intro H. unfold axisSteps, SETTLE in *.
  pose proof (ease_remaining pos target) as E.
  set (d := Qabs (pos - target)) in *.
  set (d' := Qabs (pos + (target - pos) * (1 # 10) - target)) in *.
  assert (Hd' : (0 <= d')%Q) by apply Qabs_nonneg.
  assert (H0 : 0 <= Qfloor (20 * d')).
  { change 0 with (Qfloor 0). apply Qfloor_resp_le. lra. }
  assert (H1 : Qfloor (20 * d') + 1 <= Qfloor (20 * d)).
  { rewrite <- (Qfloor_Z (Qfloor (20 * d') + 1)).
    apply Qfloor_resp_le.
    pose proof (Qfloor_le (20 * d')) as Hfl.
    rewrite inject_Z_plus. change (inject_Z 1) with 1%Q. lra. }
  lia.
Qed.

Lemma axisSteps_easeAxis (pos target : Q) :
  (snd (easeAxis pos target) = true ->
   (axisSteps (fst (easeAxis pos target)) target < axisSteps pos target)%nat) /\
  (snd (easeAxis pos target) = false -> fst (easeAxis pos target) = target) /\
  (axisSteps (fst (easeAxis pos target)) target <= axisSteps pos target)%nat.
Proof.
  destruct (Qlt_le_dec SETTLE (Qabs (pos - target))) as [Hfar|Hnear].
  - rewrite (easeAxis_far pos target Hfar). cbn [fst snd].
    pose proof (axisSteps_decrease pos target Hfar) as Hdec.
    split; [intros _; exact Hdec|]. split; [discriminate|lia].
  - rewrite (easeAxis_near pos target Hnear). cbn [fst snd].
    split; [discriminate|]. split; [reflexivity|].
    apply axisSteps_mono.
    assert (E : (target - target == 0)%Q) by ring.
    rewrite E. apply Qabs_nonneg.
Qed.

Lemma stepTile_spec (tl : Tile.t) :
  hasTarget tl ->
  exists tl' moved,
    stepTile tl = Some (tl', moved) /\
    hasTarget tl' /\
    (tileSteps tl' <= tileSteps tl)%nat /\
    (moved = true -> (tileSteps tl' < tileSteps tl)%nat) /\
    (moved = false -> atTarget tl').
Proof.
  intros [Hx Hy].
  destruct (Tile.targetX tl) as [tx|] eqn:Ex; [|contradiction].
  destruct (Tile.targetY tl) as [ty|] eqn:Ey; [|contradiction].
  unfold stepTile. rewrite Ex, Ey.
  destruct (axisSteps_easeAxis (Tile.x tl) tx) as [Hx1 [Hx2 Hx3]].
  destruct (axisSteps_easeAxis (Tile.y tl) ty) as [Hy1 [Hy2 Hy3]].
  destruct (easeAxis (Tile.x tl) tx) as [x' ax].
  destruct (easeAxis (Tile.y tl) ty) as [y' ay].
  cbn [fst snd] in *.
  exists (Tile.setPos tl x' y'), (ax || ay)%bool.
  split; [reflexivity|].
  assert (Hsteps : tileSteps (Tile.setPos tl x' y')
                   = (axisSteps x' tx + axisSteps y' ty)%nat).
  { unfold tileSteps. cbn [Tile.setPos Tile.targetX Tile.targetY Tile.x Tile.y].
    rewrite Ex, Ey. reflexivity. }
  assert (Hsteps0 : tileSteps tl
                    = (axisSteps (Tile.x tl) tx + axisSteps (Tile.y tl) ty)%nat).
  { unfold tileSteps. rewrite Ex, Ey. reflexivity. }
  split; [|split; [|split]].
  - unfold hasTarget. cbn [Tile.setPos Tile.targetX Tile.targetY].
    rewrite Ex, Ey. split; discriminate.
  - rewrite Hsteps, Hsteps0. lia.
  - intro Hm. rewrite Hsteps, Hsteps0.
    destruct ax.
    + specialize (Hx1 eq_refl). lia.
    + destruct ay; [|discriminate]. specialize (Hy1 eq_refl). lia.
  - intro Hm. apply orb_false_iff in Hm. destruct Hm as [-> ->].
    unfold atTarget. cbn [Tile.setPos Tile.targetX Tile.targetY Tile.x Tile.y].
    rewrite Ex, Ey, (Hx2 eq_refl), (Hy2 eq_refl). split; reflexivity.
Qed.

Lemma stepTiles_spec (ts : list Tile.t) :
  Forall hasTarget ts ->
  forall active, exists ts' moved,
    stepTiles ts active = Some (ts', (active || moved)%bool) /\
    Forall hasTarget ts' /\
    (stepsBound ts' <= stepsBound ts)%nat /\
    (moved = true -> (stepsBound ts' < stepsBound ts)%nat) /\
    (moved = false -> Forall atTarget ts').
Proof.
  induction 1 as [|tl rest Htl Hrest IH]; intro active.
  - exists [], false. cbn. rewrite orb_false_r.
    repeat split; try constructor; try discriminate.
  - destruct (stepTile_spec tl Htl) as [tl' [m1 [E1 [Ht' [Hle1 [Hlt1 Hat1]]]]]].
    destruct (IH (active || m1)%bool) as [rest' [m2 [E2 [Hr' [Hle2 [Hlt2 Hat2]]]]]].
    exists (tl' :: rest'), (m1 || m2)%bool.
    cbn [stepTiles]. rewrite E1, E2, orb_assoc.
    split; [reflexivity|]. split; [constructor; assumption|].
    unfold stepsBound, list_sum in *. cbn [map fold_right].
    split; [lia|]. split.
    + intro Hm. destruct m1.
      * specialize (Hlt1 eq_refl). lia.
      * destruct m2; [|discriminate]. specialize (Hlt2 eq_refl). lia.
    + intro Hm. apply orb_false_iff in Hm. destruct Hm as [-> ->].
      constructor; [apply Hat1|apply Hat2]; reflexivity.
Qed.

Lemma render_idle (app : App) :
  isAnimating app = false -> forall k, renderN k app = Some (app, repeat Idle k).
Proof.
  intros H k. induction k as [|k IH]; [reflexivity|].
  cbn [renderN]. unfold render. rewrite H, IH. reflexivity.
Qed.

(** One frame of a running animation: either some tile moved and the bound
    went down, or every tile was within the threshold, is now exactly at
    its target, and the animation is over. *)
Lemma render_animating (app : App) :
  isAnimating app = true -> Forall hasTarget (tiles app) ->
  (exists app', render app = Some (app', Active) /\
                isAnimating app' = true /\ Forall hasTarget (tiles app') /\
                (stepsBound (tiles app') < stepsBound (tiles app))%nat) \/
  (exists app', render app = Some (app', Settled) /\
                isAnimating app' = false /\ Forall atTarget (tiles app')).
Proof.
  intros Han Hts. unfold render. rewrite Han.
  destruct (stepTiles_spec (tiles app) Hts false)
    as [ts' [moved [E [Hts' [_ [Hlt Hat]]]]]].
  rewrite E. cbn [orb]. destruct moved.
  - left. exists (setTiles app ts'). split; [reflexivity|].
    split; [exact Han|]. split; [exact Hts'|]. apply Hlt. reflexivity.
  - right. eexists. split; [reflexivity|].
    split; [reflexivity|]. apply Hat. reflexivity.
Qed.

Lemma schedule_active (N k : nat) :
  schedule (S N) (S k) = Active :: schedule N k.
Proof. reflexivity. Qed.

Lemma schedule_settled (k : nat) :
  schedule 0 (S k) = Settled :: repeat Idle k.
Proof.
  unfold schedule. cbn. rewrite Nat.sub_0_r. reflexivity.
Qed.

Lemma render_schedule (bound : nat) : forall app,
  (stepsBound (tiles app) <= bound)%nat ->
  isAnimating app = true -> Forall hasTarget (tiles app) ->
  exists N, (N <= stepsBound (tiles app))%nat /\
    forall k, exists app_k,
      renderN k app = Some (app_k, schedule N k) /\
      ((N < k)%nat -> isAnimating app_k = false /\ Forall atTarget (tiles app_k)).
Proof.
  induction bound as [|bound IH]; intros app Hb Han Hts.
  - destruct (render_animating app Han Hts)
      as [[app' [E [_ [_ Hlt]]]] | [app' [E [Hoff Hat]]]]; [lia|].
    exists O. split; [lia|]. intros [|k].
    + exists app. split; [reflexivity|]. intro H. lia.
    + exists app'. cbn [renderN]. rewrite E, (render_idle app' Hoff k).
      rewrite schedule_settled. split; [reflexivity|]. intros _. split; assumption.
  - destruct (render_animating app Han Hts)
      as [[app' [E [Han' [Hts' Hlt]]]] | [app' [E [Hoff Hat]]]].
    + destruct (IH app' ltac:(lia) Han' Hts') as [N [HN Hk]].
      exists (S N). split; [lia|]. intros [|k].
      * exists app. split; [reflexivity|]. intro H. lia.
      * destruct (Hk k) as [app_k [Ek Hdone]].
        exists app_k. cbn [renderN]. rewrite E, Ek, schedule_active.
        split; [reflexivity|]. intro H. apply Hdone. lia.
    + exists O. split; [lia|]. intros [|k].
      * exists app. split; [reflexivity|]. intro H. lia.
      * exists app'. cbn [renderN]. rewrite E, (render_idle app' Hoff k).
        rewrite schedule_settled. split; [reflexivity|]. intros _. split; assumption.
Qed.



(** * Further properties of the engine *)

(** ** The factorization the solver finds *)

Lemma quot_exact (c p : Z) : p <> 0 -> (p | c) -> p * Z.quot c p = c.
Proof.
  intros Hp [k ->]. rewrite Z.quot_mul by assumption. ring.
Qed.

Lemma solveSearch_Some (m n b c p q : Z) :
  solveSearch m n b c = Some (p, q) -> m * q + n * p = b /\ p * q = c.
Proof.
  intro H. destruct (Z.eq_dec c 0) as [Hc|Hc].
  - rewrite (solveSearch_zero m n b c Hc) in H. subst c.
    unfold tryCandidate in H. cbn [Z.eqb negb] in H.
    destruct (m * (if negb (m =? 0) && (Z.rem b m =? 0) then Z.quot b m else 0)
              + n * 0 =? b) eqn:E; [|discriminate].
    injection H as <- <-. apply Z.eqb_eq in E. split; [exact E|reflexivity].
  - unfold solveSearch in H.
    apply (searchLoop_fromTo m n b c
             (Z.to_nat (searchLimit b c - - searchLimit b c + 1))) in H;
      [|reflexivity].
    destruct H as [i [_ [Hacc _]]].
    apply tryCandidate_nonzero in Hacc; [|assumption].
    destruct Hacc as [-> [Hp [Hd [-> Hb]]]].
    split; [exact Hb|apply quot_exact; assumption].
Qed.

Lemma getClosestFactors_product (a : Z) :
  fst (getClosestFactors a) * snd (getClosestFactors a) = Z.abs a /\
  0 < fst (getClosestFactors a) /\ 0 <= snd (getClosestFactors a).
Proof.
  destruct (Z.eq_dec a 0) as [->|Ha].
  - repeat split; cbn; lia.
  - destruct (getClosestFactors_nonzero a Ha) as [Hm [_ [_ [_ [Hmn _]]]]].
    split; [exact Hmn|]. split; [exact Hm|]. nia.
Qed.

(** X1: whenever the search accepts (p, q) for the factor pair (m, n) of a,
    the layout it builds is a true factorization:
    (m x + p)(n x + q) = |a| x^2 + b x + c, for every a, b, c (zero
    included). *)
Theorem solver_factorization_sound (a b c m n p q : Z) :
  getClosestFactors a = (m, n) ->
  solveSearch m n b c = Some (p, q) ->
  m * n = Z.abs a /\ m * q + n * p = b /\ p * q = c /\
  forall x, (m * x + p) * (n * x + q) = Z.abs a * (x * x) + b * x + c.
Proof.
  intros Hf Hs.
  destruct (getClosestFactors_product a) as [Hmn _]. rewrite Hf in Hmn.
  cbn [fst snd] in Hmn.
  destruct (solveSearch_Some m n b c p q Hs) as [Hb Hc].
  repeat split; try assumption.
  intro x. rewrite <- Hmn, <- Hb, <- Hc. ring.
Qed.

Lemma solver_factorization_sound_witness :
  getClosestFactors 6 = (2, 3) /\ solveSearch 2 3 7 2 = Some (1, 2) /\
  forall x, (2 * x + 1) * (3 * x + 2) = Z.abs 6 * (x * x) + 7 * x + 2.
Proof.
  split; [reflexivity|]. split; [reflexivity|].
  exact (proj2 (proj2 (proj2
           (solver_factorization_sound 6 7 2 2 3 1 2 eq_refl eq_refl)))).
Defined.

(** X2: for a leading coefficient 1 or -1 and c <> 0 the search is
    complete: it accepts a pair exactly when integers p, q with p q = c and
    p + q = b exist. *)
Theorem solver_complete_monic (a b c : Z) :
  Z.abs a = 1 -> c <> 0 ->
  getClosestFactors a = (1, 1) /\
  (solveSearch 1 1 b c <> None <-> exists p q, p * q = c /\ p + q = b).
Proof.
  intros Ha Hc. split.
  - assert (a = 1 \/ a = -1) as [-> | ->] by lia; reflexivity.
  - split.
    + intro H. destruct (solveSearch 1 1 b c) as [[p q]|] eqn:E; [|contradiction].
      destruct (solveSearch_Some 1 1 b c p q E) as [Hb Hpq].
      exists p, q. split; [exact Hpq|lia].
    + intros [p [q [Hpq Hb]]] Hnone.
      assert (Hp : p <> 0) by (intros ->; lia).
      assert (Hd : (p | c)) by (exists q; lia).
      assert (Hq : q = Z.quot c p).
      { rewrite <- Hpq. rewrite Z.mul_comm, Z.quot_mul by assumption. reflexivity. }
      assert (Hr : - Z.abs c <= p <= Z.abs c).
      { assert (Hq0 : q <> 0) by (intros ->; lia).
        assert (Habs : Z.abs c = Z.abs p * Z.abs q)
          by (rewrite <- Hpq; apply Z.abs_mul).
        assert (1 <= Z.abs q) by lia.
        assert (Z.abs p <= Z.abs c) by nia. lia. }
      unfold solveSearch in Hnone.
      assert (Hlim : searchLimit b c = Z.abs c).
      { unfold searchLimit. destruct (Z.eqb_spec (Z.abs c) 0); lia. }
      rewrite Hlim in Hnone.
      pose proof (proj1 (searchLoop_None 1 1 b c _) Hnone p
                    (proj2 (fromTo_In _ _ _) Hr)) as Hp0.
      apply (proj1 (tryCandidate_nonzero_None 1 1 b c p Hc) Hp0 Hp Hd).
      rewrite <- Hq. lia.
Qed.

Lemma solver_complete_monic_witness :
  Z.abs (-1) = 1 /\ 6 <> 0 /\
  (solveSearch 1 1 5 6 <> None <-> exists p q, p * q = 6 /\ p + q = 5).
Proof.
  assert (H1 : Z.abs (-1) = 1) by reflexivity.
  assert (H6 : 6 <> 0) by discriminate.
  split; [exact H1|]. split; [exact H6|].
  exact (proj2 (solver_complete_monic (-1) 5 6 H1 H6)).
Defined.

(** ** Generated tiles and the readout *)

Lemma countStep_fold (ts : list Tile.t) : forall x2c xc oc,
  fold_left countStep ts (x2c, xc, oc) =
  (x2c + signedCount T_x2 ts, xc + signedCount T_x ts, oc + signedCount T_one ts).
Proof.
  induction ts as [|tl rest IH]; intros x2c xc oc; cbn [fold_left signedCount].
  - f_equal; [f_equal|]; lia.
  - assert (E : countStep (x2c, xc, oc) tl =
               (x2c + (if TileType_eqb (Tile.type tl) T_x2
                       then (if Tile.isNegative tl then -1 else 1) else 0),
                xc + (if TileType_eqb (Tile.type tl) T_x
                      then (if Tile.isNegative tl then -1 else 1) else 0),
                oc + (if TileType_eqb (Tile.type tl) T_one
                      then (if Tile.isNegative tl then -1 else 1) else 0))).
    { unfold countStep. destruct (Tile.type tl); cbn [TileType_eqb];
        f_equal; try f_equal; lia. }
    rewrite E, IH. f_equal; [f_equal|]; lia.
Qed.

Lemma checkSolution_counts (ts : list Tile.t) :
  checkSolution ts = (signedCount T_x2 ts, signedCount T_x ts, signedCount T_one ts).
Proof. unfold checkSolution. rewrite countStep_fold. reflexivity. Qed.

Lemma signedCount_app (ty : TileType) (l1 l2 : list Tile.t) :
  signedCount ty (l1 ++ l2) = signedCount ty l1 + signedCount ty l2.
Proof.
  induction l1 as [|tl l1 IH]; cbn [app signedCount]; [reflexivity|].
  rewrite IH. lia.
Qed.

Lemma signedCount_uniform (ty ty' : TileType) (neg : bool) (ts : list Tile.t) :
  Forall (fun tl => kindSign tl = (ty', neg)) ts ->
  signedCount ty ts =
  if TileType_eqb ty' ty
  then (if neg then -1 else 1) * Z.of_nat (List.length ts) else 0.
Proof.
  induction 1 as [|tl rest Htl Hrest IH]; cbn [signedCount List.length].
  - destruct (TileType_eqb ty' ty); lia.
  - injection Htl as Hty Hneg. rewrite IH, Hty, Hneg.
    destruct (TileType_eqb ty' ty); lia.
Qed.

Lemma signedCount_kindSign (ty : TileType) (l1 : list Tile.t) : forall l2,
  map kindSign l1 = map kindSign l2 -> signedCount ty l1 = signedCount ty l2.
Proof.
  induction l1 as [|t1 l1 IH]; intros [|t2 l2] H; try discriminate; [reflexivity|].
  cbn [map] in H. unfold kindSign at 1 2 in H. injection H as Hty Hneg Hrest.
  cbn [signedCount]. rewrite (IH l2 Hrest), Hty, Hneg. reflexivity.
Qed.

Lemma signedCount_perm (ty : TileType) (l1 l2 : list Tile.t) :
  Permutation l1 l2 -> signedCount ty l1 = signedCount ty l2.
Proof.
  induction 1; cbn [signedCount]; lia.
Qed.

Lemma new_kindSign cfg ty x0 y0 neg :
  kindSign (Tile.new cfg ty x0 y0 neg) = (ty, neg).
Proof. destruct ty; reflexivity. Qed.

Lemma genSquares_shape cfg neg k : forall sx sy,
  List.length (genSquares cfg neg k sx sy) = k /\
  Forall (fun tl => kindSign tl = (T_x2, neg)) (genSquares cfg neg k sx sy).
Proof.
  induction k as [|k IH]; intros sx sy; cbn [genSquares List.length].
  - split; [reflexivity|constructor].
  - destruct (IH (sx + SIZES_x (SIZES cfg) + GAP cfg)%Q sy) as [Hl Hf].
    split; [rewrite Hl; reflexivity|].
    constructor; [apply new_kindSign|exact Hf].
Qed.

Lemma genBars_shape cfg neg k : forall i sx sy,
  List.length (fst (genBars cfg neg k i sx sy)) = k /\
  Forall (fun tl => kindSign tl = (T_x, neg)) (fst (genBars cfg neg k i sx sy)).
Proof.
  induction k as [|k IH]; intros i sx sy; cbn [genBars].
  - split; [reflexivity|constructor].
  - destruct (Z.rem i 10 =? 9).
    + destruct (IH (i + 1) 50%Q (sy + 110)%Q) as [Hl Hf].
      destruct (genBars cfg neg k (i + 1) 50%Q (sy + 110)%Q) as [rest endY].
      cbn [fst List.length] in *. split; [rewrite Hl; reflexivity|].
      constructor; [apply new_kindSign|exact Hf].
    + destruct (IH (i + 1) (sx + 50)%Q sy) as [Hl Hf].
      destruct (genBars cfg neg k (i + 1) (sx + 50)%Q sy) as [rest endY].
      cbn [fst List.length] in *. split; [rewrite Hl; reflexivity|].
      constructor; [apply new_kindSign|exact Hf].
Qed.

Lemma genUnits_shape cfg neg k : forall sx sy,
  List.length (genUnits cfg neg k sx sy) = k /\
  Forall (fun tl => kindSign tl = (T_one, neg)) (genUnits cfg neg k sx sy).
Proof.
  induction k as [|k IH]; intros sx sy; cbn [genUnits List.length].
  - split; [reflexivity|constructor].
  - destruct (IH (sx + 50)%Q sy) as [Hl Hf].
    split; [rewrite Hl; reflexivity|].
    constructor; [apply new_kindSign|exact Hf].
Qed.

(** The generated arrangement: squares, then bars, then units. *)
Lemma generatedTiles_parts cfg a b c :
  exists squares bars units,
    generatedTiles cfg a b c = squares ++ bars ++ units /\
    (List.length squares = Z.to_nat (Z.abs a) /\
     Forall (fun tl => kindSign tl = (T_x2, a <? 0)) squares) /\
    (List.length bars = Z.to_nat (Z.abs b) /\
     Forall (fun tl => kindSign tl = (T_x, b <? 0)) bars) /\
    (List.length units = Z.to_nat (Z.abs c) /\
     Forall (fun tl => kindSign tl = (T_one, c <? 0)) units).
Proof.
  unfold generatedTiles.
  pose proof (genBars_shape cfg (b <? 0) (Z.to_nat (Z.abs b)) 0 50%Q (50 + 120)%Q)
    as Hb.
  destruct (genBars cfg (b <? 0) (Z.to_nat (Z.abs b)) 0 50%Q (50 + 120)%Q)
    as [bars endY].
  eexists. exists bars. eexists. split; [reflexivity|].
  split; [apply genSquares_shape|]. split; [exact Hb|apply genUnits_shape].
Qed.

Lemma signed_abs (z : Z) : (if z <? 0 then -1 else 1) * Z.of_nat (Z.to_nat (Z.abs z)) = z.
Proof. destruct (Z.ltb_spec z 0); lia. Qed.

Lemma generatedTiles_length (cfg : TileConfig) (a b c : Z) :
  List.length (generatedTiles cfg a b c) = Z.to_nat (Z.abs a + Z.abs b + Z.abs c).
Proof.
  destruct (generatedTiles_parts cfg a b c)
    as [sq [ba [un [-> [[Hls _] [[Hlb _] [Hlu _]]]]]]].
  rewrite !length_app, Hls, Hlb, Hlu. lia.
Qed.

Lemma generatedTiles_signedCount (cfg : TileConfig) (a b c : Z) :
  signedCount T_x2 (generatedTiles cfg a b c) = a /\
  signedCount T_x (generatedTiles cfg a b c) = b /\
  signedCount T_one (generatedTiles cfg a b c) = c.
Proof.
  destruct (generatedTiles_parts cfg a b c)
    as [sq [ba [un [-> [[Hls Hfs] [[Hlb Hfb] [Hlu Hfu]]]]]]].
  rewrite !signedCount_app.
  rewrite !(signedCount_uniform _ _ _ _ Hfs), !(signedCount_uniform _ _ _ _ Hfb),
    !(signedCount_uniform _ _ _ _ Hfu).
  cbn [TileType_eqb]. rewrite Hls, Hlb, Hlu, !signed_abs.
  repeat split; lia.
Qed.

(** X3: the tiles generated for (a, b, c) are |a| + |b| + |c| in number, and
    the readout computed from them shows exactly a, b and c. *)
Theorem generateTiles_readout (cfg : TileConfig) (a b c : Z) :
  List.length (generatedTiles cfg a b c) = Z.to_nat (Z.abs a + Z.abs b + Z.abs c) /\
  checkSolution (generatedTiles cfg a b c) = (a, b, c).
Proof.
  split; [apply generatedTiles_length|].
  rewrite checkSolution_counts.
  destruct (generatedTiles_signedCount cfg a b c) as [-> [-> ->]].
  reflexivity.
Qed.

(** ** The render order after a solve *)

Lemma insertByRank_pass (tl : Tile.t) (l1 l2 : list Tile.t) :
  Forall (fun u => getRank u < getRank tl) l1 ->
  insertByRank tl (l1 ++ l2) = l1 ++ insertByRank tl l2.
Proof.
  induction 1 as [|u l1 Hu Hl1 IH]; cbn [app insertByRank]; [reflexivity|].
  destruct (Z.ltb_spec (getRank u) (getRank tl)); [|lia].
  rewrite IH. reflexivity.
Qed.

Lemma insertByRank_stop (tl : Tile.t) (l : list Tile.t) :
  Forall (fun u => getRank tl <= getRank u) l -> insertByRank tl l = tl :: l.
Proof.
  intros [|u l' Hu _]; cbn [insertByRank]; [reflexivity|].
  destruct (Z.ltb_spec (getRank u) (getRank tl)); [lia|reflexivity].
Qed.

Lemma ofKind_rank (ty : TileType) (ts : list Tile.t) :
  Forall (fun u => Tile.type u = ty) (ofKind ty ts).
Proof.
  unfold ofKind. apply Forall_forall. intros u Hu.
  apply filter_In in Hu. destruct Hu as [_ Hu].
  destruct (Tile.type u), ty; first [reflexivity | discriminate].
Qed.

Lemma ofKind_getRank (ty : TileType) (ts : list Tile.t) :
  Forall (fun u => getRank u = match ty with T_x2 => 1 | T_x => 2 | T_one => 3 end)
         (ofKind ty ts).
Proof.
  eapply Forall_impl; [|apply ofKind_rank].
  intros u Hu. unfold getRank. rewrite Hu. reflexivity.
Qed.

Lemma ofKind_above (tl : Tile.t) (ty : TileType) (ts : list Tile.t) :
  getRank tl <= match ty with T_x2 => 1 | T_x => 2 | T_one => 3 end ->
  Forall (fun u => getRank tl <= getRank u) (ofKind ty ts).
Proof.
  intro H. eapply Forall_impl; [|apply ofKind_getRank].
  intros u Hu. cbn beta in Hu. rewrite Hu. exact H.
Qed.

Lemma ofKind_below (tl : Tile.t) (ty : TileType) (ts : list Tile.t) :
  match ty with T_x2 => 1 | T_x => 2 | T_one => 3 end < getRank tl ->
  Forall (fun u => getRank u < getRank tl) (ofKind ty ts).
Proof.
  intro H. eapply Forall_impl; [|apply ofKind_getRank].
  intros u Hu. cbn beta in Hu. rewrite Hu. exact H.
Qed.

Lemma sortByRank_ofKind (ts : list Tile.t) :
  sortByRank ts = ofKind T_x2 ts ++ ofKind T_x ts ++ ofKind T_one ts.
Proof.
  induction ts as [|tl ts IH]; [reflexivity|].
  cbn [sortByRank fold_right]. fold (sortByRank ts). rewrite IH.
  unfold ofKind at 4 5 6. cbn [filter]. fold (ofKind T_x2 ts).
  fold (ofKind T_x ts). fold (ofKind T_one ts).
  assert (Hr : getRank tl = match Tile.type tl with
                            | T_x2 => 1 | T_x => 2 | T_one => 3 end)
    by reflexivity.
  destruct (Tile.type tl); cbn [TileType_eqb].
  - apply insertByRank_stop. rewrite !Forall_app.
    split; [|split]; apply ofKind_above; rewrite Hr; cbn; lia.
  - rewrite insertByRank_pass by (apply ofKind_below; rewrite Hr; cbn; lia).
    f_equal. cbn [app]. apply insertByRank_stop. rewrite Forall_app.
    split; apply ofKind_above; rewrite Hr; cbn; lia.
  - rewrite insertByRank_pass by (apply ofKind_below; rewrite Hr; cbn; lia).
    f_equal.
    rewrite insertByRank_pass by (apply ofKind_below; rewrite Hr; cbn; lia).
    f_equal. apply insertByRank_stop. apply ofKind_above; rewrite Hr; cbn; lia.
Qed.

Lemma ofKind_perm (ts : list Tile.t) :
  Permutation (ofKind T_x2 ts ++ ofKind T_x ts ++ ofKind T_one ts) ts.
Proof.
  induction ts as [|tl ts IH]; [constructor|].
  unfold ofKind. cbn [filter]. fold (ofKind T_x2 ts) (ofKind T_x ts) (ofKind T_one ts).
  destruct (Tile.type tl); cbn [TileType_eqb].
  - cbn [app]. constructor. exact IH.
  - apply Permutation_sym, Permutation_cons_app, Permutation_sym. exact IH.
  - apply Permutation_sym.
    rewrite app_assoc. apply Permutation_cons_app.
    rewrite <- app_assoc. apply Permutation_sym. exact IH.
Qed.

(** X4: the sort that ends a successful solve is a stable three-way
    partition: all x^2 tiles, then all x tiles, then all unit tiles, each
    group in its previous order; in particular it only permutes the tiles. *)
Theorem sortByRank_partition (ts : list Tile.t) :
  sortByRank ts = ofKind T_x2 ts ++ ofKind T_x ts ++ ofKind T_one ts /\
  Permutation (sortByRank ts) ts.
Proof.
  split; [apply sortByRank_ofKind|].
  rewrite sortByRank_ofKind. apply ofKind_perm.
Qed.

(** ** Target assignment *)

Lemma mutate_length (ts : list Tile.t) (f : Tile.t -> Tile.t) : forall r,
  List.length (mutate ts r f) = List.length ts.
Proof.
  induction ts as [|tl rest IH]; intros [|r]; cbn; try reflexivity.
  rewrite IH. reflexivity.
Qed.

Lemma mutate_map {A : Type} (g : Tile.t -> A) (f : Tile.t -> Tile.t)
    (ts : list Tile.t) :
  (forall tl, g (f tl) = g tl) -> forall r, map g (mutate ts r f) = map g ts.
Proof.
  intro Hf. induction ts as [|tl rest IH]; intros [|r]; cbn; try reflexivity.
  - rewrite Hf. reflexivity.
  - rewrite IH. reflexivity.
Qed.

Lemma fill_map {A : Type} (g : Tile.t -> A) (refs : list nat)
    (slots : list (Z * Z)) (place' : Z * Z -> Tile.t -> Tile.t) (ts : list Tile.t) :
  (forall s tl, g (place' s tl) = g tl) ->
  map g (fill refs slots place' ts) = map g ts.
Proof.
  intro Hp. unfold fill. generalize (combine slots refs) as srs. intro srs.
  revert ts. induction srs as [|sr srs IH]; intro ts; cbn [fold_left].
  - reflexivity.
  - rewrite IH. apply mutate_map. intro tl. apply Hp.
Qed.

Lemma fill_length (refs : list nat) (slots : list (Z * Z))
    (place' : Z * Z -> Tile.t -> Tile.t) (ts : list Tile.t) :
  List.length (fill refs slots place' ts) = List.length ts.
Proof.
  rewrite <- (length_map (fun _ => tt)),
    (fill_map (fun _ => tt) refs slots place' ts), length_map by reflexivity.
  reflexivity.
Qed.

Lemma rotate_to_kindSign (tl : Tile.t) (r : Z) :
  kindSign (Tile.updateDimensions (Tile.setRotation tl r)) = kindSign tl.
Proof.
  unfold Tile.updateDimensions. cbn [Tile.setRotation Tile.type].
  destruct (Tile.type tl) eqn:E; unfold kindSign; cbn; rewrite E; reflexivity.
Qed.

Lemma assignTargets_kindSign (app : App) (m n p q : Z) :
  map kindSign (assignTargets app m n p q) = map kindSign (tiles app).
Proof.
  unfold assignTargets. cbv zeta.
  rewrite !fill_map; try reflexivity.
  - intros s tl. apply (rotate_to_kindSign tl 1).
  - intros s tl. apply (rotate_to_kindSign tl 0).
Qed.

(** X5: whatever the outcome of a solve, the readout computed from the
    arrangement it leaves shows the coefficients the solver worked with:
    assigning targets, rotating bars and sorting change no tile's kind or
    sign. *)
Theorem solveAndAnimate_readout (app : App) :
  checkSolution (tiles (solveAndAnimate app)) = solverCoefficients app /\
  List.length (tiles (solveAndAnimate app)) =
    (let '(a, b, c) := solverCoefficients app in
     Z.to_nat (Z.abs a + Z.abs b + Z.abs c)).
Proof.
  unfold solveAndAnimate.
  destruct (solverCoefficients app) as [[a b] c].
  destruct (getClosestFactors a) as [m n].
  pose proof (generatedTiles_length (config app) a b c) as Hlen.
  destruct (generatedTiles_signedCount (config app) a b c) as [Ha [Hb Hc]].
  destruct (solveSearch m n b c) as [[p q]|].
  - cbn [tiles setAnimating setTiles].
    assert (Hperm : Permutation
                      (sortByRank (assignTargets (generateTiles a b c app) m n p q))
                      (assignTargets (generateTiles a b c app) m n p q)).
    { rewrite sortByRank_ofKind. apply ofKind_perm. }
    split.
    + rewrite checkSolution_counts.
      rewrite !(signedCount_perm _ _ _ Hperm).
      rewrite !(signedCount_kindSign _ _ _
                  (assignTargets_kindSign (generateTiles a b c app) m n p q)).
      cbn [tiles generateTiles setTiles]. rewrite Ha, Hb, Hc. reflexivity.
    + rewrite (Permutation_length Hperm).
      rewrite <- (length_map kindSign), assignTargets_kindSign, length_map.
      exact Hlen.
  - cbn [tiles showFeedback generateTiles setTiles].
    split; [|exact Hlen].
    rewrite checkSolution_counts, Ha, Hb, Hc. reflexivity.
Qed.

(** *** Every tile of a solved equation gets a target *)

Lemma mutate_targeted (ts : list Tile.t) (f : Tile.t -> Tile.t) (r : nat) :
  (forall tl, hasTarget (f tl)) ->
  (forall i, targeted ts i -> targeted (mutate ts r f) i) /\
  ((r < List.length ts)%nat -> targeted (mutate ts r f) r).
Proof.
  intro Hf. split.
  - intros i [tl [Hi Ht]]. unfold targeted. rewrite mutate_nth.
    destruct (Nat.eqb i r).
    + rewrite Hi. exists (f tl). split; [reflexivity|apply Hf].
    + exists tl. split; assumption.
  - intro Hr. unfold targeted. rewrite mutate_nth, Nat.eqb_refl.
    destruct (nth_error ts r) as [tl|] eqn:E.
    + exists (f tl). split; [reflexivity|apply Hf].
    + apply nth_error_None in E. lia.
Qed.

Lemma fold_mutate_targeted (place' : Z * Z -> Tile.t -> Tile.t)
    (srs : list ((Z * Z) * nat)) :
  (forall s tl, hasTarget (place' s tl)) ->
  forall ts,
    (forall i, targeted ts i ->
       targeted (fold_left (fun acc sr => mutate acc (snd sr) (place' (fst sr)))
                           srs ts) i) /\
    (forall sr, In sr srs -> (snd sr < List.length ts)%nat ->
       targeted (fold_left (fun acc sr => mutate acc (snd sr) (place' (fst sr)))
                           srs ts) (snd sr)).
Proof.
  intro Hp. induction srs as [|sr0 srs IH]; intro ts; cbn [fold_left].
  - split; [intros i H; exact H|intros sr []].
  - destruct (IH (mutate ts (snd sr0) (place' (fst sr0)))) as [IH1 IH2].
    destruct (mutate_targeted ts (place' (fst sr0)) (snd sr0)
                (fun tl => Hp (fst sr0) tl)) as [M1 M2].
    split.
    + intros i Hi. apply IH1, M1, Hi.
    + intros sr [<-|Hin] Hlt.
      * apply IH1, M2, Hlt.
      * apply IH2; [exact Hin|]. rewrite mutate_length. exact Hlt.
Qed.

Lemma combine_nth_In {A B : Type} (l1 : list A) : forall (l2 : list B) k b,
  nth_error l2 k = Some b -> (k < List.length l1)%nat ->
  exists a, In (a, b) (combine l1 l2).
Proof.
  induction l1 as [|a l1 IH]; intros l2 k b Hk Hlt; cbn in Hlt; [lia|].
  destruct l2 as [|b0 l2]; [destruct k; discriminate|].
  destruct k as [|k].
  - injection Hk as ->. exists a. left. reflexivity.
  - destruct (IH l2 k b Hk ltac:(lia)) as [a' Hin].
    exists a'. right. exact Hin.
Qed.

Lemma fill_targeted (refs : list nat) (slots : list (Z * Z))
    (place' : Z * Z -> Tile.t -> Tile.t) (ts : list Tile.t) :
  (forall s tl, hasTarget (place' s tl)) ->
  (forall i, targeted ts i -> targeted (fill refs slots place' ts) i) /\
  (forall k r, nth_error refs k = Some r -> (k < List.length slots)%nat ->
               (r < List.length ts)%nat ->
               targeted (fill refs slots place' ts) r).
Proof.
  intro Hp. unfold fill.
  destruct (fold_mutate_targeted place' (combine slots refs) Hp ts) as [F1 F2].
  split; [exact F1|].
  intros k r Hk Hlt Hr.
  destruct (combine_nth_In slots refs k r Hk Hlt) as [s Hin].
  exact (F2 (s, r) Hin Hr).
Qed.

Lemma refsFrom_spec (ty : TileType) (ts : list Tile.t) : forall i0 r,
  In r (refsFrom ty ts i0) <->
  exists k tl, r = (i0 + k)%nat /\ nth_error ts k = Some tl /\ Tile.type tl = ty.
Proof.
  induction ts as [|t0 rest IH]; intros i0 r; cbn [refsFrom].
  - split; [intros []|]. intros [k [tl [_ [H _]]]]. destruct k; discriminate.
  - assert (Hrest : In r (refsFrom ty rest (S i0)) <->
                    exists k tl, r = (i0 + S k)%nat /\
                                 nth_error rest k = Some tl /\ Tile.type tl = ty).
    { rewrite IH. split; intros [k [tl [-> H]]]; exists k, tl; split; auto; lia. }
    destruct (TileType_eqb (Tile.type t0) ty) eqn:E.
    + cbn [In]. rewrite Hrest. split.
      * intros [<-|[k [tl [-> H]]]].
        -- exists O, t0. split; [lia|]. split; [reflexivity|].
           destruct (Tile.type t0), ty; first [reflexivity|discriminate].
        -- exists (S k), tl. split; [reflexivity|exact H].
      * intros [[|k] [tl [-> [Hk Hty]]]].
        -- left. lia.
        -- right. exists k, tl. split; [reflexivity|]. split; assumption.
    + rewrite Hrest. split.
      * intros [k [tl [-> H]]]. exists (S k), tl. split; [reflexivity|exact H].
      * intros [[|k] [tl [-> [Hk Hty]]]].
        -- cbn in Hk. injection Hk as ->. rewrite Hty in E.
           destruct ty; discriminate.
        -- exists k, tl. split; [reflexivity|]. split; assumption.
Qed.

Lemma refsFrom_length (ty : TileType) (ts : list Tile.t) : forall i0,
  List.length (refsFrom ty ts i0) = List.length (ofKind ty ts).
Proof.
  induction ts as [|t0 rest IH]; intro i0; cbn [refsFrom ofKind filter];
    [reflexivity|].
  fold (ofKind ty rest).
  destruct (TileType_eqb (Tile.type t0) ty); cbn [List.length]; rewrite IH;
    reflexivity.
Qed.

Lemma ofKind_uniform (ty ty' : TileType) (neg : bool) (ts : list Tile.t) :
  Forall (fun tl => kindSign tl = (ty', neg)) ts ->
  ofKind ty ts = if TileType_eqb ty' ty then ts else [].
Proof.
  induction 1 as [|tl rest Htl _ IH]; cbn [ofKind filter].
  - destruct (TileType_eqb ty' ty); reflexivity.
  - fold (ofKind ty rest). rewrite IH. injection Htl as -> _.
    destruct (TileType_eqb ty' ty); reflexivity.
Qed.

Lemma ofKind_app (ty : TileType) (l1 l2 : list Tile.t) :
  ofKind ty (l1 ++ l2) = ofKind ty l1 ++ ofKind ty l2.
Proof. apply filter_app. Qed.

Lemma generatedTiles_kinds (cfg : TileConfig) (a b c : Z) :
  List.length (refsOf T_x2 (generatedTiles cfg a b c)) = Z.to_nat (Z.abs a) /\
  List.length (refsOf T_x (generatedTiles cfg a b c)) = Z.to_nat (Z.abs b) /\
  List.length (refsOf T_one (generatedTiles cfg a b c)) = Z.to_nat (Z.abs c).
Proof.
  unfold refsOf. rewrite !refsFrom_length.
  destruct (generatedTiles_parts cfg a b c)
    as [sq [ba [un [-> [[Hls Hfs] [[Hlb Hfb] [Hlu Hfu]]]]]]].
  rewrite !ofKind_app.
  rewrite !(ofKind_uniform _ _ _ _ Hfs), !(ofKind_uniform _ _ _ _ Hfb),
    !(ofKind_uniform _ _ _ _ Hfu).
  cbn [TileType_eqb]. rewrite !app_nil_r. cbn [app].
  repeat split; assumption.
Qed.

Lemma upto_length (k : Z) : List.length (JS.upto k) = Z.to_nat k.
Proof. unfold JS.upto. rewrite length_map, length_seq. reflexivity. Qed.

Lemma nested_length (outer inner : Z) :
  List.length (nested outer inner) = (Z.to_nat outer * Z.to_nat inner)%nat.
Proof.
  unfold nested. rewrite <- (upto_length outer).
  induction (JS.upto outer) as [|o os IH]; cbn [flat_map List.length];
    [reflexivity|].
  rewrite length_app, length_map, upto_length, IH. reflexivity.
Qed.

Lemma Forall_nth_error {A : Type} (P : A -> Prop) (l : list A) :
  (forall i a, nth_error l i = Some a -> P a) -> Forall P l.
Proof.
  intro H. apply Forall_forall. intros a Ha.
  destruct (In_nth_error l a Ha) as [i Hi]. exact (H i a Hi).
Qed.

(** The four placement loops in sequence: when the slots suffice for the
    tiles of each kind, every tile ends with a target. *)
Lemma four_fills_targets (ts : list Tile.t)
    (s1 s2 s3 s4 : list (Z * Z))
    (p1 p2 p3 p4 : Z * Z -> Tile.t -> Tile.t) :
  (forall s tl, hasTarget (p1 s tl)) -> (forall s tl, hasTarget (p2 s tl)) ->
  (forall s tl, hasTarget (p3 s tl)) -> (forall s tl, hasTarget (p4 s tl)) ->
  (List.length (refsOf T_x2 ts) <= List.length s1)%nat ->
  (List.length (refsOf T_x ts) <= List.length s2 + List.length s3)%nat ->
  (List.length (refsOf T_one ts) <= List.length s4)%nat ->
  Forall hasTarget
    (fill (refsOf T_one ts) s4 p4
       (fill (skipn (List.length s2) (refsOf T_x ts)) s3 p3
          (fill (refsOf T_x ts) s2 p2
             (fill (refsOf T_x2 ts) s1 p1 ts)))).
Proof.
  intros H1 H2 H3 H4 L1 L2 L3.
  set (ts1 := fill (refsOf T_x2 ts) s1 p1 ts).
  set (ts2 := fill (refsOf T_x ts) s2 p2 ts1).
  set (ts3 := fill (skipn (List.length s2) (refsOf T_x ts)) s3 p3 ts2).
  set (ts4 := fill (refsOf T_one ts) s4 p4 ts3).
  assert (Len1 : List.length ts1 = List.length ts) by apply fill_length.
  assert (Len2 : List.length ts2 = List.length ts)
    by (unfold ts2; rewrite fill_length; exact Len1).
  assert (Len3 : List.length ts3 = List.length ts)
    by (unfold ts3; rewrite fill_length; exact Len2).
  assert (Len4 : List.length ts4 = List.length ts)
    by (unfold ts4; rewrite fill_length; exact Len3).
  destruct (fill_targeted (refsOf T_x2 ts) s1 p1 ts H1) as [_ F1].
  destruct (fill_targeted (refsOf T_x ts) s2 p2 ts1 H2) as [K2 F2].
  destruct (fill_targeted (skipn (List.length s2) (refsOf T_x ts)) s3 p3 ts2 H3)
    as [K3 F3].
  destruct (fill_targeted (refsOf T_one ts) s4 p4 ts3 H4) as [K4 F4].
  fold ts1 in F1. fold ts2 in K2, F2. fold ts3 in K3, F3. fold ts4 in K4, F4.
  assert (Hall : forall i, (i < List.length ts)%nat -> targeted ts4 i).
  { intros i Hi.
    destruct (nth_error ts i) as [tl|] eqn:E;
      [|apply nth_error_None in E; lia].
    assert (Href : In i (refsOf (Tile.type tl) ts)).
    { apply refsFrom_spec. exists i, tl. repeat split. exact E. }
    destruct (In_nth_error _ _ Href) as [k Hk].
    assert (Hklt : (k < List.length (refsOf (Tile.type tl) ts))%nat).
    { apply nth_error_Some. rewrite Hk. discriminate. }
    destruct (Tile.type tl).
    - apply K4, K3, K2, (F1 k i Hk); lia.
    - destruct (Nat.lt_ge_cases k (List.length s2)) as [Hlt|Hge].
      + apply K4, K3, (F2 k i Hk Hlt). lia.
      + apply K4, (F3 (k - List.length s2)%nat i); [|lia|lia].
        rewrite nth_error_skipn.
        replace (List.length s2 + (k - List.length s2))%nat with k by lia.
        exact Hk.
    - apply (F4 k i Hk); lia. }
  apply Forall_nth_error. intros i tl Hi.
  assert (Hlt : (i < List.length ts)%nat).
  { rewrite <- Len4. apply nth_error_Some. rewrite Hi. discriminate. }
  destruct (Hall i Hlt) as [tl' [Hi' Ht]].
  rewrite Hi in Hi'. injection Hi' as <-. exact Ht.
Qed.

Lemma setTarget_hasTarget (tl : Tile.t) (tx ty : Q) :
  hasTarget (Tile.setTarget tl tx ty).
Proof. split; discriminate. Qed.

Lemma assignTargets_all (app : App) (m n p q : Z) :
  (List.length (refsOf T_x2 (tiles app)) <= Z.to_nat n * Z.to_nat m)%nat ->
  (List.length (refsOf T_x (tiles app))
   <= Z.to_nat (Z.abs p) * Z.to_nat n + Z.to_nat (Z.abs q) * Z.to_nat m)%nat ->
  (List.length (refsOf T_one (tiles app))
   <= Z.to_nat (Z.abs q) * Z.to_nat (Z.abs p))%nat ->
  Forall hasTarget (assignTargets app m n p q).
Proof.
  intros L1 L2 L3. unfold assignTargets. cbv zeta.
  apply four_fills_targets; try (intros s tl; apply setTarget_hasTarget);
    rewrite ?nested_length; assumption.
Qed.

Lemma slots_suffice (a b c m n p q : Z) :
  m * n = Z.abs a -> 0 < m -> 0 <= n ->
  m * q + n * p = b -> p * q = c ->
  (Z.to_nat (Z.abs a) <= Z.to_nat n * Z.to_nat m)%nat /\
  (Z.to_nat (Z.abs b)
   <= Z.to_nat (Z.abs p) * Z.to_nat n + Z.to_nat (Z.abs q) * Z.to_nat m)%nat /\
  (Z.to_nat (Z.abs c) <= Z.to_nat (Z.abs q) * Z.to_nat (Z.abs p))%nat.
Proof.
  intros Hmn Hm Hn Hb Hc.
  rewrite <- !Z2Nat.inj_mul, <- Z2Nat.inj_add by lia.
  split; [|split]; apply Z2Nat.inj_le; lia.
Qed.

(** X6: when the search accepts a pair, the solve gives every generated
    tile a target (the layout has enough slots for all |a| squares, |b| bars
    and |c| units) and starts the animation without touching the feedback
    panel; from there the frames run active for at most [stepsBound] calls,
    settle once with every tile exactly on its target, and stay idle. *)
Theorem solveAndAnimate_targets_every_tile (app : App) (p q : Z) :
  solverSearch app = Some (p, q) ->
  isAnimating (solveAndAnimate app) = true /\
  feedback (solveAndAnimate app) = feedback app /\
  Forall hasTarget (tiles (solveAndAnimate app)) /\
  exists N, (N <= stepsBound (tiles (solveAndAnimate app)))%nat /\
    forall k, exists app_k,
      renderN k (solveAndAnimate app) = Some (app_k, schedule N k) /\
      ((N < k)%nat ->
       isAnimating app_k = false /\ Forall atTarget (tiles app_k)).
Proof.
  intro Hs.
  assert (Hshape : isAnimating (solveAndAnimate app) = true /\
                   feedback (solveAndAnimate app) = feedback app /\
                   Forall hasTarget (tiles (solveAndAnimate app))).
  { unfold solverSearch in Hs. unfold solveAndAnimate.
    destruct (solverCoefficients app) as [[a b] c].
    destruct (getClosestFactors_product a) as [Hmn [Hm Hn]].
    destruct (getClosestFactors a) as [m n]. cbn [fst snd] in Hmn, Hm, Hn.
    rewrite Hs.
    destruct (solveSearch_Some m n b c p q Hs) as [Hb Hc].
    destruct (slots_suffice a b c m n p q Hmn Hm Hn Hb Hc) as [S1 [S2 S3]].
    destruct (generatedTiles_kinds (config app) a b c) as [G1 [G2 G3]].
    cbn [isAnimating feedback tiles setAnimating setTiles generateTiles].
    split; [reflexivity|]. split; [reflexivity|].
    eapply Permutation_Forall.
    - apply Permutation_sym. rewrite sortByRank_ofKind. apply ofKind_perm.
    - apply assignTargets_all; cbn [tiles setTiles generateTiles];
        rewrite ?G1, ?G2, ?G3; assumption. }
  destruct Hshape as [Han [Hfb Hts]].
  split; [exact Han|]. split; [exact Hfb|]. split; [exact Hts|].
  exact (render_schedule (stepsBound (tiles (solveAndAnimate app)))
           (solveAndAnimate app) (le_n _) Han Hts).
Qed.

Lemma solveAndAnimate_targets_every_tile_witness :
  solverSearch (sampleApp "2" "7" "3" []) = Some (3, 1) /\
  isAnimating (solveAndAnimate (sampleApp "2" "7" "3" [])) = true /\
  Forall hasTarget (tiles (solveAndAnimate (sampleApp "2" "7" "3" []))).
Proof.
  split; [reflexivity|].
  destruct (solveAndAnimate_targets_every_tile (sampleApp "2" "7" "3" []) 3 1
              eq_refl) as [Han [_ [Hts _]]].
  split; [exact Han|exact Hts].
Defined.

(** ** How far a snap can move a tile *)

Lemma within_bounds (a b : Q) :
  within a b = true -> (- (15) < a - b /\ a - b < 15)%Q.
Proof.
  unfold within, snapDist. intro H. apply lt_true_iff in H.
  apply Qabs_Qlt_condition in H. exact H.
Qed.

Lemma nearBy_refl (tile : Tile.t) : nearBy tile tile.
Proof.
  unfold nearBy, snapDist. split; apply Qabs_Qlt_condition; split; lra.
Qed.

Lemma snapRight_near tile other :
  nearBy tile (fst (snapRight tile other (tile, false))).
Proof.
  unfold snapRight, place, nearBy. cbv zeta.
  repeat match goal with
         | |- context [within ?a ?b] =>
             let W := fresh "W" in destruct (within a b) eqn:W
         end;
    cbn [fst Tile.setPos Tile.x Tile.y];
    repeat match goal with
           | H : within _ _ = true |- _ => apply within_bounds in H
           end;
    unfold snapDist; split; apply Qabs_Qlt_condition; split; lra.
Qed.

Lemma snapLeft_near tile other :
  nearBy tile (fst (snapLeft tile other (tile, false))).
Proof.
  unfold snapLeft, place, nearBy. cbv zeta. cbn [snd negb andb].
  repeat match goal with
         | |- context [within ?a ?b] =>
             let W := fresh "W" in destruct (within a b) eqn:W
         end;
    cbn [fst Tile.setPos Tile.x Tile.y];
    repeat match goal with
           | H : within _ _ = true |- _ => apply within_bounds in H
           end;
    unfold snapDist; split; apply Qabs_Qlt_condition; split; lra.
Qed.

Lemma snapBottom_near tile other :
  nearBy tile (fst (snapBottom tile other (tile, false))).
Proof.
  unfold snapBottom, place, nearBy. cbv zeta. cbn [snd negb andb].
  repeat match goal with
         | |- context [within ?a ?b] =>
             let W := fresh "W" in destruct (within a b) eqn:W
         end;
    cbn [fst Tile.setPos Tile.x Tile.y];
    repeat match goal with
           | H : within _ _ = true |- _ => apply within_bounds in H
           end;
    unfold snapDist; split; apply Qabs_Qlt_condition; split; lra.
Qed.

Lemma snapTop_near tile other :
  nearBy tile (fst (snapTop tile other (tile, false))).
Proof.
  unfold snapTop, place, nearBy. cbv zeta. cbn [snd negb andb].
  repeat match goal with
         | |- context [within ?a ?b] =>
             let W := fresh "W" in destruct (within a b) eqn:W
         end;
    cbn [fst Tile.setPos Tile.x Tile.y];
    repeat match goal with
           | H : within _ _ = true |- _ => apply within_bounds in H
           end;
    unfold snapDist; split; apply Qabs_Qlt_condition; split; lra.
Qed.

Lemma snapLeftLeft_near tile other :
  nearBy tile (fst (snapLeftLeft tile other (tile, false))).
Proof.
  unfold snapLeftLeft, place, nearBy. cbv zeta.
  repeat match goal with
         | |- context [within ?a ?b] =>
             let W := fresh "W" in destruct (within a b) eqn:W
         end;
    cbn [fst Tile.setPos Tile.x Tile.y];
    repeat match goal with
           | H : within _ _ = true |- _ => apply within_bounds in H
           end;
    unfold snapDist; split; apply Qabs_Qlt_condition; split; lra.
Qed.

Lemma snapTopTop_near tile other :
  nearBy tile (fst (snapTopTop tile other (tile, false))).
Proof.
  unfold snapTopTop, place, nearBy. cbv zeta. cbn [snd negb andb].
  repeat match goal with
         | |- context [within ?a ?b] =>
             let W := fresh "W" in destruct (within a b) eqn:W
         end;
    cbn [fst Tile.setPos Tile.x Tile.y];
    repeat match goal with
           | H : within _ _ = true |- _ => apply within_bounds in H
           end;
    unfold snapDist; split; apply Qabs_Qlt_condition; split; lra.
Qed.

Lemma snapLeftLeft_state tile other :
  bodyState tile (snapLeftLeft tile other (tile, false)).
Proof.
  unfold snapLeftLeft. cbv zeta. case_within;
    first [apply place_bodyState | left; reflexivity].
Qed.

Lemma snapInner_near tile other :
  nearBy tile (fst (snapInner tile other (tile, false))).
Proof.
  unfold snapInner. cbn [snd negb].
  pose proof (snapLeftLeft_near tile other) as N.
  destruct (snapLeftLeft_state tile other) as [E | [x' [y' E]]]; rewrite E in *.
  - apply snapTopTop_near.
  - exact N.
Qed.

Lemma snapStep_near (tile other : Tile.t) : nearBy tile (fst (snapStep tile other)).
Proof.
  unfold snapStep. cbv zeta.
  pose proof (snapRight_near tile other) as N1.
  destruct (snapRight_state tile other) as [E | [x' [y' E]]]; rewrite E in *;
    [|exact N1].
  pose proof (snapLeft_near tile other) as N2.
  destruct (snapLeft_state tile other) as [E2 | [x' [y' E2]]]; rewrite E2 in *;
    [|exact N2].
  pose proof (snapBottom_near tile other) as N3.
  destruct (snapBottom_state tile other) as [E3 | [x' [y' E3]]]; rewrite E3 in *;
    [|exact N3].
  pose proof (snapTop_near tile other) as N4.
  destruct (snapTop_state tile other) as [E4 | [x' [y' E4]]]; rewrite E4 in *;
    [|exact N4].
  apply snapInner_near.
Qed.

Lemma snapLoop_near (moving : nat) (tile : Tile.t) (others : list Tile.t) :
  forall j, nearBy tile (snapLoop moving tile others j).
Proof.
  induction others as [|o rest IH]; intro j; cbn [snapLoop].
  - apply nearBy_refl.
  - destruct (Nat.eqb j moving); [apply IH|].
    pose proof (snapStep_near tile o) as N.
    destruct (snapStep_state tile o) as [E | [x' [y' E]]]; rewrite E in *.
    + apply IH.
    + exact N.
Qed.

(** X7: a snap never carries the dropped tile 15 px or more away on either
    axis, whichever neighbour and alignment it picks; its size, kind and
    every other tile stay as they were. *)
Theorem snapToNeighbors_displacement (app : App) (moving : nat) (tile : Tile.t) :
  nth_error (tiles app) moving = Some tile ->
  exists tile',
    nth_error (tiles (snapToNeighbors moving app)) moving = Some tile' /\
    (Qabs (Tile.x tile' - Tile.x tile) < 15)%Q /\
    (Qabs (Tile.y tile' - Tile.y tile) < 15)%Q /\
    tile' = Tile.setPos tile (Tile.x tile') (Tile.y tile') /\
    List.length (tiles (snapToNeighbors moving app)) = List.length (tiles app) /\
    forall k, k <> moving ->
      nth_error (tiles (snapToNeighbors moving app)) k = nth_error (tiles app) k.
Proof.
  intro Hnth. exists (snapLoop moving tile (tiles app) 0).
  assert (Htiles : tiles (snapToNeighbors moving app) =
                   mutate (tiles app) moving
                          (fun _ => snapLoop moving tile (tiles app) 0)).
  { unfold snapToNeighbors. rewrite Hnth. reflexivity. }
  destruct (snapLoop_near moving tile (tiles app) 0) as [Nx Ny].
  split; [|split; [exact Nx|split; [exact Ny|split; [|split]]]].
  - rewrite Htiles, mutate_nth, Nat.eqb_refl, Hnth. reflexivity.
  - destruct (snapLoop_state moving tile (tiles app) O) as [H | [x' [y' H]]];
      rewrite H.
    + symmetry. apply setPos_same.
    + reflexivity.
  - rewrite Htiles. apply mutate_length.
  - intros k Hk. rewrite Htiles, mutate_nth.
    destruct (Nat.eqb_spec k moving); [contradiction|reflexivity].
Qed.

Lemma snapToNeighbors_displacement_witness :
  nth_error (tiles appDiagonal) 1 = Some unitDiagonal /\
  exists tile',
    nth_error (tiles (snapToNeighbors 1 appDiagonal)) 1 = Some tile' /\
    (Qabs (Tile.x tile' - Tile.x unitDiagonal) < 15)%Q /\
    (Qabs (Tile.y tile' - Tile.y unitDiagonal) < 15)%Q.
Proof.
  split; [reflexivity|].
  destruct (snapToNeighbors_displacement appDiagonal 1 unitDiagonal eq_refl)
    as [tile' [H1 [H2 [H3 _]]]].
  exists tile'. split; [exact H1|]. split; [exact H2|exact H3].
Defined.

(** ** What the validator does not look at *)

Lemma single_tile_fills_box (tl : Tile.t) :
  (Qabs (bboxArea (scanTiles [tl]) - areaSum [tl]) < AREA_TOLERANCE)%Q.
Proof.
  change (Qabs ((Tile.x tl + Tile.w tl - Tile.x tl)
                * (Tile.y tl + Tile.h tl - Tile.y tl)
                - (0 + Tile.w tl * Tile.h tl)) < 200)%Q.
  assert (E : ((Tile.x tl + Tile.w tl - Tile.x tl)
               * (Tile.y tl + Tile.h tl - Tile.y tl)
               - (0 + Tile.w tl * Tile.h tl) == 0)%Q) by ring.
  rewrite E. reflexivity.
Qed.

(** X8: for an arrangement without negative tiles the verdict depends on
    the geometry alone: the coefficients entered and the scale
    configuration play no part, and a single positive tile is always a
    "perfect rectangle". *)
Theorem validate_positive_ignores_equation (cfg cfg' : TileConfig)
    (ts : list Tile.t) (a b c a' b' c' : Z) :
  existsb Tile.isNegative ts = false ->
  validate cfg ts a b c = validate cfg' ts a' b' c' /\
  (forall tl, ts = [tl] -> validate cfg ts a b c = PerfectRectangle).
Proof.
  intro Hneg. split.
  - destruct ts as [|t0 rest]; [reflexivity|].
    rewrite !validate_no_negative by (assumption || discriminate). reflexivity.
  - intros tl ->.
    rewrite validate_no_negative by (assumption || discriminate).
    pose proof (single_tile_fills_box tl) as H. apply lt_true_iff in H.
    rewrite H. reflexivity.
Qed.

Lemma validate_positive_ignores_equation_witness :
  existsb Tile.isNegative threeSquares = false /\
  validate TILE_CONFIG threeSquares 3 0 0 = validate TILE_CONFIG threeSquares 1 5 6 /\
  validate TILE_CONFIG threeSquares 1 5 6 = PerfectRectangle.
Proof.
  split; [reflexivity|].
  split; [|vm_compute; reflexivity].
  exact (proj1 (validate_positive_ignores_equation TILE_CONFIG TILE_CONFIG
                  threeSquares 3 0 0 1 5 6 eq_refl)).
Defined.

(** ** What a grid dimension means *)

Lemma firstMin_least (err : Z * Z -> Q) (l : list (Z * Z)) (ab : Z * Z) :
  firstMin err l ab -> In ab l /\ forall x, In x l -> (err ab <= err x)%Q.
Proof.
  intros [l1 [l2 [-> [H1 H2]]]]. split.
  - apply in_or_app. right. left. reflexivity.
  - intros x Hx. apply in_app_or in Hx. destruct Hx as [Hx|[<-|Hx]].
    + apply Qlt_le_weak, H1, Hx.
    + apply Qle_refl.
    + apply H2, Hx.
Qed.

Lemma getGridDimensions_best (X_SIZE U_SIZE pixels : Q) :
  exists ab,
    (In ab gridCandidates /\
     forall x, In x gridCandidates ->
       (gridErr X_SIZE U_SIZE pixels ab <= gridErr X_SIZE U_SIZE pixels x)%Q) /\
    getGridDimensions X_SIZE U_SIZE pixels =
    if JS.lt (gridErr X_SIZE U_SIZE pixels ab) GRID_THRESHOLD then ab else (0, 0).
Proof.
  destruct (gridFold_nonempty X_SIZE U_SIZE pixels (1, 0) (tl gridCandidates))
    as [ab [Hmin Hfold]].
  change ((1, 0) :: tl gridCandidates) with gridCandidates in Hmin, Hfold.
  exists ab. split; [exact (firstMin_least _ _ _ Hmin)|].
  unfold getGridDimensions. rewrite Hfold. cbn [bestOf bestErr bestA bestB].
  destruct ab as [a b]. reflexivity.
Qed.

(** X9: a result other than (0, 0) is a pair with countSquare in 1..5 and
    countUnit in 0..10 whose estimate is less than 30 px from the measured
    length; and a length that is exactly a*X + b*U for some pair of these
    ranges is always resolved, to a pair with exactly that estimate. *)
Theorem getGridDimensions_sound (X_SIZE U_SIZE pixels : Q) :
  (forall a b, getGridDimensions X_SIZE U_SIZE pixels = (a, b) ->
     (a, b) <> (0, 0) ->
     1 <= a <= 5 /\ 0 <= b <= 10 /\
     (Qabs (inject_Z a * X_SIZE + inject_Z b * U_SIZE - pixels) < 30)%Q) /\
  (forall a b, 1 <= a <= 5 -> 0 <= b <= 10 ->
     (pixels == inject_Z a * X_SIZE + inject_Z b * U_SIZE)%Q ->
     1 <= fst (getGridDimensions X_SIZE U_SIZE pixels) <= 5 /\
     0 <= snd (getGridDimensions X_SIZE U_SIZE pixels) <= 10 /\
     (estimate X_SIZE U_SIZE (getGridDimensions X_SIZE U_SIZE pixels)
      == pixels)%Q).
Proof.
  destruct (getGridDimensions_best X_SIZE U_SIZE pixels)
    as [[a0 b0] [[Hin Hleast] Hres]].
  apply gridCandidates_In in Hin.
  split.
  - intros a b Hab Hnz. rewrite Hres in Hab.
    destruct (JS.lt (gridErr X_SIZE U_SIZE pixels (a0, b0)) GRID_THRESHOLD) eqn:E.
    + injection Hab as <- <-. apply lt_true_iff in E.
      split; [lia|]. split; [lia|exact E].
    + congruence.
  - intros a b Ha Hb Hpx.
    assert (Hzero : (gridErr X_SIZE U_SIZE pixels (a, b) == 0)%Q).
    { unfold gridErr, estimate. cbn [fst snd]. rewrite Hpx.
      assert (E : (inject_Z a * X_SIZE + inject_Z b * U_SIZE
                   - (inject_Z a * X_SIZE + inject_Z b * U_SIZE) == 0)%Q) by ring.
      rewrite E. reflexivity. }
    pose proof (Hleast (a, b) (proj2 (gridCandidates_In a b) (conj Ha Hb))) as Hle.
    rewrite Hzero in Hle.
    assert (Hlt : JS.lt (gridErr X_SIZE U_SIZE pixels (a0, b0)) GRID_THRESHOLD = true).
    { apply lt_true_iff. unfold GRID_THRESHOLD. lra. }
    rewrite Hres, Hlt. cbn [fst snd]. split; [lia|]. split; [lia|].
    unfold gridErr in Hle.
    pose proof (Qabs_nonneg (estimate X_SIZE U_SIZE (a0, b0) - pixels)) as Hnn.
    assert (Habs : (Qabs (estimate X_SIZE U_SIZE (a0, b0) - pixels) == 0)%Q) by lra.
    destruct (Qabs_Qle_condition (estimate X_SIZE U_SIZE (a0, b0) - pixels) 0)
      as [Hcond _].
    specialize (Hcond ltac:(lra)). lra.
Qed.

Lemma getGridDimensions_sound_witness :
  getGridDimensions 200 25 400 = (1, 8) /\ (1, 8) <> (0, 0) /\
  (Qabs (inject_Z 1 * 200 + inject_Z 8 * 25 - 400) < 30)%Q /\
  (400 == inject_Z 2 * 200 + inject_Z 0 * 25)%Q /\
  (estimate 200 25 (getGridDimensions 200 25 400) == 400)%Q.
Proof.
  assert (H1 : getGridDimensions 200 25 400 = (1, 8)) by reflexivity.
  assert (H2 : (1, 8) <> (0, 0)) by discriminate.
  assert (H3 : (400 == inject_Z 2 * 200 + inject_Z 0 * 25)%Q) by reflexivity.
  destruct (getGridDimensions_sound 200 25 400) as [S1 S2].
  split; [exact H1|]. split; [exact H2|].
  split; [exact (proj2 (proj2 (S1 1 8 H1 H2)))|].
  split; [exact H3|].
  exact (proj2 (proj2 (S2 2 0 ltac:(lia) ltac:(lia) H3))).
Defined.

(** ** Grabbing and dragging *)

Lemma hitBelow_Some (ts : list Tile.t) (x y : Q) : forall i0 i,
  hitBelow ts i0 x y = Some i <->
  (i < i0)%nat /\
  (exists tl, nth_error ts i = Some tl /\ Tile.contains tl x y = true) /\
  (forall j tl', (i < j < i0)%nat -> nth_error ts j = Some tl' ->
                 Tile.contains tl' x y = false).
Proof.
  induction i0 as [|i0 IH]; intro i; cbn [hitBelow].
  - split; [discriminate|]. intros [H _]. lia.
  - destruct (nth_error ts i0) as [t0|] eqn:E0.
    + destruct (Tile.contains t0 x y) eqn:C0.
      * split.
        -- intros [= <-]. split; [lia|]. split; [exists t0; split; assumption|].
           intros j tl' Hj. lia.
        -- intros [Hi [[tl [Hn Hc]] Hmax]].
           destruct (Nat.eq_dec i i0) as [->|Hne]; [reflexivity|].
           rewrite (Hmax i0 t0) in C0 by (assumption || lia). discriminate.
      * rewrite IH. split.
        -- intros [Hi [Hex Hmax]]. split; [lia|]. split; [exact Hex|].
           intros j tl' Hj Hn.
           destruct (Nat.eq_dec j i0) as [->|Hne]; [congruence|].
           apply (Hmax j tl'); [lia|exact Hn].
        -- intros [Hi [[tl [Hn Hc]] Hmax]].
           assert (i <> i0) by (intros ->; congruence).
           split; [lia|]. split; [exists tl; split; assumption|].
           intros j tl' Hj. apply Hmax. lia.
    + rewrite IH. split.
      * intros [Hi [Hex Hmax]]. split; [lia|]. split; [exact Hex|].
        intros j tl' Hj Hn.
        destruct (Nat.eq_dec j i0) as [->|Hne]; [congruence|].
        apply (Hmax j tl'); [lia|exact Hn].
      * intros [Hi [[tl [Hn Hc]] Hmax]].
        assert (i <> i0) by (intros ->; congruence).
        split; [lia|]. split; [exists tl; split; assumption|].
        intros j tl' Hj. apply Hmax. lia.
Qed.

Lemma hitBelow_None (ts : list Tile.t) (x y : Q) : forall i0,
  hitBelow ts i0 x y = None <->
  forall j tl, (j < i0)%nat -> nth_error ts j = Some tl ->
               Tile.contains tl x y = false.
Proof.
  induction i0 as [|i0 IH]; cbn [hitBelow].
  - split; [intros _ j tl Hj; lia|reflexivity].
  - destruct (nth_error ts i0) as [t0|] eqn:E0.
    + destruct (Tile.contains t0 x y) eqn:C0.
      * split; [discriminate|]. intro H.
        rewrite (H i0 t0) in C0 by (assumption || lia). discriminate.
      * rewrite IH. split.
        -- intros H j tl Hj Hn.
           destruct (Nat.eq_dec j i0) as [->|Hne]; [congruence|].
           apply (H j tl); [lia|exact Hn].
        -- intros H j tl Hj. apply H. lia.
    + rewrite IH. split.
      * intros H j tl Hj Hn.
        destruct (Nat.eq_dec j i0) as [->|Hne]; [congruence|].
        apply (H j tl); [lia|exact Hn].
      * intros H j tl Hj. apply H. lia.
Qed.

Lemma topmostAt_hit (ts : list Tile.t) (x y : Q) (i : nat) (tl : Tile.t) :
  nth_error ts i = Some tl -> Tile.contains tl x y = true ->
  (forall j tl', (i < j)%nat -> nth_error ts j = Some tl' ->
                 Tile.contains tl' x y = false) ->
  topmostAt ts x y = Some i.
Proof.
  intros Hn Hc Hmax. unfold topmostAt. apply hitBelow_Some.
  split; [apply nth_error_Some; congruence|].
  split; [exists tl; split; assumption|].
  intros j tl' Hj. apply Hmax. lia.
Qed.

Lemma removeAt_length (i : nat) (ts : list Tile.t) :
  (i < List.length ts)%nat -> S (List.length (removeAt i ts)) = List.length ts.
Proof.
  intro H. unfold removeAt. rewrite length_app, length_firstn, length_skipn. lia.
Qed.

Lemma mutate_last (l : list Tile.t) (a : Tile.t) (f : Tile.t -> Tile.t) :
  mutate (l ++ [a]) (List.length l) f = l ++ [f a].
Proof.
  induction l as [|b l IH]; cbn; [reflexivity|]. rewrite IH. reflexivity.
Qed.

(** X10: a press grabs the topmost tile under the pointer, that is the last
    one in arrangement order that contains the point: it is moved to the
    end of the arrangement and flagged as dragged, the other tiles keep
    their order, and the offset of the pointer inside the tile is recorded;
    a press on empty canvas changes nothing. *)
Theorem handleMouseDown_grabs_topmost (ui : Ui) (e : MouseEvent) :
  let ts := tiles (theApp ui) in
  let x := fst (getMousePos ui e) in
  let y := snd (getMousePos ui e) in
  ((forall j tl, nth_error ts j = Some tl -> Tile.contains tl x y = false) ->
   handleMouseDown e ui = ui) /\
  (forall i tl,
     nth_error ts i = Some tl -> Tile.contains tl x y = true ->
     (forall j tl', (i < j)%nat -> nth_error ts j = Some tl' ->
                    Tile.contains tl' x y = false) ->
     tiles (theApp (handleMouseDown e ui)) = removeAt i ts ++ [setDragging tl true] /\
     List.length (tiles (theApp (handleMouseDown e ui))) = List.length ts /\
     dragTarget (handleMouseDown e ui) = Some (Held (List.length ts - 1)) /\
     dragOffset (handleMouseDown e ui) = ((x - Tile.x tl)%Q, (y - Tile.y tl)%Q)).
Proof.
  intros ts x y. unfold handleMouseDown.
  assert (Hpos : getMousePos ui e = (x, y)) by apply surjective_pairing.
  rewrite Hpos. fold ts. split.
  - intro Hnone.
    assert (E : topmostAt ts x y = None).
    { apply hitBelow_None. intros j tl _. apply Hnone. }
    rewrite E. reflexivity.
  - intros i tl Hn Hc Hmax.
    rewrite (topmostAt_hit ts x y i tl Hn Hc Hmax), Hn.
    assert (Hi : (i < List.length ts)%nat) by (apply nth_error_Some; congruence).
    pose proof (removeAt_length i ts Hi) as Hlen.
    cbn [tiles theApp withDrag withApp setTiles dragTarget dragOffset].
    rewrite length_app. cbn [List.length].
    repeat split; try reflexivity; try lia.
    f_equal. f_equal. lia.
Qed.

Lemma handleMouseDown_grabs_topmost_witness :
  nth_error [unitAtOrigin; unitDiagonal] 1 = Some unitDiagonal /\
  Tile.contains unitDiagonal 20 20 = true /\
  tiles (theApp (handleMouseDown (mkEvent 20 20)
                   (mkUi appDiagonal None (0, 0)%Q (mkRect 0 0 1000 800)
                         (mkRect (-100) 0 0 800) false (0, 0, 0))))
  = [unitAtOrigin; setDragging unitDiagonal true].
Proof.
  split; [reflexivity|]. split; [reflexivity|].
  refine (proj1 (proj2 (handleMouseDown_grabs_topmost
            (mkUi appDiagonal None (0, 0)%Q (mkRect 0 0 1000 800)
                  (mkRect (-100) 0 0 800) false (0, 0, 0))
            (mkEvent 20 20)) 1%nat unitDiagonal eq_refl eq_refl _)).
  intros j tl' Hj Hn. destruct j as [|[|j]]; try lia.
  destruct j; discriminate.
Defined.

Lemma handleMouseDown_hit (ui : Ui) (e : MouseEvent) (i : nat) (tl : Tile.t) :
  let ts := tiles (theApp ui) in
  let x := fst (getMousePos ui e) in
  let y := snd (getMousePos ui e) in
  nth_error ts i = Some tl -> Tile.contains tl x y = true ->
  (forall j tl', (i < j)%nat -> nth_error ts j = Some tl' ->
                 Tile.contains tl' x y = false) ->
  handleMouseDown e ui =
  withDrag (withApp ui (setTiles (theApp ui) (removeAt i ts ++ [setDragging tl true])))
           (Some (Held (List.length (removeAt i ts))))
           ((x - Tile.x tl)%Q, (y - Tile.y tl)%Q).
Proof.
  intros ts x y Hn Hc Hmax. unfold handleMouseDown.
  assert (Hpos : getMousePos ui e = (x, y)) by apply surjective_pairing.
  rewrite Hpos. fold ts.
  rewrite (topmostAt_hit ts x y i tl Hn Hc Hmax), Hn.
  rewrite length_app. cbn [List.length].
  replace (List.length (removeAt i ts) + 1 - 1)%nat
    with (List.length (removeAt i ts)) by lia.
  reflexivity.
Qed.

(** X11: after a press on a tile, a move of the pointer by (dx, dy) puts the
    held tile at its old position plus (dx, dy): the tile does not jump
    under the pointer, and no other tile moves. *)
Theorem drag_follows_pointer (ui : Ui) (e e' : MouseEvent) (i : nat) (tl : Tile.t) :
  let ts := tiles (theApp ui) in
  let x := fst (getMousePos ui e) in
  let y := snd (getMousePos ui e) in
  nth_error ts i = Some tl -> Tile.contains tl x y = true ->
  (forall j tl', (i < j)%nat -> nth_error ts j = Some tl' ->
                 Tile.contains tl' x y = false) ->
  exists tl2,
    tiles (theApp (handleMouseMove e' (handleMouseDown e ui)))
    = removeAt i ts ++ [tl2] /\
    tl2 = Tile.setPos (setDragging tl true) (Tile.x tl2) (Tile.y tl2) /\
    (Tile.x tl2 == Tile.x tl + (clientX e' - clientX e))%Q /\
    (Tile.y tl2 == Tile.y tl + (clientY e' - clientY e))%Q.
Proof.
  intros ts x y Hn Hc Hmax.
  rewrite (handleMouseDown_hit ui e i tl Hn Hc Hmax). fold ts x y.
  unfold handleMouseMove.
  cbn [dragTarget withDrag withApp theApp dragOffset tiles setTiles fst snd
       getMousePos canvasRect].
  rewrite mutate_last.
  eexists. split; [reflexivity|]. split; [reflexivity|].
  cbn [Tile.setPos Tile.x Tile.y setDragging]. unfold x, y, getMousePos.
  cbn [fst snd]. split; ring.
Qed.

Lemma drag_follows_pointer_witness :
  exists tl2,
    tiles (theApp (handleMouseMove (mkEvent 50 60)
                     (handleMouseDown (mkEvent 20 20)
                        (mkUi appDiagonal None (0, 0)%Q (mkRect 0 0 1000 800)
                              (mkRect (-100) 0 0 800) false (0, 0, 0)))))
    = [unitAtOrigin; tl2] /\
    (Tile.x tl2 == 12 + 30)%Q /\ (Tile.y tl2 == 12 + 40)%Q.
Proof.
  assert (Hmax : forall j tl', (1 < j)%nat ->
            nth_error [unitAtOrigin; unitDiagonal] j = Some tl' ->
            Tile.contains tl' 20 20 = false).
  { intros j tl' Hj Hn. destruct j as [|[|j]]; try lia. destruct j; discriminate. }
  destruct (drag_follows_pointer
              (mkUi appDiagonal None (0, 0)%Q (mkRect 0 0 1000 800)
                    (mkRect (-100) 0 0 800) false (0, 0, 0))
              (mkEvent 20 20) (mkEvent 50 60) 1%nat unitDiagonal
              eq_refl eq_refl Hmax) as [tl2 [H1 [_ [H2 H3]]]].
  exists tl2. split; [exact H1|]. split; [exact H2|exact H3].
Defined.

(** ** Sizes stay consistent with the configuration *)

Lemma updateDimensions_sized (cfg : TileConfig) (tl : Tile.t) :
  Tile.uSize tl = SIZES_u (SIZES cfg) -> Tile.xSize tl = SIZES_x (SIZES cfg) ->
  (Tile.rotation tl = 0 \/ Tile.rotation tl = 1) ->
  sized cfg (Tile.updateDimensions tl).
Proof.
  destruct tl as [ty x y neg rot drag u xs w h tx ty'].
  unfold sized, Tile.updateDimensions. cbn. intros Hu Hx Hr.
  destruct ty; cbn; repeat split; assumption.
Qed.

Lemma sized_fields (cfg : TileConfig) (tl tl' : Tile.t) :
  Tile.type tl' = Tile.type tl -> Tile.rotation tl' = Tile.rotation tl ->
  Tile.uSize tl' = Tile.uSize tl -> Tile.xSize tl' = Tile.xSize tl ->
  Tile.w tl' = Tile.w tl -> Tile.h tl' = Tile.h tl ->
  sized cfg tl -> sized cfg tl'.
Proof.
  destruct tl as [ty x y neg rot drag u xs w h tx ty'].
  destruct tl' as [ty2 x2 y2 neg2 rot2 drag2 u2 xs2 w2 h2 tx2 ty2'].
  unfold sized, Tile.updateDimensions. cbn.
  intros -> -> -> -> -> -> [Hu [Hx [Hr Hd]]].
  repeat split; try assumption.
  unfold Tile.setDims in *. destruct ty; cbn in *; congruence.
Qed.

Lemma setPos_sized cfg tl x' y' : sized cfg tl -> sized cfg (Tile.setPos tl x' y').
Proof. apply sized_fields; reflexivity. Qed.

Lemma setDragging_sized cfg tl b : sized cfg tl -> sized cfg (setDragging tl b).
Proof. apply sized_fields; reflexivity. Qed.

Lemma setTarget_sized cfg tl tx ty : sized cfg tl -> sized cfg (Tile.setTarget tl tx ty).
Proof. apply sized_fields; reflexivity. Qed.

Lemma new_sized cfg ty x0 y0 neg : sized cfg (Tile.new cfg ty x0 y0 neg).
Proof.
  unfold Tile.new. apply updateDimensions_sized; cbn; auto.
Qed.

Lemma rotateTo_sized cfg tl (r : Z) :
  r = 0 \/ r = 1 -> sized cfg tl ->
  sized cfg (Tile.updateDimensions (Tile.setRotation tl r)).
Proof.
  intros Hr [Hu [Hx _]]. apply updateDimensions_sized; cbn; assumption.
Qed.



Lemma mutate_Forall (P : Tile.t -> Prop) (f : Tile.t -> Tile.t) (ts : list Tile.t) :
  forall r, Forall P ts ->
    (forall tl, nth_error ts r = Some tl -> P tl -> P (f tl)) ->
    Forall P (mutate ts r f).
Proof.
  induction ts as [|t0 rest IH]; intros r H Hf; cbn [mutate]; [constructor|].
  inversion H as [|? ? H0 Hrest]; subst.
  destruct r as [|r].
  - constructor; [apply Hf; [reflexivity|exact H0]|exact Hrest].
  - constructor; [exact H0|]. apply IH; [exact Hrest|].
    intros tl Hn. apply Hf. exact Hn.
Qed.

Lemma fill_Forall (P : Tile.t -> Prop) (refs : list nat) (slots : list (Z * Z))
    (place' : Z * Z -> Tile.t -> Tile.t) (ts : list Tile.t) :
  (forall s tl, P tl -> P (place' s tl)) ->
  Forall P ts -> Forall P (fill refs slots place' ts).
Proof.
  intros Hp. unfold fill. generalize (combine slots refs) as srs. intro srs.
  revert ts. induction srs as [|sr srs IH]; intros ts H; cbn [fold_left].
  - exact H.
  - apply IH. apply mutate_Forall; [exact H|]. intros tl _. apply Hp.
Qed.

Lemma assignTargets_Forall (P : Tile.t -> Prop) (a : App) (m n p q : Z) :
  (forall tl tx ty, P tl -> P (Tile.setTarget tl tx ty)) ->
  (forall tl r, r = 0 \/ r = 1 ->
                P tl -> P (Tile.updateDimensions (Tile.setRotation tl r))) ->
  Forall P (tiles a) -> Forall P (assignTargets a m n p q).
Proof.
  intros Ht Hr H. unfold assignTargets. cbv zeta.
  repeat apply fill_Forall; try exact H; intros s tl Htl;
    repeat first [apply Ht | apply Hr; [auto|]]; exact Htl.
Qed.

Lemma generatedTiles_Forall (P : Tile.t -> Prop) cfg a b c :
  (forall ty x0 y0 neg, P (Tile.new cfg ty x0 y0 neg)) ->
  Forall P (generatedTiles cfg a b c).
Proof.
  intro Hnew. unfold generatedTiles.
  assert (Hsq : forall neg k sx sy, Forall P (genSquares cfg neg k sx sy)).
  { intros neg k. induction k as [|k IH]; intros sx sy; cbn [genSquares];
      constructor; [apply Hnew|apply IH]. }
  assert (Hun : forall neg k sx sy, Forall P (genUnits cfg neg k sx sy)).
  { intros neg k. induction k as [|k IH]; intros sx sy; cbn [genUnits];
      constructor; [apply Hnew|apply IH]. }
  assert (Hba : forall neg k i sx sy, Forall P (fst (genBars cfg neg k i sx sy))).
  { intros neg k. induction k as [|k IH]; intros i sx sy; cbn [genBars];
      [constructor|].
    destruct (Z.rem i 10 =? 9).
    - specialize (IH (i + 1) 50%Q (sy + 110)%Q).
      destruct (genBars cfg neg k (i + 1) 50%Q (sy + 110)%Q) as [rest endY].
      constructor; [apply Hnew|exact IH].
    - specialize (IH (i + 1) (sx + 50)%Q sy).
      destruct (genBars cfg neg k (i + 1) (sx + 50)%Q sy) as [rest endY].
      constructor; [apply Hnew|exact IH]. }
  specialize (Hba (b <? 0) (Z.to_nat (Z.abs b)) 0 50%Q (50 + 120)%Q).
  destruct (genBars cfg (b <? 0) (Z.to_nat (Z.abs b)) 0 50%Q (50 + 120)%Q)
    as [bars endY].
  apply Forall_app. split; [apply Hsq|].
  apply Forall_app. split; [exact Hba|apply Hun].
Qed.

Lemma solveAndAnimate_sized (a : App) :
  config (solveAndAnimate a) = config a /\
  Forall (sized (config a)) (tiles (solveAndAnimate a)).
Proof.
  unfold solveAndAnimate.
  destruct (solverCoefficients a) as [[ca cb] cc].
  destruct (getClosestFactors ca) as [m n].
  assert (Hgen : Forall (sized (config a)) (generatedTiles (config a) ca cb cc)).
  { apply generatedTiles_Forall. intros. apply new_sized. }
  destruct (solveSearch m n cb cc) as [[p q]|].
  - cbn [config tiles setAnimating setTiles generateTiles].
    split; [reflexivity|].
    eapply Permutation_Forall.
    + apply Permutation_sym. rewrite sortByRank_ofKind. apply ofKind_perm.
    + apply assignTargets_Forall.
      * intros tl tx ty. apply setTarget_sized.
      * intros tl r. apply rotateTo_sized.
      * exact Hgen.
  - cbn [config tiles showFeedback generateTiles setTiles].
    split; [reflexivity|exact Hgen].
Qed.

Lemma stepTiles_frame (ts : list Tile.t) : forall active ts' active',
  stepTiles ts active = Some (ts', active') ->
  Forall2 (fun tl tl' => exists x' y', tl' = Tile.setPos tl x' y') ts ts'.
Proof.
  induction ts as [|tl rest IH]; intros active ts' active' H; cbn [stepTiles] in H.
  - injection H as <- _. constructor.
  - unfold stepTile in H.
    destruct (Tile.targetX tl) as [tx|]; [|discriminate].
    destruct (Tile.targetY tl) as [ty|]; [|discriminate].
    destruct (easeAxis (Tile.x tl) tx) as [x' ax].
    destruct (easeAxis (Tile.y tl) ty) as [y' ay].
    destruct (stepTiles rest (active || (ax || ay))) as [[rest' act]|] eqn:E;
      [|discriminate].
    injection H as <- _.
    constructor; [exists x', y'; reflexivity|exact (IH _ _ _ E)].
Qed.

Lemma render_frame (a a' : App) (f : Frame) :
  render a = Some (a', f) ->
  config a' = config a /\
  Forall2 (fun tl tl' => exists x' y', tl' = Tile.setPos tl x' y')
          (tiles a) (tiles a').
Proof.
  unfold render. destruct (isAnimating a).
  - destruct (stepTiles (tiles a) false) as [[ts act]|] eqn:E; [|discriminate].
    pose proof (stepTiles_frame _ _ _ _ E) as HF.
    destruct act; intros [= <- _]; split; try reflexivity; exact HF.
  - intros [= <- _]. split; [reflexivity|].
    induction (tiles a) as [|tl rest IH]; constructor; [|exact IH].
    exists (Tile.x tl), (Tile.y tl). symmetry. apply setPos_same.
Qed.



















(** ** Releasing a tile *)

(** X13: releasing a held tile always ends the drag and refreshes the
    readout from the arrangement.  Over the trash zone the held tile, and
    only it, is removed; anywhere else the tile stays in the arrangement, is
    snapped by less than 15 px on each axis, loses its dragging flag, and no
    other tile changes. *)
Theorem handleMouseUp_releases (ui : Ui) (e : MouseEvent) (i : nat) (tl : Tile.t) :
  dragTarget ui = Some (Held i) ->
  nth_error (tiles (theApp ui)) i = Some tl ->
  let ui' := handleMouseUp e ui in
  dragTarget ui' = None /\
  readout ui' = checkSolution (tiles (theApp ui')) /\
  (inRect (trashRect ui) (clientX e) (clientY e) = true ->
     tiles (theApp ui') = removeAt i (tiles (theApp ui)) /\
     S (List.length (tiles (theApp ui'))) = List.length (tiles (theApp ui))) /\
  (inRect (trashRect ui) (clientX e) (clientY e) = false ->
     List.length (tiles (theApp ui')) = List.length (tiles (theApp ui)) /\
     (forall k, k <> i ->
        nth_error (tiles (theApp ui')) k = nth_error (tiles (theApp ui)) k) /\
     exists tl',
       nth_error (tiles (theApp ui')) i = Some tl' /\
       Tile.isDragging tl' = false /\
       tl' = setDragging (Tile.setPos tl (Tile.x tl') (Tile.y tl')) false /\
       (Qabs (Tile.x tl' - Tile.x tl) < 15)%Q /\
       (Qabs (Tile.y tl' - Tile.y tl) < 15)%Q).
Proof.
  intros Hd Hn ui'. unfold ui', handleMouseUp. rewrite Hd.
  cbn [dragTarget readout theApp withReadout withDrag withApp].
  split; [reflexivity|]. split; [reflexivity|].
  assert (Hi : (i < List.length (tiles (theApp ui)))%nat)
    by (apply nth_error_Some; congruence).
  destruct (inRect (trashRect ui) (clientX e) (clientY e)).
  - split; [|discriminate]. intros _. cbn [tiles setTiles].
    split; [reflexivity|apply removeAt_length; exact Hi].
  - split; [discriminate|]. intros _.
    assert (Hsnap : tiles (snapToNeighbors i (theApp ui)) =
                    mutate (tiles (theApp ui)) i
                           (fun _ => snapLoop i tl (tiles (theApp ui)) 0)).
    { unfold snapToNeighbors. rewrite Hn. reflexivity. }
    cbn [tiles setTiles]. rewrite Hsnap.
    split; [rewrite !mutate_length; reflexivity|]. split.
    + intros k Hk. rewrite !mutate_nth.
      destruct (Nat.eqb_spec k i); [contradiction|reflexivity].
    + exists (setDragging (snapLoop i tl (tiles (theApp ui)) 0) false).
      split.
      { rewrite !mutate_nth, Nat.eqb_refl, Hn. reflexivity. }
      split; [reflexivity|].
      destruct (snapLoop_near i tl (tiles (theApp ui)) 0) as [Nx Ny].
      split; [|split; [exact Nx|exact Ny]].
      cbn [Tile.x Tile.y setDragging].
      destruct (snapLoop_state i tl (tiles (theApp ui)) O) as [H | [x' [y' H]]];
        rewrite H; [rewrite setPos_same|]; reflexivity.
Qed.

Lemma handleMouseUp_releases_witness :
  dragTarget uiHolding = Some (Held 1) /\
  inRect (trashRect uiHolding) (-50) 100 = true /\
  tiles (theApp (handleMouseUp (mkEvent (-50) 100) uiHolding)) = [unitAtOrigin] /\
  inRect (trashRect uiHolding) 40 10 = false /\
  List.length (tiles (theApp (handleMouseUp (mkEvent 40 10) uiHolding))) = 2%nat.
Proof.
  destruct (handleMouseUp_releases uiHolding (mkEvent (-50) 100) 1
              (setDragging unitNearRight true) eq_refl eq_refl)
    as [_ [_ [Htrash _]]].
  destruct (handleMouseUp_releases uiHolding (mkEvent 40 10) 1
              (setDragging unitNearRight true) eq_refl eq_refl)
    as [_ [_ [_ Hsnap]]].
  split; [reflexivity|]. split; [reflexivity|].
  split; [exact (proj1 (Htrash eq_refl))|].
  split; [reflexivity|].
  exact (proj1 (Hsnap eq_refl)).
Defined.

(** ** Rotating a tile *)

(** X14: for a tile whose size fields are consistent, rotating exchanges
    the width and height of a bar and keeps its top-left corner, leaves
    squares and units untouched, and rotating twice gives the tile back. *)
Theorem rotate_swaps_and_returns (cfg : TileConfig) (tl : Tile.t) :
  sized cfg tl ->
  Tile.rotate (Tile.rotate tl) = tl /\
  (Tile.type tl = T_x ->
     Tile.w (Tile.rotate tl) = Tile.h tl /\ Tile.h (Tile.rotate tl) = Tile.w tl /\
     Tile.x (Tile.rotate tl) = Tile.x tl /\ Tile.y (Tile.rotate tl) = Tile.y tl /\
     Tile.rotation (Tile.rotate tl) = 1 - Tile.rotation tl) /\
  (Tile.type tl <> T_x -> Tile.rotate tl = tl).
Proof.
  destruct tl as [ty x y neg rot drag u xs w h tx ty'].
  unfold sized, Tile.rotate, Tile.updateDimensions, Tile.setRotation, Tile.setDims.
  cbn. intros [_ [_ [Hr Hd]]].
  destruct ty; cbn in *.
  - split; [reflexivity|]. split; [discriminate|reflexivity].
  - destruct Hr as [-> | ->]; cbn in *; injection Hd as Hw Hh; subst w h;
      (split; [reflexivity|]); (split; [intros _; repeat split|]);
      intro H; contradiction.
  - split; [reflexivity|]. split; [discriminate|reflexivity].
Qed.

Lemma rotate_swaps_and_returns_witness :
  sized TILE_CONFIG (Tile.new TILE_CONFIG T_x 10 20 false) /\
  Tile.rotate (Tile.rotate (Tile.new TILE_CONFIG T_x 10 20 false))
  = Tile.new TILE_CONFIG T_x 10 20 false /\
  Tile.w (Tile.rotate (Tile.new TILE_CONFIG T_x 10 20 false)) = 25%Q.
Proof.
  assert (Hs : sized TILE_CONFIG (Tile.new TILE_CONFIG T_x 10 20 false)).
  { repeat split. left. reflexivity. }
  destruct (rotate_swaps_and_returns TILE_CONFIG
              (Tile.new TILE_CONFIG T_x 10 20 false) Hs) as [H2 [Hx _]].
  split; [exact Hs|]. split; [exact H2|].
  exact (proj1 (Hx eq_refl)).
Defined.

(** ** Dragging a tile in from the palette *)

(** X15: a tile spawned from the palette is appended on top of the
    arrangement with the requested kind and the sign of the check box, is
    held by the drag, and is centred on the pointer; it stays centred on the
    pointer through the next move. *)
Theorem spawnTileFromMouse_centred (ui : Ui) (e e' : MouseEvent) (ty : TileType) :
  exists tl tl',
    tiles (theApp (spawnTileFromMouse e ty ui)) = tiles (theApp ui) ++ [tl] /\
    dragTarget (spawnTileFromMouse e ty ui)
      = Some (Held (List.length (tiles (theApp ui)))) /\
    (Tile.type tl = ty /\ Tile.isNegative tl = chkNegative ui /\
     Tile.isDragging tl = true /\ Tile.rotation tl = 0 /\
     sized (config (theApp ui)) tl) /\
    (Tile.x tl + Tile.w tl / 2 == fst (getMousePos ui e))%Q /\
    (Tile.y tl + Tile.h tl / 2 == snd (getMousePos ui e))%Q /\
    tiles (theApp (handleMouseMove e' (spawnTileFromMouse e ty ui)))
      = tiles (theApp ui) ++ [tl'] /\
    (Tile.x tl' + Tile.w tl' / 2 == fst (getMousePos ui e'))%Q /\
    (Tile.y tl' + Tile.h tl' / 2 == snd (getMousePos ui e'))%Q.
Proof.
  unfold spawnTileFromMouse, handleMouseMove, getMousePos.
  cbn [dragTarget withDrag withApp theApp tiles setTiles dragOffset canvasRect
       fst snd].
  rewrite length_app. cbn [List.length].
  replace (List.length (tiles (theApp ui)) + 1 - 1)%nat
    with (List.length (tiles (theApp ui))) by lia.
  rewrite mutate_last.
  eexists. eexists.
  split; [reflexivity|]. split; [reflexivity|].
  split.
  { split; [destruct ty; reflexivity|]. split; [destruct ty; reflexivity|].
    split; [reflexivity|]. split; [destruct ty; reflexivity|].
    apply setDragging_sized, setPos_sized, new_sized. }
  split; [destruct ty; cbn; field|]. split; [destruct ty; cbn; field|].
  split; [reflexivity|].
  split; destruct ty; cbn; field.
Qed.

(** ** A frame never overshoots *)





(** ** The verdict does not depend on where the arrangement sits *)

















(** ** Where the generated tiles are put *)

Lemma new_fields cfg ty x0 y0 neg :
  Tile.type (Tile.new cfg ty x0 y0 neg) = ty /\
  Tile.x (Tile.new cfg ty x0 y0 neg) = x0 /\
  Tile.y (Tile.new cfg ty x0 y0 neg) = y0 /\
  Tile.rotation (Tile.new cfg ty x0 y0 neg) = 0.
Proof. destruct ty; repeat split. Qed.

Lemma genSquares_nth cfg neg k : forall sx sy j,
  (j < k)%nat ->
  exists tl, nth_error (genSquares cfg neg k sx sy) j = Some tl /\
    Tile.type tl = T_x2 /\
    (Tile.x tl == sx + inject_Z (Z.of_nat j) * (SIZES_x (SIZES cfg) + GAP cfg))%Q /\
    Tile.y tl = sy.
Proof.
  induction k as [|k IH]; intros sx sy j Hj; [lia|]. cbn [genSquares].
  destruct j as [|j].
  - eexists. split; [reflexivity|].
    destruct (new_fields cfg T_x2 sx sy neg) as [Ht [Hx [Hy _]]].
    rewrite Ht, Hx, Hy. split; [reflexivity|]. split; [|reflexivity].
    cbn. ring.
  - destruct (IH (sx + SIZES_x (SIZES cfg) + GAP cfg)%Q sy j ltac:(lia))
      as [tl [Hn [Ht [Hx Hy]]]].
    exists tl. split; [exact Hn|]. split; [exact Ht|]. split; [|exact Hy].
    rewrite Hx, Nat2Z.inj_succ. unfold Z.succ. rewrite inject_Z_plus.
    change (inject_Z 1) with 1%Q. ring.
Qed.

Lemma genUnits_nth cfg neg k : forall sx sy j,
  (j < k)%nat ->
  exists tl, nth_error (genUnits cfg neg k sx sy) j = Some tl /\
    Tile.type tl = T_one /\
    (Tile.x tl == sx + 50 * inject_Z (Z.of_nat j))%Q /\ Tile.y tl = sy.
Proof.
  induction k as [|k IH]; intros sx sy j Hj; [lia|]. cbn [genUnits].
  destruct j as [|j].
  - eexists. split; [reflexivity|].
    destruct (new_fields cfg T_one sx sy neg) as [Ht [Hx [Hy _]]].
    rewrite Ht, Hx, Hy. split; [reflexivity|]. split; [|reflexivity].
    cbn. ring.
  - destruct (IH (sx + 50)%Q sy j ltac:(lia)) as [tl [Hn [Ht [Hx Hy]]]].
    exists tl. split; [exact Hn|]. split; [exact Ht|]. split; [|exact Hy].
    rewrite Hx, Nat2Z.inj_succ. unfold Z.succ. rewrite inject_Z_plus.
    change (inject_Z 1) with 1%Q. ring.
Qed.

Lemma inject_Z_sub (a b : Z) : (inject_Z (a - b) == inject_Z a - inject_Z b)%Q.
Proof.
  unfold Z.sub. rewrite inject_Z_plus, inject_Z_opp. reflexivity.
Qed.

Lemma genBars_nth cfg neg k : forall i sx sy,
  0 <= i -> (sx == 50 + 50 * inject_Z (i mod 10))%Q ->
  (snd (genBars cfg neg k i sx sy)
   == sy + 110 * inject_Z ((i + Z.of_nat k) / 10 - i / 10))%Q /\
  forall j, (j < k)%nat ->
    exists tl, nth_error (fst (genBars cfg neg k i sx sy)) j = Some tl /\
      Tile.type tl = T_x /\ Tile.rotation tl = 0 /\
      (Tile.x tl == 50 + 50 * inject_Z ((i + Z.of_nat j) mod 10))%Q /\
      (Tile.y tl == sy + 110 * inject_Z ((i + Z.of_nat j) / 10 - i / 10))%Q.
Proof.
  induction k as [|k IH]; intros i sx sy Hi Hsx; cbn [genBars].
  - cbn [snd]. split; [|intros j Hj; lia].
    rewrite Z.add_0_r, Z.sub_diag. cbn. ring.
  - assert (Hrem : Z.rem i 10 = i mod 10) by (apply Z.rem_mod_nonneg; lia).
    rewrite Hrem.
    destruct (Z.eqb_spec (i mod 10) 9) as [E9|E9].
    + assert (Hm : (i + 1) mod 10 = 0) by (Z.div_mod_to_equations; lia).
      assert (Hq : (i + 1) / 10 = i / 10 + 1) by (Z.div_mod_to_equations; lia).
      destruct (IH (i + 1) 50%Q (sy + 110)%Q ltac:(lia)) as [Hend Hnth].
      { rewrite Hm. cbn. ring. }
      destruct (genBars cfg neg k (i + 1) 50%Q (sy + 110)%Q) as [rest endY].
      cbn [fst snd] in *. split.
      * rewrite Hend, Hq.
        replace (i + 1 + Z.of_nat k) with (i + Z.of_nat (S k)) by lia.
        rewrite !inject_Z_sub, !inject_Z_plus. change (inject_Z 1) with 1%Q. ring.
      * intros [|j] Hj.
        -- eexists. split; [reflexivity|].
           destruct (new_fields cfg T_x sx sy neg) as [Ht [Hx [Hy Hr]]].
           rewrite Ht, Hx, Hy, Hr. split; [reflexivity|]. split; [reflexivity|].
           cbn [Z.of_nat]. rewrite Z.add_0_r, Z.sub_diag. split; [exact Hsx|].
           cbn. ring.
        -- destruct (Hnth j ltac:(lia)) as [tl [Hn [Ht [Hr [Hx Hy]]]]].
           exists tl. split; [exact Hn|]. split; [exact Ht|]. split; [exact Hr|].
           replace (i + Z.of_nat (S j)) with (i + 1 + Z.of_nat j) by lia.
           split; [exact Hx|]. rewrite Hy, Hq.
           rewrite !inject_Z_sub, !inject_Z_plus. change (inject_Z 1) with 1%Q.
           ring.
    + assert (Hm : (i + 1) mod 10 = i mod 10 + 1) by (Z.div_mod_to_equations; lia).
      assert (Hq : (i + 1) / 10 = i / 10) by (Z.div_mod_to_equations; lia).
      destruct (IH (i + 1) (sx + 50)%Q sy ltac:(lia)) as [Hend Hnth].
      { rewrite Hm, Hsx, inject_Z_plus. change (inject_Z 1) with 1%Q. ring. }
      destruct (genBars cfg neg k (i + 1) (sx + 50)%Q sy) as [rest endY].
      cbn [fst snd] in *. split.
      * rewrite Hend, Hq.
        replace (i + 1 + Z.of_nat k) with (i + Z.of_nat (S k)) by lia.
        reflexivity.
      * intros [|j] Hj.
        -- eexists. split; [reflexivity|].
           destruct (new_fields cfg T_x sx sy neg) as [Ht [Hx [Hy Hr]]].
           rewrite Ht, Hx, Hy, Hr. split; [reflexivity|]. split; [reflexivity|].
           cbn [Z.of_nat]. rewrite Z.add_0_r, Z.sub_diag. split; [exact Hsx|].
           cbn. ring.
        -- destruct (Hnth j ltac:(lia)) as [tl [Hn [Ht [Hr [Hx Hy]]]]].
           exists tl. split; [exact Hn|]. split; [exact Ht|]. split; [exact Hr|].
           replace (i + Z.of_nat (S j)) with (i + 1 + Z.of_nat j) by lia.
           split; [exact Hx|]. rewrite Hy, Hq. reflexivity.
Qed.

(** X18: the generated tiles are laid out in rows: the x^2 tiles in one row
    at y = 50, one tile length plus the gap apart; the x tiles below them in
    rows of ten, 50 px apart, the rows 110 px apart; the unit tiles in one
    row, 50 px apart, 120 px below the last row of x tiles. *)
Theorem generateTiles_layout (cfg : TileConfig) (a b c : Z) :
  let ts := generatedTiles cfg a b c in
  let na := Z.to_nat (Z.abs a) in
  let nb := Z.to_nat (Z.abs b) in
  let nc := Z.to_nat (Z.abs c) in
  (forall j, (j < na)%nat ->
     exists tl, nth_error ts j = Some tl /\ Tile.type tl = T_x2 /\
       (Tile.x tl == 50 + inject_Z (Z.of_nat j) * (SIZES_x (SIZES cfg) + GAP cfg))%Q /\
       (Tile.y tl == 50)%Q) /\
  (forall j, (j < nb)%nat ->
     exists tl, nth_error ts (na + j) = Some tl /\ Tile.type tl = T_x /\
       Tile.rotation tl = 0 /\
       (Tile.x tl == 50 + 50 * inject_Z (Z.of_nat j mod 10))%Q /\
       (Tile.y tl == 170 + 110 * inject_Z (Z.of_nat j / 10))%Q) /\
  (forall j, (j < nc)%nat ->
     exists tl, nth_error ts (na + nb + j) = Some tl /\ Tile.type tl = T_one /\
       (Tile.x tl == 50 + 50 * inject_Z (Z.of_nat j))%Q /\
       (Tile.y tl == 290 + 110 * inject_Z (Z.abs b / 10))%Q).
Proof.
  intros ts na nb nc. unfold ts, generatedTiles.
  destruct (genSquares_shape cfg (a <? 0) na 50%Q 50%Q) as [Lsq _].
  destruct (genBars_shape cfg (b <? 0) nb 0 50%Q (50 + 120)%Q) as [Lba _].
  destruct (genBars_nth cfg (b <? 0) nb 0 50%Q (50 + 120)%Q ltac:(lia))
    as [Hend Hbars]; [cbn; ring|].
  fold na nb nc.
  destruct (genBars cfg (b <? 0) nb 0 50%Q (50 + 120)%Q) as [bars endY].
  cbn [fst snd] in *.
  split; [|split].
  - intros j Hj.
    destruct (genSquares_nth cfg (a <? 0) na 50%Q 50%Q j Hj)
      as [tl [Hn [Ht [Hx Hy]]]].
    exists tl. rewrite nth_error_app1 by lia.
    split; [exact Hn|]. split; [exact Ht|]. split; [exact Hx|].
    rewrite Hy. reflexivity.
  - intros j Hj. destruct (Hbars j Hj) as [tl [Hn [Ht [Hr [Hx Hy]]]]].
    exists tl. rewrite nth_error_app2 by lia. rewrite Lsq.
    replace (na + j - na)%nat with j by lia.
    rewrite nth_error_app1 by lia.
    split; [exact Hn|]. split; [exact Ht|]. split; [exact Hr|].
    rewrite Z.add_0_l in Hx, Hy. split; [exact Hx|].
    rewrite Hy. change (0 / 10) with 0. rewrite Z.sub_0_r. ring.
  - intros j Hj.
    destruct (genUnits_nth cfg (c <? 0) nc 50%Q (endY + 120)%Q j Hj)
      as [tl [Hn [Ht [Hx Hy]]]].
    exists tl. rewrite nth_error_app2 by lia. rewrite Lsq.
    rewrite nth_error_app2 by lia. rewrite Lba.
    replace (na + nb + j - na - nb)%nat with j by lia.
    split; [exact Hn|]. split; [exact Ht|]. split; [exact Hx|].
    rewrite Hy, Hend. change (0 / 10) with 0. rewrite Z.sub_0_r, Z.add_0_l.
    unfold nb. rewrite Z2Nat.id by lia. ring.
Qed.

Lemma generateTiles_layout_witness :
  exists tl, nth_error (generatedTiles TILE_CONFIG 1 12 0) (1 + 11) = Some tl /\
    Tile.type tl = T_x /\
    (Tile.x tl == 50 + 50 * inject_Z (Z.of_nat 11 mod 10))%Q /\
    (Tile.y tl == 170 + 110 * inject_Z (Z.of_nat 11 / 10))%Q.
Proof.
  destruct (proj1 (proj2 (generateTiles_layout TILE_CONFIG 1 12 0)) 11%nat
              ltac:(cbn; lia)) as [tl [Hn [Ht [_ [Hx Hy]]]]].
  exists tl. split; [exact Hn|]. split; [exact Ht|]. split; [exact Hx|exact Hy].
Defined.

(** ** The layout a solve aims at *)

Lemma assignTargets_fills (app : App) (m n p q : Z) :
  assignTargets app m n p q =
  fill (refsOf T_one (tiles app)) (nested (Z.abs q) (Z.abs p)) (placeUnit app m n p q)
    (fill (skipn (List.length (nested (Z.abs p) n)) (refsOf T_x (tiles app)))
          (nested (Z.abs q) m) (placeHorizontal app m n p q)
       (fill (refsOf T_x (tiles app)) (nested (Z.abs p) n) (placeVertical app m n p q)
          (fill (refsOf T_x2 (tiles app)) (nested n m) (placeSquare app m n p q)
             (tiles app)))).
Proof. reflexivity. Qed.

Lemma fill_cons r refs s slots place' ts :
  fill (r :: refs) (s :: slots) place' ts = fill refs slots place' (mutate ts r (place' s)).
Proof. reflexivity. Qed.

Lemma fill_seq_out (place' : Z * Z -> Tile.t -> Tile.t) : forall slots r0 cnt ts r,
  (r < r0 \/ r0 + cnt <= r \/ r0 + List.length slots <= r)%nat ->
  nth_error (fill (seq r0 cnt) slots place' ts) r = nth_error ts r.
Proof.
  induction slots as [|s slots IH]; intros r0 cnt ts r H.
  - reflexivity.
  - destruct cnt as [|cnt]; [reflexivity|].
    cbn [seq]. rewrite fill_cons. cbn [List.length] in H.
    rewrite IH by lia. rewrite mutate_nth.
    destruct (Nat.eqb_spec r r0) as [E|E]; [lia|reflexivity].
Qed.

Lemma fill_seq_in (place' : Z * Z -> Tile.t -> Tile.t) : forall slots r0 cnt ts k s,
  (k < cnt)%nat -> nth_error slots k = Some s ->
  nth_error (fill (seq r0 cnt) slots place' ts) (r0 + k)
  = option_map (place' s) (nth_error ts (r0 + k)).
Proof.
  induction slots as [|s0 slots IH]; intros r0 cnt ts k s Hk Hs.
  - destruct k; discriminate.
  - destruct cnt as [|cnt]; [lia|].
    cbn [seq]. rewrite fill_cons. destruct k as [|k].
    + injection Hs as <-. rewrite fill_seq_out by lia.
      rewrite Nat.add_0_r, mutate_nth, Nat.eqb_refl. reflexivity.
    + cbn [nth_error] in Hs.
      replace (r0 + S k)%nat with (S r0 + k)%nat by lia.
      rewrite (IH (S r0) cnt _ k s) by (lia || assumption).
      rewrite mutate_nth.
      destruct (Nat.eqb_spec (S r0 + k) r0) as [E|E]; [lia|reflexivity].
Qed.

Lemma flat_map_nth {A B : Type} (f : A -> list B) (width : nat) : forall (l : list A),
  (forall a, In a l -> List.length (f a) = width) ->
  forall row col a, nth_error l row = Some a -> (col < width)%nat ->
  nth_error (flat_map f l) (row * width + col) = nth_error (f a) col.
Proof.
  induction l as [|a0 l IH]; intros Hlen row col a Ha Hc.
  - destruct row; discriminate.
  - cbn [flat_map]. destruct row as [|row].
    + injection Ha as <-. rewrite nth_error_app1; [reflexivity|].
      rewrite (Hlen a0) by (left; reflexivity). lia.
    + cbn [nth_error] in Ha. rewrite nth_error_app2.
      * rewrite (Hlen a0) by (left; reflexivity).
        replace (S row * width + col - width)%nat with (row * width + col)%nat by lia.
        apply IH; try assumption. intros a' Hin. apply Hlen. right. exact Hin.
      * rewrite (Hlen a0) by (left; reflexivity). lia.
Qed.

Lemma upto_nth (k : Z) (i : nat) :
  (i < Z.to_nat k)%nat -> nth_error (JS.upto k) i = Some (Z.of_nat i).
Proof.
  intro H. unfold JS.upto.
  rewrite nth_error_map, nth_error_seq.
  destruct (Nat.ltb_spec i (Z.to_nat k)); [reflexivity|lia].
Qed.

Lemma nested_nth (outer inner : Z) (o i : nat) :
  (o < Z.to_nat outer)%nat -> (i < Z.to_nat inner)%nat ->
  nth_error (nested outer inner) (o * Z.to_nat inner + i)
  = Some (Z.of_nat o, Z.of_nat i).
Proof.
  intros Ho Hi. unfold nested.
  rewrite (flat_map_nth _ (Z.to_nat inner) (JS.upto outer)
             (fun a _ => eq_trans (length_map _ _) (upto_length inner))
             o i (Z.of_nat o) (upto_nth outer o Ho) Hi).
  rewrite nth_error_map, (upto_nth inner i Hi). reflexivity.
Qed.

Lemma refsFrom_app (ty : TileType) (l1 l2 : list Tile.t) : forall i,
  refsFrom ty (l1 ++ l2) i
  = refsFrom ty l1 i ++ refsFrom ty l2 (i + List.length l1).
Proof.
  induction l1 as [|tl l1 IH]; intro i; cbn [app refsFrom List.length].
  - rewrite Nat.add_0_r. reflexivity.
  - rewrite IH. replace (S i + List.length l1)%nat with (i + S (List.length l1))%nat by lia.
    destruct (TileType_eqb (Tile.type tl) ty); reflexivity.
Qed.

Lemma refsFrom_uniform (ty ty' : TileType) (neg : bool) (l : list Tile.t) :
  Forall (fun tl => kindSign tl = (ty', neg)) l ->
  forall i, refsFrom ty l i = if TileType_eqb ty' ty then seq i (List.length l) else [].
Proof.
  induction 1 as [|tl l Hk _ IH]; intro i; cbn [refsFrom List.length seq].
  - destruct (TileType_eqb ty' ty); reflexivity.
  - unfold kindSign in Hk. injection Hk as Hty _. rewrite Hty, IH.
    destruct (TileType_eqb ty' ty); reflexivity.
Qed.

(** The tiles of one kind are consecutive in a generated arrangement. *)
Lemma generatedTiles_refs (cfg : TileConfig) (a b c : Z) :
  let na := Z.to_nat (Z.abs a) in
  let nb := Z.to_nat (Z.abs b) in
  let nc := Z.to_nat (Z.abs c) in
  refsOf T_x2 (generatedTiles cfg a b c) = seq 0 na /\
  refsOf T_x (generatedTiles cfg a b c) = seq na nb /\
  refsOf T_one (generatedTiles cfg a b c) = seq (na + nb) nc.
Proof.
  intros na nb nc. unfold refsOf.
  destruct (generatedTiles_parts cfg a b c)
    as [sq [ba [un [-> [[Hls Hfs] [[Hlb Hfb] [Hlu Hfu]]]]]]].
  rewrite !refsFrom_app.
  rewrite !(refsFrom_uniform _ _ _ _ Hfs), !(refsFrom_uniform _ _ _ _ Hfb),
    !(refsFrom_uniform _ _ _ _ Hfu).
  cbn [TileType_eqb app]. rewrite !app_nil_r, Hls, Hlb, Hlu.
  repeat split; reflexivity.
Qed.

Lemma generatedTiles_at (cfg : TileConfig) (a b c : Z) (i : nat) (g : Tile.t) :
  let na := Z.to_nat (Z.abs a) in
  let nb := Z.to_nat (Z.abs b) in
  nth_error (generatedTiles cfg a b c) i = Some g ->
  sized cfg g /\
  kindSign g = (if (i <? na)%nat then (T_x2, a <? 0)
                else if (i <? na + nb)%nat then (T_x, b <? 0)
                else (T_one, c <? 0)).
Proof.
  intros na nb Hg. split.
  - pose proof (generatedTiles_Forall (sized cfg) cfg a b c (new_sized cfg)) as HF.
    rewrite Forall_forall in HF. apply HF. eapply nth_error_In. exact Hg.
  - destruct (generatedTiles_parts cfg a b c)
      as [sq [ba [un [E [[Hls Hfs] [[Hlb Hfb] [Hlu Hfu]]]]]]].
    rewrite E in Hg. rewrite Forall_forall in Hfs, Hfb, Hfu.
    fold na in Hls. fold nb in Hlb.
    destruct (Nat.ltb_spec i na) as [L|L].
    + rewrite nth_error_app1 in Hg by lia.
      apply Hfs. eapply nth_error_In. exact Hg.
    + rewrite nth_error_app2 in Hg by lia.
      destruct (Nat.ltb_spec i (na + nb)) as [L'|L'].
      * rewrite nth_error_app1 in Hg by lia.
        apply Hfb. eapply nth_error_In. exact Hg.
      * rewrite nth_error_app2 in Hg by lia.
        apply Hfu. eapply nth_error_In. exact Hg.
Qed.

Lemma sized_dims (cfg : TileConfig) (tl : Tile.t) :
  sized cfg tl ->
  Tile.w tl = match Tile.type tl with
              | T_x2 => SIZES_x (SIZES cfg)
              | T_x => if Tile.rotation tl =? 0 then SIZES_x (SIZES cfg)
                       else SIZES_u (SIZES cfg)
              | T_one => SIZES_u (SIZES cfg)
              end /\
  Tile.h tl = match Tile.type tl with
              | T_x2 => SIZES_x (SIZES cfg)
              | T_x => if Tile.rotation tl =? 0 then SIZES_u (SIZES cfg)
                       else SIZES_x (SIZES cfg)
              | T_one => SIZES_u (SIZES cfg)
              end.
Proof.
  intros [Hu [Hx [_ He]]].
  assert (Hw : Tile.w (Tile.updateDimensions tl) = Tile.w tl) by (rewrite He; reflexivity).
  assert (Hh : Tile.h (Tile.updateDimensions tl) = Tile.h tl) by (rewrite He; reflexivity).
  unfold Tile.updateDimensions in Hw, Hh. rewrite <- Hw, <- Hh.
  destruct (Tile.type tl); cbn [Tile.setDims Tile.w Tile.h]; rewrite ?Hu, ?Hx;
    split; reflexivity.
Qed.

Lemma sortByRank_id (l : list Tile.t) : forall rk : nat -> Z,
  (forall i j, (i <= j)%nat -> rk i <= rk j) ->
  (forall i tl, nth_error l i = Some tl -> getRank tl = rk i) ->
  sortByRank l = l.
Proof.
  induction l as [|t0 l IH]; intros rk Hmono Hrk; [reflexivity|].
  change (sortByRank (t0 :: l)) with (insertByRank t0 (sortByRank l)).
  rewrite (IH (fun i => rk (S i))).
  - apply insertByRank_stop. apply Forall_nth_error. intros i u Hu.
    rewrite (Hrk 0%nat t0 eq_refl), (Hrk (S i) u Hu). apply Hmono. lia.
  - intros i j Hij. apply Hmono. lia.
  - intros i tl Htl. apply (Hrk (S i)). exact Htl.
Qed.

(** The sort that ends a solve finds the tiles already in rank order: the
    arrangement is the one the target assignment left. *)
Lemma solved_tiles (app : App) (a b c m n p q : Z) :
  solverCoefficients app = (a, b, c) ->
  getClosestFactors a = (m, n) ->
  solveSearch m n b c = Some (p, q) ->
  tiles (solveAndAnimate app) = assignTargets (generateTiles a b c app) m n p q.
Proof.
  intros Hco Hf Hs. unfold solveAndAnimate. rewrite Hco, Hf, Hs.
  cbn [tiles setTiles setAnimating].
  set (na := Z.to_nat (Z.abs a)). set (nb := Z.to_nat (Z.abs b)).
  apply (sortByRank_id _
           (fun i => if (i <? na)%nat then 1 else if (i <? na + nb)%nat then 2 else 3)).
  - intros i j Hij.
    destruct (Nat.ltb_spec i na), (Nat.ltb_spec j na),
      (Nat.ltb_spec i (na + nb)), (Nat.ltb_spec j (na + nb)); lia.
  - intros i tl Htl.
    pose proof (assignTargets_kindSign (generateTiles a b c app) m n p q) as Hk.
    apply (f_equal (fun l => nth_error l i)) in Hk.
    rewrite !nth_error_map, Htl in Hk. cbn [option_map] in Hk.
    cbn [generateTiles tiles setTiles] in Hk.
    destruct (nth_error (generatedTiles (config app) a b c) i) as [g|] eqn:Hg;
      [|discriminate].
    cbn [option_map] in Hk. unfold kindSign in Hk. injection Hk as Hty _.
    destruct (generatedTiles_at _ _ _ _ _ _ Hg) as [_ Hkg].
    fold na nb in Hkg. unfold getRank. rewrite Hty.
    apply (f_equal fst) in Hkg. cbn [kindSign fst] in Hkg. rewrite Hkg.
    destruct (i <? na)%nat; [reflexivity|].
    destruct (i <? na + nb)%nat; reflexivity.
Qed.

(** The four placement loops on an arrangement whose kinds are consecutive:
    each tile is written by at most one loop, with the slot of its rank in
    the loop. *)
Lemma four_fills_nth (ts : list Tile.t) (na nb nc : nat)
    (s1 s2 s3 s4 : list (Z * Z))
    (p1 p2 p3 p4 : Z * Z -> Tile.t -> Tile.t) :
  let A := fill (seq (na + nb) nc) s4 p4
             (fill (skipn (List.length s2) (seq na nb)) s3 p3
                (fill (seq na nb) s2 p2
                   (fill (seq 0 na) s1 p1 ts))) in
  (forall k s, (k < na)%nat -> nth_error s1 k = Some s ->
     nth_error A k = option_map (p1 s) (nth_error ts k)) /\
  (forall k s, (k < nb)%nat -> nth_error s2 k = Some s ->
     nth_error A (na + k) = option_map (p2 s) (nth_error ts (na + k))) /\
  (forall k s, (List.length s2 + k < nb)%nat -> nth_error s3 k = Some s ->
     nth_error A (na + List.length s2 + k)
     = option_map (p3 s) (nth_error ts (na + List.length s2 + k))) /\
  (forall k s, (k < nc)%nat -> nth_error s4 k = Some s ->
     nth_error A (na + nb + k) = option_map (p4 s) (nth_error ts (na + nb + k))).
Proof.
  intro A. subst A. rewrite skipn_seq.
  split; [|split; [|split]]; intros k s Hk Hs.
  - rewrite !fill_seq_out by lia.
    exact (fill_seq_in p1 s1 0%nat na ts k s Hk Hs).
  - assert (Hl : (k < List.length s2)%nat)
      by (apply nth_error_Some; rewrite Hs; discriminate).
    rewrite 2!fill_seq_out by lia.
    rewrite (fill_seq_in p2 s2 na nb _ k s Hk Hs).
    rewrite fill_seq_out by lia. reflexivity.
  - rewrite fill_seq_out by lia.
    rewrite <- Nat.add_assoc.
    rewrite Nat.add_assoc.
    rewrite (fill_seq_in p3 s3 (na + List.length s2) (nb - List.length s2) _ k s)
      by (lia || assumption).
    rewrite 2!fill_seq_out by lia. reflexivity.
  - rewrite (fill_seq_in p4 s4 (na + nb) nc _ k s Hk Hs).
    destruct (Nat.le_gt_cases (List.length s2) nb) as [L|L].
    + rewrite 3!fill_seq_out by lia. reflexivity.
    + replace (nb - List.length s2)%nat with 0%nat by lia.
      change (fill (seq (na + List.length s2) 0) s3 p3 ?t) with
        (fold_left (fun acc sr => mutate acc (snd sr) (p3 (fst sr)))
                   (combine s3 []) t).
      rewrite combine_nil. cbn [fold_left].
      rewrite 2!fill_seq_out by lia. reflexivity.
Qed.

(** The target assignment on a freshly generated arrangement, tile by tile. *)
Lemma assigned_nth (app : App) (a b c m n p q : Z) :
  let app' := generateTiles a b c app in
  let A := assignTargets app' m n p q in
  let gen := generatedTiles (config app) a b c in
  let na := Z.to_nat (Z.abs a) in
  let nb := Z.to_nat (Z.abs b) in
  let nc := Z.to_nat (Z.abs c) in
  let m' := Z.to_nat m in
  let n' := Z.to_nat n in
  let p' := Z.to_nat (Z.abs p) in
  let q' := Z.to_nat (Z.abs q) in
  (forall row col, (row < n')%nat -> (col < m')%nat -> (row * m' + col < na)%nat ->
     exists g, nth_error gen (row * m' + col) = Some g /\
       nth_error A (row * m' + col)
       = Some (placeSquare app' m n p q (Z.of_nat row, Z.of_nat col) g)) /\
  (forall col row, (col < p')%nat -> (row < n')%nat -> (col * n' + row < nb)%nat ->
     exists g, nth_error gen (na + (col * n' + row)) = Some g /\
       nth_error A (na + (col * n' + row))
       = Some (placeVertical app' m n p q (Z.of_nat col, Z.of_nat row) g)) /\
  (forall row col, (row < q')%nat -> (col < m')%nat ->
     (p' * n' + (row * m' + col) < nb)%nat ->
     exists g, nth_error gen (na + p' * n' + (row * m' + col)) = Some g /\
       nth_error A (na + p' * n' + (row * m' + col))
       = Some (placeHorizontal app' m n p q (Z.of_nat row, Z.of_nat col) g)) /\
  (forall row col, (row < q')%nat -> (col < p')%nat -> (row * p' + col < nc)%nat ->
     exists g, nth_error gen (na + nb + (row * p' + col)) = Some g /\
       nth_error A (na + nb + (row * p' + col))
       = Some (placeUnit app' m n p q (Z.of_nat row, Z.of_nat col) g)).
Proof.
  intros app' A gen na nb nc m' n' p' q'.
  assert (Hlen : List.length gen = (na + nb + nc)%nat).
  { unfold gen. rewrite generatedTiles_length. unfold na, nb, nc. lia. }
  assert (Hex : forall i, (i < na + nb + nc)%nat -> exists g, nth_error gen i = Some g).
  { intros i Hi. destruct (nth_error gen i) as [g|] eqn:E; [exists g; reflexivity|].
    apply nth_error_None in E. lia. }
  destruct (generatedTiles_refs (config app) a b c) as [R1 [R2 R3]].
  fold gen na nb nc in R1, R2, R3.
  pose proof (four_fills_nth gen na nb nc
                (nested n m) (nested (Z.abs p) n) (nested (Z.abs q) m)
                (nested (Z.abs q) (Z.abs p))
                (placeSquare app' m n p q) (placeVertical app' m n p q)
                (placeHorizontal app' m n p q) (placeUnit app' m n p q)) as HF.
  cbv zeta in HF. rewrite nested_length in HF. fold p' n' in HF.
  assert (HA : A = fill (seq (na + nb) nc) (nested (Z.abs q) (Z.abs p))
                 (placeUnit app' m n p q)
                 (fill (skipn (p' * n') (seq na nb)) (nested (Z.abs q) m)
                    (placeHorizontal app' m n p q)
                    (fill (seq na nb) (nested (Z.abs p) n) (placeVertical app' m n p q)
                       (fill (seq 0 na) (nested n m) (placeSquare app' m n p q) gen)))).
  { unfold A. rewrite assignTargets_fills. unfold app'.
    cbn [tiles generateTiles setTiles]. fold gen.
    rewrite R1, R2, R3, nested_length. reflexivity. }
  rewrite <- HA in HF. destruct HF as [F1 [F2 [F3 F4]]].
  split; [|split; [|split]].
  - intros row col Hr Hc Hi.
    destruct (Hex (row * m' + col)%nat ltac:(lia)) as [g Hg].
    exists g. split; [exact Hg|].
    rewrite (F1 _ _ Hi (nested_nth n m row col Hr Hc)), Hg. reflexivity.
  - intros col row Hc Hr Hi.
    destruct (Hex (na + (col * n' + row))%nat ltac:(lia)) as [g Hg].
    exists g. split; [exact Hg|].
    rewrite (F2 _ _ Hi (nested_nth (Z.abs p) n col row Hc Hr)), Hg. reflexivity.
  - intros row col Hr Hc Hi.
    destruct (Hex (na + p' * n' + (row * m' + col))%nat ltac:(lia)) as [g Hg].
    exists g. split; [exact Hg|].
    rewrite (F3 _ _ Hi (nested_nth (Z.abs q) m row col Hr Hc)), Hg. reflexivity.
  - intros row col Hr Hc Hi.
    destruct (Hex (na + nb + (row * p' + col))%nat ltac:(lia)) as [g Hg].
    exists g. split; [exact Hg|].
    rewrite (F4 _ _ Hi (nested_nth (Z.abs q) (Z.abs p) row col Hr Hc)), Hg. reflexivity.
Qed.

Lemma placeSquare_fields (app : App) (m n p q : Z) (rc : Z * Z) (g : Tile.t) (neg : bool) :
  sized (config app) g -> kindSign g = (T_x2, neg) ->
  let X := SIZES_x (SIZES (config app)) in
  let tl := placeSquare app m n p q rc g in
  shaped tl T_x2 X X /\ Tile.isNegative tl = neg /\
  aims tl (solveStartX app m p + inject_Z (snd rc) * X)%Q
          (solveStartY app n q + inject_Z (fst rc) * X)%Q.
Proof.
  intros Hs Hk X tl. unfold kindSign in Hk. injection Hk as Hty Hneg.
  destruct (sized_dims _ _ Hs) as [Hw Hh]. rewrite Hty in Hw, Hh.
  destruct Hs as [_ [Hx _]].
  unfold tl, placeSquare, shaped, aims.
  cbn [Tile.setTarget Tile.type Tile.w Tile.h Tile.isNegative Tile.targetX Tile.targetY].
  rewrite Hx. repeat split; assumption.
Qed.

Lemma placeVertical_fields (app : App) (m n p q : Z) (cr : Z * Z) (g : Tile.t) (neg : bool) :
  sized (config app) g -> kindSign g = (T_x, neg) ->
  let X := SIZES_x (SIZES (config app)) in
  let U := SIZES_u (SIZES (config app)) in
  let tl := placeVertical app m n p q cr g in
  shaped tl T_x U X /\ Tile.rotation tl = 1 /\ Tile.isNegative tl = neg /\
  aims tl (vStartX app m p + inject_Z (fst cr) * U)%Q
          (solveStartY app n q + inject_Z (snd cr) * X)%Q.
Proof.
  intros Hs Hk X U tl. unfold kindSign in Hk. injection Hk as Hty Hneg.
  destruct Hs as [Hu [Hx _]].
  unfold tl, placeVertical, shaped, aims, Tile.updateDimensions.
  cbn [Tile.setRotation Tile.type]. rewrite Hty.
  cbn [Tile.setTarget Tile.setDims Tile.setRotation Tile.type Tile.w Tile.h Tile.rotation
       Tile.isNegative Tile.targetX Tile.targetY Tile.uSize Tile.xSize Z.eqb].
  rewrite Hu, Hx. repeat split; assumption.
Qed.

Lemma placeHorizontal_fields (app : App) (m n p q : Z) (rc : Z * Z) (g : Tile.t) (neg : bool) :
  sized (config app) g -> kindSign g = (T_x, neg) ->
  let X := SIZES_x (SIZES (config app)) in
  let U := SIZES_u (SIZES (config app)) in
  let tl := placeHorizontal app m n p q rc g in
  shaped tl T_x X U /\ Tile.rotation tl = 0 /\ Tile.isNegative tl = neg /\
  aims tl (solveStartX app m p + inject_Z (snd rc) * X)%Q
          (hStartY app n q + inject_Z (fst rc) * U)%Q.
Proof.
  intros Hs Hk X U tl. unfold kindSign in Hk. injection Hk as Hty Hneg.
  destruct Hs as [Hu [Hx _]].
  unfold tl, placeHorizontal, shaped, aims, Tile.updateDimensions.
  cbn [Tile.setRotation Tile.type]. rewrite Hty.
  cbn [Tile.setTarget Tile.setDims Tile.setRotation Tile.type Tile.w Tile.h Tile.rotation
       Tile.isNegative Tile.targetX Tile.targetY Tile.uSize Tile.xSize Z.eqb].
  rewrite Hu, Hx. repeat split; assumption.
Qed.

Lemma placeUnit_fields (app : App) (m n p q : Z) (rc : Z * Z) (g : Tile.t) (neg : bool) :
  sized (config app) g -> kindSign g = (T_one, neg) ->
  let U := SIZES_u (SIZES (config app)) in
  let tl := placeUnit app m n p q rc g in
  shaped tl T_one U U /\ Tile.isNegative tl = neg /\
  aims tl (vStartX app m p + inject_Z (snd rc) * U)%Q
          (hStartY app n q + inject_Z (fst rc) * U)%Q.
Proof.
  intros Hs Hk U tl. unfold kindSign in Hk. injection Hk as Hty Hneg.
  destruct (sized_dims _ _ Hs) as [Hw Hh]. rewrite Hty in Hw, Hh.
  unfold tl, placeUnit, shaped, aims.
  cbn [Tile.setTarget Tile.type Tile.w Tile.h Tile.isNegative Tile.targetX Tile.targetY].
  repeat split; assumption.
Qed.

(** The layout that the target assignment gives a generated arrangement:
    kind, size, sign and target of the tile at each index. *)
Lemma layout_nth (app : App) (a b c m n p q : Z) :
  let A := assignTargets (generateTiles a b c app) m n p q in
  let X := SIZES_x (SIZES (config app)) in
  let U := SIZES_u (SIZES (config app)) in
  let na := Z.to_nat (Z.abs a) in
  let nb := Z.to_nat (Z.abs b) in
  let nc := Z.to_nat (Z.abs c) in
  let m' := Z.to_nat m in
  let n' := Z.to_nat n in
  let p' := Z.to_nat (Z.abs p) in
  let q' := Z.to_nat (Z.abs q) in
  (forall row col, (row < n')%nat -> (col < m')%nat -> (row * m' + col < na)%nat ->
     exists tl, nth_error A (row * m' + col) = Some tl /\
       shaped tl T_x2 X X /\ Tile.isNegative tl = (a <? 0) /\
       aims tl (solveStartX app m p + inject_Z (Z.of_nat col) * X)%Q
               (solveStartY app n q + inject_Z (Z.of_nat row) * X)%Q) /\
  (forall col row, (col < p')%nat -> (row < n')%nat -> (col * n' + row < nb)%nat ->
     exists tl, nth_error A (na + (col * n' + row)) = Some tl /\
       shaped tl T_x U X /\ Tile.rotation tl = 1 /\ Tile.isNegative tl = (b <? 0) /\
       aims tl (vStartX app m p + inject_Z (Z.of_nat col) * U)%Q
               (solveStartY app n q + inject_Z (Z.of_nat row) * X)%Q) /\
  (forall row col, (row < q')%nat -> (col < m')%nat ->
     (p' * n' + (row * m' + col) < nb)%nat ->
     exists tl, nth_error A (na + p' * n' + (row * m' + col)) = Some tl /\
       shaped tl T_x X U /\ Tile.rotation tl = 0 /\ Tile.isNegative tl = (b <? 0) /\
       aims tl (solveStartX app m p + inject_Z (Z.of_nat col) * X)%Q
               (hStartY app n q + inject_Z (Z.of_nat row) * U)%Q) /\
  (forall row col, (row < q')%nat -> (col < p')%nat -> (row * p' + col < nc)%nat ->
     exists tl, nth_error A (na + nb + (row * p' + col)) = Some tl /\
       shaped tl T_one U U /\ Tile.isNegative tl = (c <? 0) /\
       aims tl (vStartX app m p + inject_Z (Z.of_nat col) * U)%Q
               (hStartY app n q + inject_Z (Z.of_nat row) * U)%Q).
Proof.
  intros A X U na nb nc m' n' p' q'.
  destruct (assigned_nth app a b c m n p q) as [F1 [F2 [F3 F4]]].
  fold A na nb nc m' n' p' q' in F1, F2, F3, F4.
  split; [|split; [|split]].
  - intros row col Hr Hc Hi.
    destruct (F1 row col Hr Hc Hi) as [g [Hg HA]].
    destruct (generatedTiles_at _ _ _ _ _ _ Hg) as [Hs Hk]. fold na nb in Hk.
    destruct (Nat.ltb_spec (row * m' + col) na) as [L|L]; [|lia].
    eexists. split; [exact HA|].
    exact (placeSquare_fields (generateTiles a b c app) m n p q _ g _ Hs Hk).
  - intros col row Hc Hr Hi.
    destruct (F2 col row Hc Hr Hi) as [g [Hg HA]].
    destruct (generatedTiles_at _ _ _ _ _ _ Hg) as [Hs Hk]. fold na nb in Hk.
    destruct (Nat.ltb_spec (na + (col * n' + row)) na) as [L|L]; [lia|].
    destruct (Nat.ltb_spec (na + (col * n' + row)) (na + nb)) as [L'|L']; [|lia].
    eexists. split; [exact HA|].
    exact (placeVertical_fields (generateTiles a b c app) m n p q _ g _ Hs Hk).
  - intros row col Hr Hc Hi.
    destruct (F3 row col Hr Hc Hi) as [g [Hg HA]].
    destruct (generatedTiles_at _ _ _ _ _ _ Hg) as [Hs Hk]. fold na nb in Hk.
    destruct (Nat.ltb_spec (na + p' * n' + (row * m' + col)) na) as [L|L]; [lia|].
    destruct (Nat.ltb_spec (na + p' * n' + (row * m' + col)) (na + nb)) as [L'|L']; [|lia].
    eexists. split; [exact HA|].
    exact (placeHorizontal_fields (generateTiles a b c app) m n p q _ g _ Hs Hk).
  - intros row col Hr Hc Hi.
    destruct (F4 row col Hr Hc Hi) as [g [Hg HA]].
    destruct (generatedTiles_at _ _ _ _ _ _ Hg) as [Hs Hk]. fold na nb in Hk.
    destruct (Nat.ltb_spec (na + nb + (row * p' + col)) na) as [L|L]; [lia|].
    destruct (Nat.ltb_spec (na + nb + (row * p' + col)) (na + nb)) as [L'|L']; [lia|].
    eexists. split; [exact HA|].
    exact (placeUnit_fields (generateTiles a b c app) m n p q _ g _ Hs Hk).
Qed.

Lemma factor_counts (a b c m n p q : Z) :
  m * n = Z.abs a -> 0 < m -> 0 <= n -> p * q = c ->
  Z.to_nat (Z.abs a) = (Z.to_nat n * Z.to_nat m)%nat /\
  Z.to_nat (Z.abs c) = (Z.to_nat (Z.abs q) * Z.to_nat (Z.abs p))%nat.
Proof.
  intros Hmn Hm Hn Hc. split.
  - rewrite <- Hmn, Z.mul_comm. apply Z2Nat.inj_mul; lia.
  - rewrite <- Hc, Z.abs_mul, Z.mul_comm. apply Z2Nat.inj_mul; lia.
Qed.

Lemma slot_index (row col height width : nat) :
  (row < height)%nat -> (col < width)%nat -> (row * width + col < height * width)%nat.
Proof. intros Hr Hc. nia. Qed.

(** X19: after a successful solve the arrangement is, index by index, the
    layout of the factorization: the x^2 tiles fill an n-by-m grid row by
    row from the start corner; the first |p| n bars stand upright in |p|
    columns of n, filled column by column; the next bars lie flat in |q|
    rows of m; the units fill |q| rows of |p| where the two bar blocks
    meet.  The final sort moves nothing. *)
Theorem solveAndAnimate_layout (app : App) (a b c m n p q : Z) :
  solverCoefficients app = (a, b, c) ->
  getClosestFactors a = (m, n) ->
  solveSearch m n b c = Some (p, q) ->
  let ts := tiles (solveAndAnimate app) in
  let X := SIZES_x (SIZES (config app)) in
  let U := SIZES_u (SIZES (config app)) in
  let na := Z.to_nat (Z.abs a) in
  let nb := Z.to_nat (Z.abs b) in
  let m' := Z.to_nat m in
  let n' := Z.to_nat n in
  let p' := Z.to_nat (Z.abs p) in
  let q' := Z.to_nat (Z.abs q) in
  (forall row col, (row < n')%nat -> (col < m')%nat ->
     exists tl, nth_error ts (row * m' + col) = Some tl /\
       shaped tl T_x2 X X /\
       aims tl (solveStartX app m p + inject_Z (Z.of_nat col) * X)%Q
               (solveStartY app n q + inject_Z (Z.of_nat row) * X)%Q) /\
  (forall col row, (col < p')%nat -> (row < n')%nat -> (col * n' + row < nb)%nat ->
     exists tl, nth_error ts (na + (col * n' + row)) = Some tl /\
       shaped tl T_x U X /\ Tile.rotation tl = 1 /\
       aims tl (vStartX app m p + inject_Z (Z.of_nat col) * U)%Q
               (solveStartY app n q + inject_Z (Z.of_nat row) * X)%Q) /\
  (forall row col, (row < q')%nat -> (col < m')%nat ->
     (p' * n' + (row * m' + col) < nb)%nat ->
     exists tl, nth_error ts (na + p' * n' + (row * m' + col)) = Some tl /\
       shaped tl T_x X U /\ Tile.rotation tl = 0 /\
       aims tl (solveStartX app m p + inject_Z (Z.of_nat col) * X)%Q
               (hStartY app n q + inject_Z (Z.of_nat row) * U)%Q) /\
  (forall row col, (row < q')%nat -> (col < p')%nat ->
     exists tl, nth_error ts (na + nb + (row * p' + col)) = Some tl /\
       shaped tl T_one U U /\
       aims tl (vStartX app m p + inject_Z (Z.of_nat col) * U)%Q
               (hStartY app n q + inject_Z (Z.of_nat row) * U)%Q).
Proof.
  intros Hco Hf Hs ts X U na nb m' n' p' q'.
  unfold ts. rewrite (solved_tiles app a b c m n p q Hco Hf Hs).
  destruct (getClosestFactors_product a) as [Hmn [Hm Hn]].
  rewrite Hf in Hmn, Hm, Hn. cbn [fst snd] in Hmn, Hm, Hn.
  destruct (solveSearch_Some m n b c p q Hs) as [_ Hc].
  destruct (factor_counts a b c m n p q Hmn Hm Hn Hc) as [Ha Hcc].
  destruct (layout_nth app a b c m n p q) as [F1 [F2 [F3 F4]]].
  split; [|split; [|split]].
  - intros row col Hr Hc'.
    destruct (F1 row col Hr Hc') as [tl [H1 [H2 [_ H3]]]].
    { rewrite Ha. apply slot_index; assumption. }
    exists tl. auto.
  - intros col row Hc' Hr Hi.
    destruct (F2 col row Hc' Hr Hi) as [tl [H1 [H2 [H3 [_ H4]]]]].
    exists tl. auto.
  - intros row col Hr Hc' Hi.
    destruct (F3 row col Hr Hc' Hi) as [tl [H1 [H2 [H3 [_ H4]]]]].
    exists tl. auto.
  - intros row col Hr Hc'.
    destruct (F4 row col Hr Hc') as [tl [H1 [H2 [_ H3]]]].
    { rewrite Hcc. apply slot_index; assumption. }
    exists tl. auto.
Qed.

Lemma solveAndAnimate_layout_witness :
  solverCoefficients (sampleApp "1" "5" "6" []) = (1, 5, 6) /\
  getClosestFactors 1 = (1, 1) /\
  solveSearch 1 1 5 6 = Some (2, 3) /\
  exists tl, nth_error (tiles (solveAndAnimate (sampleApp "1" "5" "6" []))) 11 = Some tl /\
    shaped tl T_one 25 25 /\
    aims tl (vStartX (sampleApp "1" "5" "6" []) 1 2 + inject_Z 1 * 25)%Q
            (hStartY (sampleApp "1" "5" "6" []) 1 3 + inject_Z 2 * 25)%Q.
Proof.
  split; [reflexivity|]. split; [reflexivity|]. split; [reflexivity|].
  destruct (solveAndAnimate_layout (sampleApp "1" "5" "6" []) 1 5 6 1 1 2 3
              eq_refl eq_refl eq_refl) as [_ [_ [_ H]]].
  destruct (H 2%nat 1%nat ltac:(cbn; lia) ltac:(cbn; lia)) as [tl [H1 [H2 H3]]].
  exists tl. split; [exact H1|]. split; [exact H2|exact H3].
Defined.

(** ** The solved layout passes the validator *)

(** *** The tightest box *)

Lemma fold_Qmin_tight (l : list Q) : forall x0 lo,
  (lo <= x0)%Q -> Forall (fun v => lo <= v)%Q l ->
  (x0 == lo)%Q \/ Exists (fun v => v == lo)%Q l ->
  (fold_left Qmin l x0 == lo)%Q.
Proof.
  induction l as [|v l IH]; intros x0 lo Hx HF HE; cbn [fold_left].
  - destruct HE as [HE|HE]; [exact HE|inversion HE].
  - inversion HF as [|v' l' Hv HF']; subst.
    apply IH; [apply Q.min_glb; assumption|exact HF'|].
    destruct HE as [HE|HE].
    + left. rewrite Q.min_l; [exact HE|]. rewrite HE. exact Hv.
    + inversion HE as [v' l' Hv'|v' l' HE']; subst.
      * left. rewrite Q.min_r; [exact Hv'|]. rewrite Hv'. exact Hx.
      * right. exact HE'.
Qed.

Lemma fold_Qmax_tight (l : list Q) : forall x0 hi,
  (x0 <= hi)%Q -> Forall (fun v => v <= hi)%Q l ->
  (x0 == hi)%Q \/ Exists (fun v => v == hi)%Q l ->
  (fold_left Qmax l x0 == hi)%Q.
Proof.
  induction l as [|v l IH]; intros x0 hi Hx HF HE; cbn [fold_left].
  - destruct HE as [HE|HE]; [exact HE|inversion HE].
  - inversion HF as [|v' l' Hv HF']; subst.
    apply IH; [apply Q.max_lub; assumption|exact HF'|].
    destruct HE as [HE|HE].
    + left. rewrite Q.max_l; [exact HE|]. rewrite HE. exact Hv.
    + inversion HE as [v' l' Hv'|v' l' HE']; subst.
      * left. rewrite Q.max_r; [exact Hv'|]. rewrite Hv'. exact Hx.
      * right. exact HE'.
Qed.

Lemma Exists_head {A : Type} (f : A -> Q) (v : Q) (a : A) (l : list A) :
  Exists (fun x => f x == v)%Q (a :: l) ->
  (f a == v)%Q \/ Exists (fun u => u == v)%Q (map f l).
Proof.
  intro H. inversion H as [a' l' Ha|a' l' Hl]; subst.
  - left. exact Ha.
  - right. apply Exists_map. exact Hl.
Qed.

(** The box of the validator is the tightest one: if every tile lies inside
    a box and some tile touches each of its four sides, the measured width
    and height are those of that box. *)
Lemma bbox_tight (ts : list Tile.t) (x0 y0 x1 y1 : Q) :
  Forall (fun tl => x0 <= Tile.x tl /\ Tile.x tl + Tile.w tl <= x1 /\
                    y0 <= Tile.y tl /\ Tile.y tl + Tile.h tl <= y1)%Q ts ->
  Exists (fun tl => Tile.x tl == x0)%Q ts ->
  Exists (fun tl => Tile.y tl == y0)%Q ts ->
  Exists (fun tl => Tile.x tl + Tile.w tl == x1)%Q ts ->
  Exists (fun tl => Tile.y tl + Tile.h tl == y1)%Q ts ->
  (bboxWidth (scanTiles ts) == x1 - x0)%Q /\
  (bboxHeight (scanTiles ts) == y1 - y0)%Q.
Proof.
  intros HF Ex0 Ey0 Ex1 Ey1.
  destruct ts as [|t0 rest]; [inversion Ex0|].
  destruct (scanTiles_bbox t0 rest) as [-> ->].
  inversion HF as [|t' l' [Hx0 [Hx1 [Hy0 Hy1]]] HF']; subst.
  rewrite Forall_forall in HF'.
  split.
  - rewrite (fold_Qmax_tight _ _ x1 Hx1), (fold_Qmin_tight _ _ x0 Hx0);
      [reflexivity| | | |].
    + apply Forall_map, Forall_forall. intros tl Hin. apply (HF' tl Hin).
    + exact (Exists_head Tile.x x0 t0 rest Ex0).
    + apply Forall_map, Forall_forall. intros tl Hin. apply (HF' tl Hin).
    + exact (Exists_head (fun tl => Tile.x tl + Tile.w tl)%Q
               x1 t0 rest Ex1).
  - rewrite (fold_Qmax_tight _ _ y1 Hy1), (fold_Qmin_tight _ _ y0 Hy0);
      [reflexivity| | | |].
    + apply Forall_map, Forall_forall. intros tl Hin. apply (HF' tl Hin).
    + exact (Exists_head Tile.y y0 t0 rest Ey0).
    + apply Forall_map, Forall_forall. intros tl Hin. apply (HF' tl Hin).
    + exact (Exists_head (fun tl => Tile.y tl + Tile.h tl)%Q
               y1 t0 rest Ey1).
Qed.

(** *** From the layout to the settled arrangement *)

Lemma frames_keep (k : nat) : forall a a' fs,
  renderN k a = Some (a', fs) ->
  config a' = config a /\
  Forall2 (fun tl tl' => exists x' y', tl' = Tile.setPos tl x' y')
          (tiles a) (tiles a').
Proof.
  induction k as [|k IH]; intros a a' fs H; cbn [renderN] in H.
  - injection H as <- _. split; [reflexivity|].
    induction (tiles a) as [|tl l IHl]; constructor; [|exact IHl].
    exists (Tile.x tl), (Tile.y tl). destruct tl; reflexivity.
  - destruct (render a) as [[a1 f]|] eqn:E; [|discriminate].
    destruct (renderN k a1) as [[a2 fs']|] eqn:E'; [|discriminate].
    injection H as <- _.
    destruct (render_frame a a1 f E) as [Hc HF].
    destruct (IH a1 a2 fs' E') as [Hc' HF'].
    split; [congruence|].
    clear - HF HF'. revert HF'. generalize (tiles a2).
    induction HF as [|tl tl1 l l1 [x1 [y1 ->]] _ IHF]; intros l2 HF';
      inversion HF' as [|u tl2 lu l2' [x2 [y2 ->]] HF'']; subst; constructor.
    + exists x2, y2. reflexivity.
    + apply IHF. exact HF''.
Qed.

Lemma landed_Forall (P : Q -> Q -> Q -> Q -> Prop) (l l' : list Tile.t) :
  Forall2 (fun tl tl' => exists x' y', tl' = Tile.setPos tl x' y') l l' ->
  Forall atTarget l' ->
  Forall (fun tl => exists tx ty, aims tl tx ty /\ P tx ty (Tile.w tl) (Tile.h tl)) l ->
  Forall (fun tl => P (Tile.x tl) (Tile.y tl) (Tile.w tl) (Tile.h tl)) l'.
Proof.
  induction 1 as [|tl tl' l l' [x' [y' ->]] _ IH]; intros Hat HP; constructor.
  - inversion Hat as [|u lu [Hx Hy] _]; subst.
    inversion HP as [|u lu [tx [ty [[Htx Hty] Hp]]] _]; subst.
    cbn [Tile.setPos Tile.targetX Tile.targetY Tile.x Tile.y Tile.w Tile.h] in *.
    congruence.
  - inversion Hat; inversion HP; subst. apply IH; assumption.
Qed.

Lemma landed_Exists (P : Q -> Q -> Q -> Q -> Prop) (l l' : list Tile.t) :
  Forall2 (fun tl tl' => exists x' y', tl' = Tile.setPos tl x' y') l l' ->
  Forall atTarget l' ->
  Exists (fun tl => exists tx ty, aims tl tx ty /\ P tx ty (Tile.w tl) (Tile.h tl)) l ->
  Exists (fun tl => P (Tile.x tl) (Tile.y tl) (Tile.w tl) (Tile.h tl)) l'.
Proof.
  induction 1 as [|tl tl' l l' [x' [y' ->]] _ IH]; intros Hat HP;
    [inversion HP|].
  inversion Hat as [|u lu [Hx Hy] Hat']; subst.
  inversion HP as [u lu [tx [ty [[Htx Hty] Hp]]]|u lu HP']; subst.
  - apply Exists_cons_hd.
    cbn [Tile.setPos Tile.targetX Tile.targetY Tile.x Tile.y Tile.w Tile.h] in *.
    congruence.
  - apply Exists_cons_tl. apply IH; assumption.
Qed.

Lemma frame_Forall (P : Tile.t -> Prop) (l l' : list Tile.t) :
  (forall tl x' y', P tl -> P (Tile.setPos tl x' y')) ->
  Forall2 (fun tl tl' => exists x' y', tl' = Tile.setPos tl x' y') l l' ->
  Forall P l -> Forall P l'.
Proof.
  intro HP. induction 1 as [|tl tl' l l' [x' [y' ->]] _ IH]; intro HF; constructor;
    inversion HF; subst; auto.
Qed.

Lemma frame_kindSign (l l' : list Tile.t) :
  Forall2 (fun tl tl' => exists x' y', tl' = Tile.setPos tl x' y') l l' ->
  map kindSign l' = map kindSign l.
Proof.
  induction 1 as [|tl tl' l l' [x' [y' ->]] _ IH]; [reflexivity|].
  cbn [map]. rewrite IH. reflexivity.
Qed.

(** *** The area of an arrangement of positive tiles *)

Lemma areaSum_acc (l : list Tile.t) : forall acc,
  (fold_left (fun acc tl => acc + area tl) l acc == acc + areaSum l)%Q.
Proof.
  unfold areaSum. induction l as [|tl l IH]; intro acc; cbn [fold_left].
  - ring.
  - rewrite (IH (acc + area tl)%Q), (IH (0 + area tl)%Q). ring.
Qed.

Lemma areaSum_by_kind (cfg : TileConfig) (l : list Tile.t) :
  let X := SIZES_x (SIZES cfg) in
  let U := SIZES_u (SIZES cfg) in
  Forall (fun tl => sized cfg tl /\ Tile.isNegative tl = false) l ->
  (areaSum l == inject_Z (signedCount T_x2 l) * (X * X)
              + inject_Z (signedCount T_x l) * (X * U)
              + inject_Z (signedCount T_one l) * (U * U))%Q.
Proof.
  intros X U. induction 1 as [|tl l [Hs Hneg] _ IH].
  - cbn. ring.
  - unfold areaSum. cbn [fold_left]. rewrite areaSum_acc, IH.
    cbn [signedCount]. rewrite Hneg. unfold area.
    destruct (sized_dims cfg tl Hs) as [-> ->]. fold X U.
    destruct (Tile.type tl); cbn [TileType_eqb]; rewrite !inject_Z_plus.
    + change (inject_Z 1) with 1%Q. change (inject_Z 0) with 0%Q. ring.
    + change (inject_Z 1) with 1%Q. change (inject_Z 0) with 0%Q.
      destruct (Tile.rotation tl =? 0); ring.
    + change (inject_Z 1) with 1%Q. change (inject_Z 0) with 0%Q. ring.
Qed.

Lemma existsb_none {A : Type} (f : A -> bool) (l : list A) :
  Forall (fun x => f x = false) l -> existsb f l = false.
Proof.
  induction 1 as [|x l Hx _ IH]; cbn [existsb]; [reflexivity|].
  rewrite Hx, IH. reflexivity.
Qed.

(** *** The layout of a positive factorization fills its box *)

Lemma slot_range (z : Z) (k : nat) :
  (k < Z.to_nat z)%nat ->
  (0 <= inject_Z (Z.of_nat k) /\ inject_Z (Z.of_nat k) + 1 <= inject_Z z)%Q.
Proof.
  intro H. split.
  - change 0%Q with (inject_Z 0). rewrite <- Zle_Qle. lia.
  - change 1%Q with (inject_Z 1). rewrite <- inject_Z_plus, <- Zle_Qle. lia.
Qed.

Lemma slot_last (z : Z) :
  0 < z -> (inject_Z (Z.of_nat (Z.to_nat z - 1)) + 1 == inject_Z z)%Q.
Proof.
  intro H. change 1%Q with (inject_Z 1). rewrite <- inject_Z_plus.
  replace (Z.of_nat (Z.to_nat z - 1) + 1) with z by lia. reflexivity.
Qed.

Lemma index_split (i height width : nat) :
  (i < height * width)%nat ->
  exists row col, i = (row * width + col)%nat /\ (row < height)%nat /\ (col < width)%nat.
Proof.
  intro H. assert (Hw : width <> 0%nat) by nia.
  exists (i / width)%nat, (i mod width)%nat. split; [|split].
  - rewrite Nat.mul_comm. apply Nat.div_mod_eq.
  - apply Nat.Div0.div_lt_upper_bound. rewrite Nat.mul_comm. exact H.
  - apply Nat.mod_upper_bound. exact Hw.
Qed.

Lemma span_inner (s k K size rest : Q) :
  (0 <= size -> 0 <= rest -> 0 <= k -> k + 1 <= K ->
   s <= s + k * size /\ s + k * size + size <= s + (K * size + rest))%Q.
Proof. intros H1 H2 H3 H4. split; nra. Qed.

Lemma span_outer (s k K size base : Q) :
  (0 <= size -> 0 <= base -> 0 <= k -> k + 1 <= K ->
   s <= s + base + k * size /\ s + base + k * size + size <= s + (base + K * size))%Q.
Proof. intros H1 H2 H3 H4. split; nra. Qed.

Lemma positive_factors (a b c m n p q : Z) :
  0 < a -> 0 < b -> 0 < c ->
  m * n = Z.abs a -> 0 < m -> 0 <= n -> m * q + n * p = b -> p * q = c ->
  0 < n /\ 0 < p /\ 0 < q /\
  Z.to_nat (Z.abs b) = (Z.to_nat p * Z.to_nat n + Z.to_nat q * Z.to_nat m)%nat.
Proof.
  intros Ha Hb Hc Hmn Hm Hn Hbq Hpq.
  assert (Hn' : 0 < n) by nia.
  assert (Hp : 0 < p) by nia.
  assert (Hq : 0 < q) by nia.
  split; [exact Hn'|]. split; [exact Hp|]. split; [exact Hq|].
  rewrite <- Hbq, Z.abs_eq by nia.
  rewrite Z2Nat.inj_add, !Z2Nat.inj_mul by nia. lia.
Qed.

Lemma assignTargets_length (app : App) (m n p q : Z) :
  List.length (assignTargets app m n p q) = List.length (tiles app).
Proof.
  rewrite <- (length_map kindSign), assignTargets_kindSign. apply length_map.
Qed.

(** For positive coefficients every target lies inside the box of the
    factorization, the first x^2 tile aims at its top-left corner and the
    last unit tile at its bottom-right corner. *)
Lemma solved_inside (app : App) (a b c m n p q : Z) :
  0 < a -> 0 < b -> 0 < c ->
  getClosestFactors a = (m, n) -> solveSearch m n b c = Some (p, q) ->
  (0 <= SIZES_x (SIZES (config app)))%Q -> (0 <= SIZES_u (SIZES (config app)))%Q ->
  let A := assignTargets (generateTiles a b c app) m n p q in
  let X := SIZES_x (SIZES (config app)) in
  let U := SIZES_u (SIZES (config app)) in
  let sX := solveStartX app m p in
  let sY := solveStartY app n q in
  let W := (inject_Z m * X + inject_Z p * U)%Q in
  let H := (inject_Z n * X + inject_Z q * U)%Q in
  Forall (fun tl => Tile.isNegative tl = false /\
            exists tx ty, aims tl tx ty /\
              (sX <= tx /\ tx + Tile.w tl <= sX + W /\
               sY <= ty /\ ty + Tile.h tl <= sY + H)%Q) A /\
  Exists (fun tl => exists tx ty, aims tl tx ty /\ (tx == sX /\ ty == sY)%Q) A /\
  Exists (fun tl => exists tx ty, aims tl tx ty /\
            (tx + Tile.w tl == sX + W /\ ty + Tile.h tl == sY + H)%Q) A.
Proof.
  intros Ha Hb Hc Hf Hs HX HU A X U sX sY W H.
  destruct (getClosestFactors_product a) as [Hmn [Hm Hn]].
  rewrite Hf in Hmn, Hm, Hn. cbn [fst snd] in Hmn, Hm, Hn.
  destruct (solveSearch_Some m n b c p q Hs) as [Hbq Hpq].
  destruct (positive_factors a b c m n p q Ha Hb Hc Hmn Hm Hn Hbq Hpq)
    as [Hn' [Hp [Hq Hnb]]].
  destruct (factor_counts a b c m n p q Hmn Hm Hn Hpq) as [Hna Hnc].
  destruct (layout_nth app a b c m n p q) as [F1 [F2 [F3 F4]]].
  fold A X U sX sY in F1, F2, F3, F4.
  assert (HvX : vStartX app m p = (sX + inject_Z m * X)%Q).
  { unfold vStartX. rewrite (proj2 (Z.ltb_ge p 0)) by lia. reflexivity. }
  assert (HhY : hStartY app n q = (sY + inject_Z n * X)%Q).
  { unfold hStartY. rewrite (proj2 (Z.ltb_ge q 0)) by lia. reflexivity. }
  rewrite HvX in F2, F4. rewrite HhY in F3, F4.
  rewrite (proj2 (Z.ltb_ge a 0)) in F1 by lia.
  rewrite (proj2 (Z.ltb_ge b 0)) in F2, F3 by lia.
  rewrite (proj2 (Z.ltb_ge c 0)) in F4 by lia.
  rewrite (Z.abs_eq p) in F2, F3, F4, Hnc by lia.
  rewrite (Z.abs_eq q) in F3, F4, Hnc by lia.
  rewrite Hna in F1, F2, F3, F4. rewrite Hnb in F2, F3, F4. rewrite Hnc in F4.
  assert (Hlen : List.length A = (Z.to_nat n * Z.to_nat m
                                  + (Z.to_nat p * Z.to_nat n + Z.to_nat q * Z.to_nat m)
                                  + Z.to_nat q * Z.to_nat p)%nat).
  { unfold A. rewrite assignTargets_length. cbn [tiles generateTiles setTiles].
    rewrite generatedTiles_length, <- Hna, <- Hnb, <- Hnc. lia. }
  assert (HM : (0 <= inject_Z m * X)%Q).
  { apply Qmult_le_0_compat; [|exact HX].
    change 0%Q with (inject_Z 0). rewrite <- Zle_Qle. lia. }
  assert (HN : (0 <= inject_Z n * X)%Q).
  { apply Qmult_le_0_compat; [|exact HX].
    change 0%Q with (inject_Z 0). rewrite <- Zle_Qle. lia. }
  assert (HP : (0 <= inject_Z p * U)%Q).
  { apply Qmult_le_0_compat; [|exact HU].
    change 0%Q with (inject_Z 0). rewrite <- Zle_Qle. lia. }
  assert (HQ : (0 <= inject_Z q * U)%Q).
  { apply Qmult_le_0_compat; [|exact HU].
    change 0%Q with (inject_Z 0). rewrite <- Zle_Qle. lia. }
  set (m' := Z.to_nat m) in *. set (n' := Z.to_nat n) in *.
  set (p' := Z.to_nat p) in *. set (q' := Z.to_nat q) in *.
  split; [|split].
  - apply Forall_nth_error. intros i tl Hi.
    assert (Hlt : (i < List.length A)%nat)
      by (apply nth_error_Some; rewrite Hi; discriminate).
    rewrite Hlen in Hlt.
    destruct (Nat.lt_ge_cases i (n' * m')) as [L1|L1].
    { destruct (index_split i n' m' L1) as [row [col [-> [Hr Hc']]]].
      destruct (F1 row col Hr Hc' L1) as [tl1 [H1 [[_ [Hw Hh]] [Hneg Haim]]]].
      rewrite H1 in Hi. injection Hi as <-.
      split; [exact Hneg|]. eexists. eexists. split; [exact Haim|].
      rewrite Hw, Hh.
      destruct (slot_range m col Hc') as [C0 C1].
      destruct (slot_range n row Hr) as [R0 R1].
      destruct (span_inner sX _ _ X _ HX HP C0 C1) as [B1 B2].
      destruct (span_inner sY _ _ X _ HX HQ R0 R1) as [B3 B4].
      repeat split; assumption. }
    destruct (Nat.lt_ge_cases i (n' * m' + p' * n')) as [L2|L2].
    { assert (Hj : (i - n' * m' < p' * n')%nat) by lia.
      destruct (index_split _ p' n' Hj) as [col [row [E [Hc' Hr]]]].
      destruct (F2 col row Hc' Hr ltac:(lia)) as [tl1 [H1 [[_ [Hw Hh]] [_ [Hneg Haim]]]]].
      replace (n' * m' + (col * n' + row))%nat with i in H1 by lia.
      rewrite H1 in Hi. injection Hi as <-.
      split; [exact Hneg|]. eexists. eexists. split; [exact Haim|].
      rewrite Hw, Hh.
      destruct (slot_range p col Hc') as [C0 C1].
      destruct (slot_range n row Hr) as [R0 R1].
      destruct (span_outer sX _ _ U _ HU HM C0 C1) as [B1 B2].
      destruct (span_inner sY _ _ X _ HX HQ R0 R1) as [B3 B4].
      repeat split; assumption. }
    destruct (Nat.lt_ge_cases i (n' * m' + (p' * n' + q' * m'))) as [L3|L3].
    { assert (Hj : (i - n' * m' - p' * n' < q' * m')%nat) by lia.
      destruct (index_split _ q' m' Hj) as [row [col [E [Hr Hc']]]].
      destruct (F3 row col Hr Hc' ltac:(lia)) as [tl1 [H1 [[_ [Hw Hh]] [_ [Hneg Haim]]]]].
      replace (n' * m' + p' * n' + (row * m' + col))%nat with i in H1 by lia.
      rewrite H1 in Hi. injection Hi as <-.
      split; [exact Hneg|]. eexists. eexists. split; [exact Haim|].
      rewrite Hw, Hh.
      destruct (slot_range m col Hc') as [C0 C1].
      destruct (slot_range q row Hr) as [R0 R1].
      destruct (span_inner sX _ _ X _ HX HP C0 C1) as [B1 B2].
      destruct (span_outer sY _ _ U _ HU HN R0 R1) as [B3 B4].
      repeat split; assumption. }
    { assert (Hj : (i - n' * m' - (p' * n' + q' * m') < q' * p')%nat) by lia.
      destruct (index_split _ q' p' Hj) as [row [col [E [Hr Hc']]]].
      destruct (F4 row col Hr Hc' ltac:(lia)) as [tl1 [H1 [[_ [Hw Hh]] [Hneg Haim]]]].
      replace (n' * m' + (p' * n' + q' * m') + (row * p' + col))%nat with i in H1 by lia.
      rewrite H1 in Hi. injection Hi as <-.
      split; [exact Hneg|]. eexists. eexists. split; [exact Haim|].
      rewrite Hw, Hh.
      destruct (slot_range p col Hc') as [C0 C1].
      destruct (slot_range q row Hr) as [R0 R1].
      destruct (span_outer sX _ _ U _ HU HM C0 C1) as [B1 B2].
      destruct (span_outer sY _ _ U _ HU HN R0 R1) as [B3 B4].
      repeat split; assumption. }
  - assert (Hr : (0 < n')%nat) by (unfold n'; lia).
    assert (Hc' : (0 < m')%nat) by (unfold m'; lia).
    destruct (F1 0%nat 0%nat Hr Hc' ltac:(nia)) as [tl [H1 [_ [_ Haim]]]].
    apply Exists_exists. exists tl. split; [eapply nth_error_In; exact H1|].
    eexists. eexists. split; [exact Haim|].
    change (inject_Z (Z.of_nat 0)) with 0%Q. split; ring.
  - assert (Hr : (q' - 1 < q')%nat) by (unfold q'; lia).
    assert (Hc' : (p' - 1 < p')%nat) by (unfold p'; lia).
    destruct (F4 (q' - 1)%nat (p' - 1)%nat Hr Hc' ltac:(nia))
      as [tl [H1 [[_ [Hw Hh]] [_ Haim]]]].
    apply Exists_exists. exists tl. split; [eapply nth_error_In; exact H1|].
    eexists. eexists. split; [exact Haim|].
    rewrite Hw, Hh. unfold W, H.
    rewrite <- (slot_last p Hp), <- (slot_last q Hq). fold p' q'.
    split; ring.
Qed.

(** X20: for positive coefficients that the search can factor, the
    animation of a solve settles on an arrangement that the validator
    accepts as a perfect rectangle: no tile is negative, the bounding box
    is exactly (m X + p U) by (n X + q U), the two factors drawn to scale,
    and the tile areas add up to its area. *)
Theorem solved_layout_validates (app : App) (a b c m n p q : Z) :
  solverCoefficients app = (a, b, c) ->
  0 < a -> 0 < b -> 0 < c ->
  getClosestFactors a = (m, n) -> solveSearch m n b c = Some (p, q) ->
  (0 <= SIZES_x (SIZES (config app)))%Q -> (0 <= SIZES_u (SIZES (config app)))%Q ->
  let X := SIZES_x (SIZES (config app)) in
  let U := SIZES_u (SIZES (config app)) in
  exists N, forall k, (N < k)%nat ->
    exists app_k,
      renderN k (solveAndAnimate app) = Some (app_k, schedule N k) /\
      isAnimating app_k = false /\
      existsb Tile.isNegative (tiles app_k) = false /\
      (bboxWidth (scanTiles (tiles app_k)) == inject_Z m * X + inject_Z p * U)%Q /\
      (bboxHeight (scanTiles (tiles app_k)) == inject_Z n * X + inject_Z q * U)%Q /\
      (areaSum (tiles app_k) == bboxArea (scanTiles (tiles app_k)))%Q /\
      verdictOf app_k = PerfectRectangle.
Proof.
  intros Hco Ha Hb Hc Hf Hs HX HU X U.
  pose proof (solved_tiles app a b c m n p q Hco Hf Hs) as Hts.
  destruct (solved_inside app a b c m n p q Ha Hb Hc Hf Hs HX HU)
    as [HFor [HEx0 HEx1]].
  rewrite <- Hts in HFor, HEx0, HEx1.
  assert (Han : isAnimating (solveAndAnimate app) = true).
  { unfold solveAndAnimate. rewrite Hco, Hf, Hs. reflexivity. }
  assert (Htg : Forall hasTarget (tiles (solveAndAnimate app))).
  { eapply Forall_impl; [|exact HFor].
    intros tl [_ [tx [ty [[Htx Hty] _]]]]. unfold hasTarget.
    rewrite Htx, Hty. split; discriminate. }
  destruct (render_schedule (stepsBound (tiles (solveAndAnimate app)))
              (solveAndAnimate app) (le_n _) Han Htg) as [N [_ HN]].
  exists N. intros k Hk.
  destruct (HN k) as [app_k [Hr Hset]]. destruct (Hset Hk) as [Hidle Hat].
  exists app_k. split; [exact Hr|]. split; [exact Hidle|].
  destruct (frames_keep k _ _ _ Hr) as [Hcfg HF2].
  destruct (solveAndAnimate_sized app) as [Hcfg' Hsz].
  set (F := tiles app_k) in *.
  (* no negative tile *)
  assert (Hneg : Forall (fun tl => Tile.isNegative tl = false) F).
  { apply (frame_Forall (fun tl => Tile.isNegative tl = false) _ _
             (fun tl x' y' H => H) HF2).
    eapply Forall_impl; [|exact HFor]. intros tl [H _]. exact H. }
  assert (Hnone : existsb Tile.isNegative F = false) by (apply existsb_none; exact Hneg).
  (* the box *)
  pose proof (landed_Forall
                (fun tx ty w h =>
                   solveStartX app m p <= tx /\
                   tx + w <= solveStartX app m p + (inject_Z m * X + inject_Z p * U) /\
                   solveStartY app n q <= ty /\
                   ty + h <= solveStartY app n q + (inject_Z n * X + inject_Z q * U))%Q
                _ _ HF2 Hat) as Hin.
  cbv beta in Hin.
  assert (Hbox := Hin ltac:(eapply Forall_impl; [|exact HFor];
                            intros tl [_ H]; exact H)).
  pose proof (landed_Exists
                (fun tx ty w h => tx == solveStartX app m p /\
                                  ty == solveStartY app n q)%Q
                _ _ HF2 Hat HEx0) as Hc0.
  pose proof (landed_Exists
                (fun tx ty w h =>
                   tx + w == solveStartX app m p + (inject_Z m * X + inject_Z p * U) /\
                   ty + h == solveStartY app n q + (inject_Z n * X + inject_Z q * U))%Q
                _ _ HF2 Hat HEx1) as Hc1.
  cbv beta in Hc0, Hc1.
  destruct (bbox_tight F _ _ _ _ Hbox) as [Hw Hh].
  { eapply Exists_impl; [|exact Hc0]. intros tl [H _]. exact H. }
  { eapply Exists_impl; [|exact Hc0]. intros tl [_ H]. exact H. }
  { eapply Exists_impl; [|exact Hc1]. intros tl [H _]. exact H. }
  { eapply Exists_impl; [|exact Hc1]. intros tl [_ H]. exact H. }
  assert (Hw' : (bboxWidth (scanTiles F) == inject_Z m * X + inject_Z p * U)%Q)
    by (rewrite Hw; ring).
  assert (Hh' : (bboxHeight (scanTiles F) == inject_Z n * X + inject_Z q * U)%Q)
    by (rewrite Hh; ring).
  (* the area *)
  assert (Harea : (areaSum F == inject_Z a * (X * X) + inject_Z b * (X * U)
                                + inject_Z c * (U * U))%Q).
  { assert (HsF : Forall (fun tl => sized (config app) tl /\ Tile.isNegative tl = false) F).
    { apply Forall_forall. intros tl Hin'. split.
      - pose proof (frame_Forall _ _ _ (setPos_sized (config app)) HF2 Hsz) as HszF.
        rewrite Forall_forall in HszF. apply HszF. exact Hin'.
      - rewrite Forall_forall in Hneg. apply Hneg. exact Hin'. }
    rewrite (areaSum_by_kind (config app) F HsF).
    pose proof (frame_kindSign _ _ HF2) as Hks. fold F in Hks. rewrite Hts in Hks.
    rewrite assignTargets_kindSign in Hks. cbn [tiles generateTiles setTiles] in Hks.
    destruct (generatedTiles_signedCount (config app) a b c) as [S1 [S2 S3]].
    rewrite !(signedCount_kindSign _ _ _ Hks), S1, S2, S3. reflexivity. }
  assert (Heq : (areaSum F == bboxArea (scanTiles F))%Q).
  { unfold bboxArea. rewrite Harea, Hw', Hh'.
    destruct (getClosestFactors_product a) as [Hmn _].
    rewrite Hf in Hmn. cbn [fst snd] in Hmn. rewrite Z.abs_eq in Hmn by lia.
    destruct (solveSearch_Some m n b c p q Hs) as [Hbq Hpq].
    rewrite <- Hmn, <- Hbq, <- Hpq.
    rewrite !inject_Z_plus, !inject_Z_mult. ring. }
  split; [exact Hnone|]. split; [exact Hw'|]. split; [exact Hh'|].
  split; [exact Heq|].
  unfold verdictOf. destruct (validatorCoefficients app_k) as [[va vb] vc].
  fold F. rewrite validate_no_negative; [|inversion Hc0; discriminate|exact Hnone].
  rewrite (proj2 (lt_true_iff _ _)); [reflexivity|].
  assert (E : (bboxArea (scanTiles F) - areaSum F == 0)%Q) by (rewrite Heq; ring).
  rewrite E. reflexivity.
Qed.

Lemma solved_layout_validates_witness :
  solverCoefficients (sampleApp "1" "5" "6" []) = (1, 5, 6) /\
  solveSearch 1 1 5 6 = Some (2, 3) /\
  exists N, forall k, (N < k)%nat ->
    exists app_k,
      renderN k (solveAndAnimate (sampleApp "1" "5" "6" [])) = Some (app_k, schedule N k) /\
      (bboxWidth (scanTiles (tiles app_k)) == 250)%Q /\
      (bboxHeight (scanTiles (tiles app_k)) == 275)%Q /\
      verdictOf app_k = PerfectRectangle.
Proof.
  split; [reflexivity|]. split; [reflexivity|].
  destruct (solved_layout_validates (sampleApp "1" "5" "6" []) 1 5 6 1 1 2 3
              eq_refl eq_refl eq_refl eq_refl eq_refl eq_refl
              ltac:(discriminate) ltac:(discriminate)) as [N HN].
  exists N. intros k Hk. destruct (HN k Hk) as [app_k [H1 [_ [_ [H2 [H3 [_ H4]]]]]]].
  exists app_k. split; [exact H1|]. split; [exact H2|]. split; [exact H3|exact H4].
Defined.
